(** * MaiBot: bootstrap sequencing and service hosting (src/main.py)

    The module main.py defines four coroutines: [main], [MainSystem.initialize],
    [MainSystem._init_components] and [MainSystem.schedule_tasks].  They run
    on one asyncio event loop.  Every collaborator they call (task manager,
    knowledge base, plugin manager, emoji manager, mood manager, chat
    manager, message server, control server, migration runner, events
    manager) is opaque to this module: a call returns or raises, and an
    awaited call may suspend the calling task a number of times before it
    does either.  That behaviour is the environment [env] below.

    The embedding is a state machine over the seven asyncio tasks the module
    creates.  One scheduler step resumes one task and runs it up to its next
    suspension point, as the event loop does.

    What the embedding takes for granted about the code it does not see:
    - [logger.info], the accessors [get_emoji_manager()] and
      [get_chat_manager()], the imports at lines 112-113 and the
      construction of a coroutine object (calling an [async def] without
      awaiting it, lines 128-130 and 148-149) neither raise nor suspend;
    - [time.time()] returns a binary64 number that is finite and of a
      magnitude below 2^63 seconds; the arithmetic of line 118 is that of
      binary64, and for such readings its result is finite, so that [int]
      does not raise and the handler at lines 120-122 is never entered
      (proved below, [int_defined]);
    - [asyncio.gather] wraps its arguments in tasks in the order they are
      written, returns when all of them returned, and raises the first
      exception one of them raised while the others keep running;
    - [asyncio.create_task] (line 91) starts a task that nothing in this
      module awaits: only its creation is observed. *)

From Stdlib Require Import List ZArith Bool Arith Lia SpecFloat.
Import ListNotations.
Close Scope Z_scope.

Set Implicit Arguments.

(** ** Collaborator entry points called from main.py *)

Inductive callee : Type :=
| get_global_api                      (* line 36 *)
| get_global_server                   (* line 37 *)
| add_task_OnlineTimeRecordTask       (* line 63 *)
| add_task_StatisticOutputTask        (* line 66 *)
| add_task_TelemetryHeartBeatTask     (* line 69 *)
| lpmm_start_up                       (* line 76 *)
| load_all_plugins                    (* line 79 *)
| emoji_manager_initialize            (* line 82 *)
| mood_manager_start                  (* line 86 *)
| chat_manager_initialize             (* line 90 *)
| chat_manager_auto_save_task         (* line 91 *)
| register_message_handler            (* line 106 *)
| register_custom_message_handler     (* line 107 *)
| check_and_run_migrations            (* line 109 *)
| handle_mai_events_ON_START          (* line 115 *)
| start_periodic_check_register       (* line 128 *)
| app_run                             (* line 129 *)
| server_run.                         (* line 130 *)

Definition callee_eq_dec (a b : callee) : {a = b} + {a <> b}.
Proof. decide equality. Defined.

Definition callee_eqb (a b : callee) : bool :=
  if callee_eq_dec a b then true else false.

(** The asyncio tasks of the process.  [asyncio.run(main())] makes the
    first; each [asyncio.gather] wraps its coroutine arguments in tasks. *)

Inductive tid : Type :=
| TMain              (* main(), line 144 *)
| TInitialize        (* system.initialize(), line 148 *)
| TInitComponents    (* self._init_components(), line 44 *)
| TScheduleTasks     (* system.schedule_tasks(), line 149 *)
| TEmojiCheck        (* get_emoji_manager().start_periodic_check_register() *)
| TAppRun            (* self.app.run() *)
| TServerRun.        (* self.server.run() *)

Definition tid_eq_dec (a b : tid) : {a = b} + {a <> b}.
Proof. decide equality. Defined.

Definition tid_eqb (a b : tid) : bool :=
  if tid_eq_dec a b then true else false.

(** Exceptions are opaque values. *)
Definition exn : Type := nat.

Inductive outcome : Type :=
| Returns
| Raises (e : exn).

(** Lines written with [logger.info]. *)
Inductive msg : Type :=
| LogWaking          (* line 41 *)
| LogAllReady        (* line 46 *)
| LogEmojiReady      (* line 83 *)
| LogMoodReady       (* line 87 *)
| LogChatReady.      (* line 93 *)

(** ** The code of the four coroutines *)

Inductive instr : Type :=
| Call (c : callee)          (* c(...)                      *)
| Await (c : callee)         (* await c(...)                *)
| CreateTask (c : callee)    (* asyncio.create_task(c(...)) *)
| Gather (ts : list tid)     (* await asyncio.gather(...)   *)
| Log (m : msg)              (* logger.info(...)            *)
| TimeStart                  (* init_start_time = time.time() *)
| TimeReport.                (* lines 117-122 *)

(** [main], lines 144-150.  [MainSystem()] runs [__init__], lines 34-37. *)
Definition main : list instr :=
  [ Call get_global_api;
    Call get_global_server;
    Gather [TInitialize; TScheduleTasks] ].

(** [MainSystem.initialize], lines 39-56. *)
Definition initialize : list instr :=
  [ Log LogWaking;
    Gather [TInitComponents];
    Log LogAllReady ].

(** [MainSystem._init_components], lines 58-122. *)
Definition _init_components : list instr :=
  [ TimeStart;
    Await add_task_OnlineTimeRecordTask;
    Await add_task_StatisticOutputTask;
    Await add_task_TelemetryHeartBeatTask;
    Call lpmm_start_up;
    Call load_all_plugins;
    Call emoji_manager_initialize;
    Log LogEmojiReady;
    Await mood_manager_start;
    Log LogMoodReady;
    Await chat_manager_initialize;
    CreateTask chat_manager_auto_save_task;
    Log LogChatReady;
    Call register_message_handler;
    Call register_custom_message_handler;
    Await check_and_run_migrations;
    Await handle_mai_events_ON_START;
    TimeReport ].

(** [MainSystem.schedule_tasks], lines 124-133: the body of [while True]. *)
Definition schedule_tasks : list instr :=
  [ Gather [TEmojiCheck; TAppRun; TServerRun] ].

Definition program (t : tid) : list instr :=
  match t with
  | TMain => main
  | TInitialize => initialize
  | TInitComponents => _init_components
  | TScheduleTasks => schedule_tasks
  | TEmojiCheck => [Await start_periodic_check_register]
  | TAppRun => [Await app_run]
  | TServerRun => [Await server_run]
  end.

(** Only [schedule_tasks] is a [while True] loop. *)
Definition loops (t : tid) : bool :=
  match t with TScheduleTasks => true | _ => false end.

(** The task whose [gather] awaits task [t]. *)
Definition parent (t : tid) : option tid :=
  match t with
  | TMain => None
  | TInitialize | TScheduleTasks => Some TMain
  | TInitComponents => Some TInitialize
  | TEmojiCheck | TAppRun | TServerRun => Some TScheduleTasks
  end.

(** ** Numbers of type [float]

    A Python [float] is an IEEE 754 binary64 number: 53 bits of precision,
    exponents below 1024.  The operations are those of the standard
    library's specification of floating-point arithmetic, which round to
    nearest, ties to even. *)

Definition prec : Z := 53.

Definition emax : Z := 1024.

Definition float_sub (x y : spec_float) : spec_float := SFsub prec emax x y.

Definition float_mul (x y : spec_float) : spec_float := SFmul prec emax x y.

(** The number [m * 2^e], rounded; an [int] converted to [float]. *)
Definition float_of_dyadic (m e : Z) : spec_float :=
  binary_normalize prec emax m e false.

Definition float_of_int (z : Z) : spec_float := float_of_dyadic z 0.

(** [int(x)] truncates toward zero; it raises OverflowError on an infinity
    and ValueError on a NaN. *)
Definition int_of_float (x : spec_float) : option Z :=
  match x with
  | S754_zero _ => Some 0%Z
  | S754_finite s m e => Some (cond_Zopp s (Z.shiftl (Zpos m) e))
  | S754_infinity _ | S754_nan => None
  end.

(** What [time.time()] can return: zero, or a binary64 number that is
    finite and below 2^63 in magnitude. *)
Definition time_value (x : spec_float) : bool :=
  match x with
  | S754_zero _ => true
  | S754_finite _ m e =>
      bounded prec emax m e && (Zpos (digits2_pos m) + e <=? 63)%Z
  | _ => false
  end.

Record reading : Type := {
  seconds : spec_float;
  in_range : time_value seconds = true
}.

Definition epoch : reading :=
  {| seconds := S754_zero false; in_range := eq_refl |}.

(** The reading with the value [x], if [x] is one. *)
Definition as_reading (x : spec_float) : reading :=
  match time_value x as b return time_value x = b -> reading with
  | true => fun H => {| seconds := x; in_range := H |}
  | false => fun _ => epoch
  end eq_refl.

(** A number that is zero or finite, and below [2^K] in magnitude. *)
Definition below (K : Z) (x : spec_float) : Prop :=
  match x with
  | S754_zero _ => True
  | S754_finite _ m e => (Zpos m < 2 ^ (K - e))%Z
  | _ => False
  end.

(** ** Environment: what the collaborators and the clock do *)

Record env : Type := {
  (* outcome of the n-th invocation of a callee *)
  outcome_of : callee -> nat -> outcome;
  (* how often the n-th invocation of an awaited callee suspends its task
     before completing; [None]: it never completes *)
  suspensions : callee -> nat -> option nat;
  (* the n-th reading of time.time(), in seconds *)
  clock : nat -> reading
}.

(** ** Observable events *)

Inductive event : Type :=
| Begin (c : callee)            (* the body of c starts to run *)
| End (c : callee)              (* c returned *)
| Raised (c : callee) (e : exn) (* c raised e *)
| Created (t : tid)             (* gather made a task for a coroutine *)
| Spawned (c : callee)          (* create_task, not awaited *)
| Logged (m : msg)
| Elapsed (ms : Z).             (* line 119 *)

Definition is_begin (c : callee) (ev : event) : bool :=
  match ev with Begin c' => callee_eqb c c' | _ => false end.

Definition is_end (c : callee) (ev : event) : bool :=
  match ev with End c' => callee_eqb c c' | _ => false end.

Definition is_created (t : tid) (ev : event) : bool :=
  match ev with Created t' => tid_eqb t t' | _ => false end.

Definition count (p : event -> bool) (tr : list event) : nat :=
  length (filter p tr).

(** Number of invocations of [c] so far. *)
Definition invocations (c : callee) (tr : list event) : nat :=
  count (is_begin c) tr.

(** ** Scheduler state *)

Inductive status : Type :=
| Absent                                   (* no such task yet *)
| Runnable                                 (* created, not yet started *)
| InAwait (c : callee) (left : option nat) (o : outcome)
                                           (* suspended inside await c *)
| InGather (ts : list tid) (res : option outcome)
                                           (* suspended in await gather *)
| Finished (o : outcome).

Record task : Type := {
  st : status;
  todo : list instr          (* code after the current suspension point *)
}.

Record state : Type := {
  tasks : tid -> task;
  ready : list tid;          (* the loop's FIFO of tasks to resume *)
  trace : list event;
  clock_reads : nat;
  init_start_time : reading  (* local variable of _init_components *)
}.

Definition initial : state :=
  {| tasks := fun t => match t with
                       | TMain => {| st := Runnable; todo := main |}
                       | _ => {| st := Absent; todo := [] |}
                       end;
     ready := [TMain];
     trace := [];
     clock_reads := 0;
     init_start_time := epoch |}.

Definition set_task (t : tid) (k : task) (s : state) : state :=
  {| tasks := fun t' => if tid_eq_dec t' t then k else tasks s t';
     ready := ready s;
     trace := trace s;
     clock_reads := clock_reads s;
     init_start_time := init_start_time s |}.

Definition emit (ev : event) (s : state) : state :=
  {| tasks := tasks s;
     ready := ready s;
     trace := trace s ++ [ev];
     clock_reads := clock_reads s;
     init_start_time := init_start_time s |}.

Definition enqueue (t : tid) (s : state) : state :=
  {| tasks := tasks s;
     ready := ready s ++ [t];
     trace := trace s;
     clock_reads := clock_reads s;
     init_start_time := init_start_time s |}.

Fixpoint remove_first (t : tid) (q : list tid) : list tid :=
  match q with
  | [] => []
  | t' :: q' => if tid_eq_dec t' t then q' else t' :: remove_first t q'
  end.

Definition dequeue (t : tid) (s : state) : state :=
  {| tasks := tasks s;
     ready := remove_first t (ready s);
     trace := trace s;
     clock_reads := clock_reads s;
     init_start_time := init_start_time s |}.

Definition st_of (s : state) (t : tid) : status := st (tasks s t).

Definition returned (s : state) (t : tid) : bool :=
  match st_of s t with Finished Returns => true | _ => false end.

(** A task ends.  The [gather] awaiting it, if it has no result yet, gets
    one: the exception at once (return_exceptions is False), or the normal
    result when every awaited task has returned.  The awaiting task is then
    scheduled. *)
Definition finish (t : tid) (o : outcome) (s : state) : state :=
  let s1 := set_task t {| st := Finished o; todo := [] |} s in
  match parent t with
  | None => s1
  | Some p =>
      match st_of s1 p with
      | InGather ts None =>
          match o with
          | Raises e =>
              enqueue p (set_task p {| st := InGather ts (Some (Raises e));
                                       todo := todo (tasks s1 p) |} s1)
          | Returns =>
              if forallb (returned s1) ts
              then enqueue p (set_task p {| st := InGather ts (Some Returns);
                                            todo := todo (tasks s1 p) |} s1)
              else s1
          end
      | _ => s1
      end
  end.

(** [gather] wraps each coroutine in a task, in argument order. *)
Fixpoint spawn_all (ts : list tid) (s : state) : state :=
  match ts with
  | [] => s
  | t :: ts' =>
      spawn_all ts'
        (enqueue t (emit (Created t)
           (set_task t {| st := Runnable; todo := program t |} s)))
  end.

(** [1000 * (time.time() - init_start_time)], line 118. *)
Definition elapsed_ms (now start : spec_float) : spec_float :=
  float_mul (float_of_int 1000) (float_sub now start).

(** [int(1000 * (time.time() - init_start_time))].  For readings of the
    clock [int] is given a finite number ([int_defined] below): it does
    not raise. *)
Definition init_time (now start : reading) : Z :=
  match int_of_float (elapsed_ms (seconds now) (seconds start)) with
  | Some z => z
  | None => 0%Z
  end.

Definition read_start (E : env) (s : state) : state :=
  {| tasks := tasks s;
     ready := ready s;
     trace := trace s;
     clock_reads := S (clock_reads s);
     init_start_time := clock E (clock_reads s) |}.

Definition report (E : env) (s : state) : state :=
  {| tasks := tasks s;
     ready := ready s;
     trace := trace s ++ [Elapsed (init_time (clock E (clock_reads s))
                                             (init_start_time s))];
     clock_reads := S (clock_reads s);
     init_start_time := init_start_time s |}.

Section Semantics.

Variable E : env.

(** Run task [t] on [code] up to its next suspension point or its end. *)
Fixpoint exec_code (t : tid) (code : list instr) (s : state) : state :=
  match code with
  | [] => finish t Returns s
  | Log m :: k => exec_code t k (emit (Logged m) s)
  | TimeStart :: k => exec_code t k (read_start E s)
  | TimeReport :: k => exec_code t k (report E s)
  | CreateTask c :: k => exec_code t k (emit (Spawned c) s)
  | Call c :: k =>
      match outcome_of E c (invocations c (trace s)) with
      | Returns => exec_code t k (emit (End c) (emit (Begin c) s))
      | Raises e => finish t (Raises e) (emit (Raised c e) (emit (Begin c) s))
      end
  | Await c :: k =>
      let o := outcome_of E c (invocations c (trace s)) in
      match suspensions E c (invocations c (trace s)) with
      | Some 0 =>
          match o with
          | Returns => exec_code t k (emit (End c) (emit (Begin c) s))
          | Raises e =>
              finish t (Raises e) (emit (Raised c e) (emit (Begin c) s))
          end
      | Some (S n) =>
          enqueue t (set_task t {| st := InAwait c (Some n) o; todo := k |}
                       (emit (Begin c) s))
      | None =>
          set_task t {| st := InAwait c None o; todo := k |}
            (emit (Begin c) s)
      end
  | Gather ts :: k =>
      spawn_all ts (set_task t {| st := InGather ts None; todo := k |} s)
  end.

(** The code a task continues with after a gather: a [while True] body
    that has reached its end starts over. *)
Definition continuation (t : tid) (k : list instr) : list instr :=
  match k with
  | [] => if loops t then program t else []
  | _ => k
  end.

(** asyncio.run returns once main() is done; nothing runs after that. *)
Definition halted (s : state) : bool :=
  match st_of s TMain with Finished _ => true | _ => false end.

(** Resume task [t], if it can run. *)
Definition step_task (t : tid) (s : state) : option state :=
  if halted s then None else
  match st_of s t with
  | Absent => None
  | Finished _ => None
  | Runnable => Some (exec_code t (todo (tasks s t)) (dequeue t s))
  | InAwait c None o => None
  | InAwait c (Some (S n)) o =>
      Some (enqueue t (set_task t {| st := InAwait c (Some n) o;
                                     todo := todo (tasks s t) |}
                         (dequeue t s)))
  | InAwait c (Some 0) o =>
      match o with
      | Returns =>
          Some (exec_code t (todo (tasks s t)) (emit (End c) (dequeue t s)))
      | Raises e =>
          Some (finish t (Raises e) (emit (Raised c e) (dequeue t s)))
      end
  | InGather ts None => None
  | InGather ts (Some Returns) =>
      Some (exec_code t (continuation t (todo (tasks s t))) (dequeue t s))
  | InGather ts (Some (Raises e)) =>
      Some (finish t (Raises e) (dequeue t s))
  end.

(** Any interleaving: a schedule names the task resumed at each step; a
    task that cannot run is skipped. *)
Fixpoint exec (sched : list tid) (s : state) : state :=
  match sched with
  | [] => s
  | t :: sched' =>
      match step_task t s with
      | Some s' => exec sched' s'
      | None => exec sched' s
      end
  end.

(** The event loop's own order: first in, first out. *)
Fixpoint run_fifo (n : nat) (s : state) : state :=
  match n with
  | O => s
  | S n' =>
      match ready s with
      | [] => s
      | t :: _ =>
          match step_task t s with
          | Some s' => run_fifo n' s'
          | None => s
          end
      end
  end.

End Semantics.

(** ** What each task contributes to the trace *)

Definition event_eq_dec (a b : event) : {a = b} + {a <> b}.
Proof.
  decide equality;
    try apply callee_eq_dec; try apply tid_eq_dec;
    try apply Nat.eq_dec; try apply Z.eq_dec.
  decide equality.
Defined.

(** Callees invoked by [_init_components]. *)
Definition comp_callee (c : callee) : bool :=
  match c with
  | get_global_api | get_global_server
  | start_periodic_check_register | app_run | server_run => false
  | _ => true
  end.

(** Events written by the task of [_init_components]. *)
Definition comp_event (ev : event) : bool :=
  match ev with
  | Begin c | End c | Raised c _ | Spawned c => comp_callee c
  | Logged LogEmojiReady | Logged LogMoodReady | Logged LogChatReady => true
  | Logged _ => false
  | Elapsed _ => true
  | Created _ => false
  end.

(** The measured time is the only clock-dependent datum of an event. *)
Definition erase (ev : event) : event :=
  match ev with Elapsed _ => Elapsed 0%Z | _ => ev end.

Definition view (tr : list event) : list event :=
  map erase (filter comp_event tr).

(** Events of an instruction that completes normally. *)
Definition instr_events (i : instr) : list event :=
  match i with
  | Call c | Await c => [Begin c; End c]
  | CreateTask c => [Spawned c]
  | Log m => [Logged m]
  | TimeStart => []
  | TimeReport => [Elapsed 0%Z]
  | Gather _ => []
  end.

Definition ok_events (code : list instr) : list event :=
  flat_map instr_events code.

(** The events of a complete, successful run of [_init_components]. *)
Definition canon : list event := ok_events _init_components.

Definition is_raised (c : callee) (ev : event) : bool :=
  match ev with Raised c' _ => callee_eqb c c' | _ => false end.

(** [a] precedes every occurrence of [b]. *)
Definition before (a b : event) (tr : list event) : Prop :=
  forall l1 l2, tr = l1 ++ b :: l2 -> In a l1.

Fixpoint beforeb (seen : bool) (a b : event) (tr : list event) : bool :=
  match tr with
  | [] => true
  | ev :: tr' =>
      if event_eq_dec ev b
      then seen && beforeb (seen || (if event_eq_dec ev a then true else false)) a b tr'
      else beforeb (seen || (if event_eq_dec ev a then true else false)) a b tr'
  end.

(** ** Invariants of the reachable states *)

Definition svc_callee (t : tid) : callee :=
  match t with
  | TEmojiCheck => start_periodic_check_register
  | TAppRun => app_run
  | _ => server_run
  end.

Definition services : list tid := [TEmojiCheck; TAppRun; TServerRun].

(** Number of times [gather] has made a task for service [t]. *)
Definition starts (t : tid) (s : state) : nat :=
  count (is_created t) (trace s).

Definition returns_of (t : tid) (s : state) : nat :=
  count (is_end (svc_callee t)) (trace s).

Definition raises_of (t : tid) (s : state) : nat :=
  count (is_raised (svc_callee t)) (trace s).

Definition svc_inv (s : state) (t : tid) : Prop :=
  let b := invocations (svc_callee t) (trace s) in
  match st_of s t with
  | Absent =>
      starts t s = 0 /\ b = 0 /\ returns_of t s = 0 /\ raises_of t s = 0
  | Runnable =>
      todo (tasks s t) = program t /\
      starts t s = S b /\ b = returns_of t s /\ raises_of t s = 0
  | InAwait c _ _ =>
      c = svc_callee t /\ todo (tasks s t) = [] /\
      starts t s = b /\ b = S (returns_of t s) /\ raises_of t s = 0
  | InGather _ _ => False
  | Finished Returns =>
      starts t s = b /\ b = returns_of t s /\ raises_of t s = 0
  | Finished (Raises x) =>
      starts t s = b /\ b = S (returns_of t s) /\ raises_of t s = 1 /\
      In (Raised (svc_callee t) x) (trace s)
  end.

Definition failed_with (s : state) (x : exn) : Prop :=
  st_of s TEmojiCheck = Finished (Raises x) \/
  st_of s TAppRun = Finished (Raises x) \/
  st_of s TServerRun = Finished (Raises x).

Definition no_failure (s : state) : Prop :=
  forall x, st_of s TEmojiCheck <> Finished (Raises x) /\
            st_of s TAppRun <> Finished (Raises x) /\
            st_of s TServerRun <> Finished (Raises x).

Definition all_returned (s : state) : Prop :=
  st_of s TEmojiCheck = Finished Returns /\
  st_of s TAppRun = Finished Returns /\
  st_of s TServerRun = Finished Returns.

Definition all_absent (s : state) : Prop :=
  st_of s TEmojiCheck = Absent /\ st_of s TAppRun = Absent /\
  st_of s TServerRun = Absent.

Definition sched_inv (s : state) : Prop :=
  match st_of s TScheduleTasks with
  | Absent => all_absent s
  | Runnable => todo (tasks s TScheduleTasks) = schedule_tasks /\ all_absent s
  | InAwait _ _ _ => False
  | InGather ts r =>
      ts = services /\ todo (tasks s TScheduleTasks) = [] /\
      match r with
      | None => no_failure s /\ ~ all_returned s
      | Some Returns => all_returned s
      | Some (Raises x) => failed_with s x
      end
  | Finished Returns => False
  | Finished (Raises x) => failed_with s x
  end.

Definition cohort_inv (s : state) : Prop :=
  starts TEmojiCheck s = starts TAppRun s /\
  starts TAppRun s = starts TServerRun s.

(** Which instruction invokes which callee. *)
Definition invokes (i : instr) (c : callee) : Prop :=
  i = Call c \/ i = Await c.

Definition comp_inv (s : state) : Prop :=
  let k := todo (tasks s TInitComponents) in
  let v := view (trace s) in
  match st_of s TInitComponents with
  | Absent => v = []
  | Runnable =>
      exists done, _init_components = done ++ k /\ v = ok_events done
  | InAwait c _ _ =>
      exists done, _init_components = done ++ Await c :: k /\
                   v = ok_events done ++ [Begin c]
  | InGather _ _ => False
  | Finished Returns => v = canon
  | Finished (Raises x) =>
      exists done i rest c,
        _init_components = done ++ i :: rest /\ invokes i c /\
        v = ok_events done ++ [Begin c; Raised c x]
  end.

Definition active (st : status) : Prop :=
  match st with Runnable | InAwait _ _ _ => True | _ => False end.

Definition init_inv (s : state) : Prop :=
  match st_of s TInitialize with
  | Absent => st_of s TInitComponents = Absent /\
              ~ In (Logged LogAllReady) (trace s)
  | Runnable => todo (tasks s TInitialize) = initialize /\
                st_of s TInitComponents = Absent /\
                ~ In (Logged LogAllReady) (trace s)
  | InAwait _ _ _ => False
  | InGather ts r =>
      ts = [TInitComponents] /\ todo (tasks s TInitialize) = [Log LogAllReady] /\
      ~ In (Logged LogAllReady) (trace s) /\
      match r with
      | None => active (st_of s TInitComponents)
      | Some o => st_of s TInitComponents = Finished o
      end
  | Finished Returns => st_of s TInitComponents = Finished Returns
  | Finished (Raises x) =>
      st_of s TInitComponents = Finished (Raises x) /\
      ~ In (Logged LogAllReady) (trace s)
  end.

Definition main_inv (s : state) : Prop :=
  match st_of s TMain with
  | Absent => False
  | Runnable =>
      todo (tasks s TMain) = main /\
      st_of s TInitialize = Absent /\ st_of s TScheduleTasks = Absent
  | InAwait _ _ _ => False
  | InGather ts r =>
      ts = [TInitialize; TScheduleTasks] /\ todo (tasks s TMain) = [] /\
      st_of s TInitialize <> Absent /\ st_of s TScheduleTasks <> Absent /\
      match r with
      | None => forall x, st_of s TInitialize <> Finished (Raises x) /\
                          st_of s TScheduleTasks <> Finished (Raises x)
      | Some Returns => False
      | Some (Raises x) =>
          st_of s TInitialize = Finished (Raises x) \/
          st_of s TScheduleTasks = Finished (Raises x)
      end
  | Finished Returns => False
  | Finished (Raises x) =>
      (st_of s TInitialize = Absent /\ st_of s TScheduleTasks = Absent) \/
      st_of s TInitialize = Finished (Raises x) \/
      st_of s TScheduleTasks = Finished (Raises x)
  end.

(** Events of the service cohort. *)
Definition is_svc_raise (ev : event) : bool :=
  match ev with
  | Raised start_periodic_check_register _ | Raised app_run _
  | Raised server_run _ => true
  | _ => false
  end.

Definition is_svc_created (ev : event) : bool :=
  match ev with
  | Created TEmojiCheck | Created TAppRun | Created TServerRun => true
  | _ => false
  end.

Definition has_failure (tr : list event) : bool := existsb is_svc_raise tr.

(** What follows the first exception of a service. *)
Fixpoint after_failure (tr : list event) : list event :=
  match tr with
  | [] => []
  | ev :: tr' => if is_svc_raise ev then tr' else after_failure tr'
  end.

(** Service tasks made after a service has raised. *)
Definition late_starts (tr : list event) : nat :=
  count is_svc_created (after_failure tr).

Record Inv (s : state) : Prop := {
  inv_main : main_inv s;
  inv_init : init_inv s;
  inv_comp : comp_inv s;
  inv_sched : sched_inv s;
  inv_cohort : cohort_inv s;
  inv_emoji : svc_inv s TEmojiCheck;
  inv_app : svc_inv s TAppRun;
  inv_server : svc_inv s TServerRun;
  inv_quiet : late_starts (trace s) = 0
}.

(** ** Definitions used in the statements and their proofs *)

(** The state in which [_init_components] is about to execute [k]. *)
Definition running (k : list instr) (s : state) : state :=
  set_task TInitComponents {| st := Runnable; todo := k |} s.

Definition comp_instr (i : instr) : bool :=
  match i with
  | Call c | Await c | CreateTask c => comp_callee c
  | Log LogEmojiReady | Log LogMoodReady | Log LogChatReady => true
  | Log _ => false
  | Gather _ => false
  | TimeStart | TimeReport => true
  end.

(** [a] precedes [b] in every prefix of a successful run. *)
Definition prefix_check (a b : event) : bool :=
  forallb (fun n => beforeb false a b (firstn n canon))
          (seq 0 (S (length canon))).

(** All ways to cut a list at one element. *)
Fixpoint splits (A : Type) (l : list A) : list (list A * A * list A) :=
  match l with
  | [] => []
  | x :: l' =>
      ([], x, l') :: map (fun '(d, i, r) => (x :: d, i, r)) (splits l')
  end.

Definition invokes_b (i : instr) (c : callee) : bool :=
  match i with
  | Call c' | Await c' => callee_eqb c' c
  | _ => false
  end.

(** The code before the instruction that invokes [c]. *)
Fixpoint upto (c : callee) (code : list instr) : list instr :=
  match code with
  | [] => []
  | i :: k => if invokes_b i c then [] else i :: upto c k
  end.

(** The phase-1 initializations, in source order (lines 63-90). *)
Definition phase1 : list callee :=
  [ add_task_OnlineTimeRecordTask; add_task_StatisticOutputTask;
    add_task_TelemetryHeartBeatTask; lpmm_start_up; load_all_plugins;
    emoji_manager_initialize; mood_manager_start; chat_manager_initialize ].

(** Handler registration, lines 106-107. *)
Definition handlers : list callee :=
  [ register_message_handler; register_custom_message_handler ].

(** Everything [_init_components] does before it emits ON_START. *)
Definition bootstrap_steps : list callee :=
  phase1 ++ handlers ++ [check_and_run_migrations].

(** C2, as the specification states it: any two phase-1 initializations may
    overlap, that is, for any two of them some execution begins the second
    before the first has returned. *)
Definition phase1_concurrent : Prop :=
  forall a b, In a phase1 -> In b phase1 -> a <> b ->
  exists E sched,
    ~ before (End a) (Begin b) (trace (exec E sched initial)).

(** An instruction that completes at once, without suspending the task. *)
Definition straight (E : env) (i : instr) : Prop :=
  match i with
  | Call c => forall n, outcome_of E c n = Returns
  | Await c =>
      forall n, outcome_of E c n = Returns /\ suspensions E c n = Some 0
  | CreateTask _ | Log _ | TimeStart => True
  | Gather _ | TimeReport => False
  end.

(** What [main.py] calls up to and including handler registration. *)
Definition before_registration : list callee :=
  [get_global_api; get_global_server] ++ phase1 ++ handlers.

Definition awaited_before_registration : list callee :=
  [ add_task_OnlineTimeRecordTask; add_task_StatisticOutputTask;
    add_task_TelemetryHeartBeatTask; mood_manager_start;
    chat_manager_initialize ].

(** Lines 60-107 and lines 109-122 of [_init_components]. *)
Definition through_registration : list instr := firstn 15 _init_components.

Definition after_registration : list instr := skipn 15 _init_components.

Definition service_callees : list callee :=
  [start_periodic_check_register; app_run; server_run].

(** The events of the first three scheduler steps: main(), initialize()
    up to its gather, schedule_tasks() up to its gather. *)
Definition prologue : list event :=
  [ Begin get_global_api; End get_global_api;
    Begin get_global_server; End get_global_server;
    Created TInitialize; Created TScheduleTasks;
    Logged LogWaking; Created TInitComponents;
    Created TEmojiCheck; Created TAppRun; Created TServerRun ].

(** C1, as the specification states it: in every run the services' run
    loops begin only after handler registration has completed. *)
Definition services_wait_for_handlers : Prop :=
  forall E n,
    before (End register_custom_message_handler) (Begin app_run)
      (trace (run_fifo E n initial)) /\
    before (End register_custom_message_handler) (Begin server_run)
      (trace (run_fifo E n initial)).

(** An environment given by what each collaborator does on every call. *)
Definition uniform (out : callee -> outcome) (susp : callee -> option nat)
  : env :=
  {| outcome_of := fun c _ => out c;
     suspensions := fun c _ => susp c;
     clock := fun n => as_reading (float_of_int (Z.of_nat n)) |}.

(** Everything returns; the three services never complete;
    [mood_manager.start()] suspends its task once. *)
Definition mood_suspends_once : env :=
  uniform (fun _ => Returns)
          (fun c => match c with
                    | start_periodic_check_register | app_run | server_run =>
                        None
                    | mood_manager_start => Some 1
                    | _ => Some 0
                    end).

(** Two environments that differ at most in what [time.time()] returns. *)
Definition same_but_clock (E1 E2 : env) : Prop :=
  (forall c n, outcome_of E1 c n = outcome_of E2 c n) /\
  (forall c n, suspensions E1 c n = suspensions E2 c n).

(** Two states that differ at most in the measured times: the value of
    [init_start_time] and the number written by line 119. *)
Record sim (s1 s2 : state) : Prop := {
  sim_tasks : forall t, tasks s1 t = tasks s2 t;
  sim_ready : ready s1 = ready s2;
  sim_reads : clock_reads s1 = clock_reads s2;
  sim_trace : map erase (trace s1) = map erase (trace s2)
}.

(** Everything returns at once; the three services never complete. *)
Definition all_prompt : env :=
  uniform (fun _ => Returns)
          (fun c => match c with
                    | start_periodic_check_register | app_run | server_run =>
                        None
                    | _ => Some 0
                    end).

(** Everything returns at once, the services too. *)
Definition services_return : env :=
  uniform (fun _ => Returns) (fun _ => Some 0).

(** The emoji check returns at once; the two servers never complete. *)
Definition emoji_returns_alone : env :=
  uniform (fun _ => Returns)
          (fun c => match c with
                    | app_run | server_run => None
                    | _ => Some 0
                    end).

(** The control server raises 7 as soon as it runs; the first
    [add_task] suspends its task once, then raises 3. *)
Definition server_fails_first : env :=
  uniform (fun c => match c with
                    | server_run => Raises 7
                    | add_task_OnlineTimeRecordTask => Raises 3
                    | _ => Returns
                    end)
          (fun c => match c with
                    | start_periodic_check_register | app_run => None
                    | add_task_OnlineTimeRecordTask => Some 1
                    | _ => Some 0
                    end).

(** The migration step raises 5. *)
Definition migration_fails : env :=
  uniform (fun c => match c with
                    | check_and_run_migrations => Raises 5
                    | _ => Returns
                    end)
          (fun c => match c with
                    | start_periodic_check_register | app_run | server_run =>
                        None
                    | _ => Some 0
                    end).

(** The chat manager's initialization raises 4. *)
Definition chat_init_fails : env :=
  uniform (fun c => match c with
                    | chat_manager_initialize => Raises 4
                    | _ => Returns
                    end)
          (fun c => match c with
                    | start_periodic_check_register | app_run | server_run =>
                        None
                    | _ => Some 0
                    end).

(** As [all_prompt], with a clock that runs two and a half times as fast. *)
Definition fast_clock : env :=
  {| outcome_of := outcome_of all_prompt;
     suspensions := suspensions all_prompt;
     clock := fun n => as_reading (float_of_dyadic (5 * Z.of_nat n) (-1)) |}.

(** The order in which the event loop first runs the tasks. *)
Definition first_round : list tid :=
  [ TMain; TInitialize; TScheduleTasks; TInitComponents;
    TEmojiCheck; TAppRun; TServerRun ].

(** C6, as the specification states it: whenever one service has returned,
    the whole cohort is started again at some later point of the run. *)
Definition restart_on_any_exit : Prop :=
  forall E n t,
    In t services ->
    st_of (run_fifo E n initial) t = Finished Returns ->
    exists m, forall u,
      In u services ->
      starts u (run_fifo E n initial) < starts u (run_fifo E (n + m) initial).

(** C4, as the specification states it: the exception that [main] ends
    with is the one the failed bootstrap step raised. *)
Definition bootstrap_error_leaves_main : Prop :=
  forall E n c x y,
    In c bootstrap_steps ->
    In (Raised c x) (trace (run_fifo E n initial)) ->
    st_of (run_fifo E n initial) TMain = Finished (Raises y) ->
    y = x.

(** ** Which task writes which event *)

Definition msg_eq_dec (a b : msg) : {a = b} + {a <> b}.
Proof. decide equality. Defined.

(** The events an instruction can write. *)
Definition instr_writes (i : instr) (ev : event) : bool :=
  match i, ev with
  | Call c, Begin c' | Call c, End c' | Call c, Raised c' _
  | Await c, Begin c' | Await c, End c' | Await c, Raised c' _ =>
      callee_eqb c c'
  | CreateTask c, Spawned c' => callee_eqb c c'
  | Gather ts, Created u => existsb (tid_eqb u) ts
  | Log m, Logged m' => if msg_eq_dec m m' then true else false
  | TimeReport, Elapsed _ => true
  | _, _ => false
  end.

Definition code_writes (k : list instr) (ev : event) : bool :=
  existsb (fun i => instr_writes i ev) k.

(** The events the code of task [t] can write. *)
Definition writes (t : tid) (ev : event) : bool :=
  code_writes (program t) ev.

(** The possible changes of task [u] in one step of [t] that runs the
    code [k]: none; [t] itself suspends or ends; the [gather] of [u] gets
    its result; a [gather] of [k] makes [u] a new task. *)
Definition moved (k : list instr) (t u : tid) (s s' : state) : Prop :=
  tasks s' u = tasks s u \/
  (u = t /\ st_of s' u <> Absent /\ st_of s' u <> Runnable) \/
  (exists ts r,
     st_of s u = InGather ts None /\
     tasks s' u = {| st := InGather ts (Some r);
                     todo := todo (tasks s u) |}) \/
  (tasks s' u = {| st := Runnable; todo := program u |} /\
   In (Created u) (trace s') /\
   exists ts, In (Gather ts) k /\ In u ts).

(** The first step of every run: [main] up to its [gather]. *)
Definition main_step (E : env) : state :=
  exec_code E TMain main (dequeue TMain initial).

(** Events of the calls made by [MainSystem.__init__], lines 36-37. *)
Definition constructor_event (ev : event) : bool :=
  match ev with
  | Begin c | End c | Raised c _ =>
      match c with
      | get_global_api | get_global_server => true
      | _ => false
      end
  | _ => false
  end.

(** What [main] writes when the constructor returns. *)
Definition main_events : list event :=
  [ Begin get_global_api; End get_global_api;
    Begin get_global_server; End get_global_server;
    Created TInitialize; Created TScheduleTasks ].

(** ** The clock *)

(** The readings of [time.time()] a piece of code makes when [r] readings
    were made before it: line 60 makes the first, line 118 the second. *)
Fixpoint reads_ok (r : nat) (k : list instr) : bool :=
  match k with
  | [] => Nat.eqb r 2
  | TimeStart :: k' => Nat.eqb r 0 && reads_ok 1 k'
  | TimeReport :: k' => Nat.eqb r 1 && reads_ok 2 k'
  | Gather _ :: _ => false
  | _ :: k' => reads_ok r k'
  end.

(** The number line 119 writes: from the first two readings of the clock. *)
Definition elapsed_value (E : env) : Z :=
  init_time (clock E 1) (clock E 0).

Definition clock_pre (E : env) (s : state) : Prop :=
  (forall ms, In (Elapsed ms) (trace s) -> ms = elapsed_value E) /\
  (1 <= clock_reads s -> init_start_time s = clock E 0) /\
  (clock_reads s = 2 -> In (Elapsed (elapsed_value E)) (trace s)) /\
  clock_reads s <= 2.

Definition clock_inv (E : env) (s : state) : Prop :=
  clock_pre E s /\
  match st_of s TInitComponents with
  | Absent => clock_reads s = 0
  | Runnable | InAwait _ _ _ =>
      reads_ok (clock_reads s) (todo (tasks s TInitComponents)) = true
  | InGather _ _ => True
  | Finished Returns =>
      clock_reads s = 2 /\ In (Elapsed (elapsed_value E)) (trace s)
  | Finished (Raises _) => True
  end.

Definition timed (i : instr) : bool :=
  match i with TimeStart | TimeReport => true | _ => false end.

(** ** How often an event occurs *)

(** Occurrences of [ev] in a trace, whatever the time line 119 reports. *)
Definition occurrences (ev : event) (tr : list event) : nat :=
  count (fun e => if event_eq_dec (erase e) (erase ev) then true else false)
        tr.

(** ** States of a run in the event loop's order *)

(** [main], [initialize] and [schedule_tasks] wait in their [gather]. *)
Definition waiting (s : state) : Prop :=
  tasks s TMain =
    {| st := InGather [TInitialize; TScheduleTasks] None; todo := [] |} /\
  tasks s TInitialize =
    {| st := InGather [TInitComponents] None; todo := [Log LogAllReady] |} /\
  tasks s TScheduleTasks = {| st := InGather services None; todo := [] |}.

(** The three services have been created and have not run yet. *)
Definition queued (q : list tid) (s : state) : Prop :=
  tasks s TEmojiCheck = {| st := Runnable; todo := program TEmojiCheck |} /\
  tasks s TAppRun = {| st := Runnable; todo := program TAppRun |} /\
  tasks s TServerRun = {| st := Runnable; todo := program TServerRun |} /\
  ready s = [TEmojiCheck; TAppRun; TServerRun] ++ q.

(** The three services are inside their run loops, which do not complete. *)
Definition parked (q : list tid) (s : state) : Prop :=
  (exists o, tasks s TEmojiCheck =
               {| st := InAwait start_periodic_check_register None o;
                  todo := [] |}) /\
  (exists o, tasks s TAppRun =
               {| st := InAwait app_run None o; todo := [] |}) /\
  (exists o, tasks s TServerRun =
               {| st := InAwait server_run None o; todo := [] |}) /\
  ready s = q.

(** Bootstrap is complete and the process waits for its services. *)
Definition booted (s : state) : Prop :=
  ready s = [] /\
  In (Logged LogAllReady) (trace s) /\
  st_of s TInitComponents = Finished Returns /\
  st_of s TInitialize = Finished Returns /\
  st_of s TMain = InGather [TInitialize; TScheduleTasks] None.

(** [main] has ended with the exception of a bootstrap step. *)
Definition aborted (E : env) (s : state) : Prop :=
  exists c x n,
    comp_callee c = true /\ outcome_of E c n = Raises x /\
    In (Raised c x) (trace s) /\
    ~ In (Logged LogAllReady) (trace s) /\
    st_of s TMain = Finished (Raises x).

(** What a suspended [await] of [_init_components] continues with. *)
Definition resumed (E : env) (c : callee) (o : outcome) (k : list instr)
           (s : state) : state :=
  match o with
  | Returns => exec_code E TInitComponents k (emit (End c) s)
  | Raises x => finish TInitComponents (Raises x) (emit (Raised c x) s)
  end.

(** ** Further environments *)

(** [get_global_api()] raises 9. *)
Definition api_fails : env :=
  uniform (fun c => match c with
                    | get_global_api => Raises 9
                    | _ => Returns
                    end)
          (fun _ => Some 0).

(** A schedule in which [initialize] and [main] are resumed after the
    first round. *)
Definition second_round : list tid :=
  first_round ++ [TInitialize; TMain].

(** ** The ready queue *)

(** A task the event loop can resume. *)
Definition resumable (x : status) : bool :=
  match x with
  | Runnable | InAwait _ (Some _) _ | InGather _ (Some _) => true
  | _ => false
  end.

(** The queue holds the resumable tasks, each once. *)
Definition queue_inv (s : state) : Prop :=
  NoDup (ready s) /\
  forall t, In t (ready s) <-> resumable (st_of s t) = true.

(** The state in which task [t] has been taken from the queue to run. *)
Definition taken (t : tid) (s : state) : Prop :=
  NoDup (ready s) /\ ~ In t (ready s) /\
  forall u, u <> t -> (In u (ready s) <-> resumable (st_of s u) = true).

(** How a step of task [t] that runs the code [k] ends: [t] ends, suspends
    in an [await] (to be resumed, or for ever), or waits in a [gather]
    whose tasks it has made. *)
Definition effect (k : list instr) (t : tid) (s1 s' : state) : Prop :=
  (exists o, s' = finish t o s1) \/
  (exists c n o k',
     s' = enqueue t (set_task t {| st := InAwait c (Some n) o; todo := k' |}
                       s1)) \/
  (exists c o k',
     s' = set_task t {| st := InAwait c None o; todo := k' |} s1) \/
  (exists ts k',
     In (Gather ts) k /\
     s' = spawn_all ts (set_task t {| st := InGather ts None; todo := k' |}
                          s1)).

(** Lines 60-90 of [_init_components]: the phase-1 initializations. *)
Definition phase1_code : list instr := firstn 11 _init_components.

(** ** What [_init_components] has written, by its state *)

Definition has (ev : event) (l : list event) : bool :=
  existsb (fun e => if event_eq_dec e ev then true else false) l.

(** The events of [_init_components] up to a call that has begun and has
    not returned: one list for each call of the coroutine. *)
Definition begun_shapes : list (list event) :=
  flat_map (fun '(done, i, _) =>
              match i with
              | Call c | Await c => [ok_events done ++ [Begin c]]
              | _ => []
              end)
           (splits _init_components).

(** A property of all the lists of events that [_init_components] can have
    written once it has been resumed. *)
Definition shapes_check (p : list event -> bool) : bool :=
  forallb p begun_shapes && p canon.

(** The events of the phase-1 initializations and of the launch of the
    auto-save task, in the order of lines 63-91. *)
Definition phase1_events : list event :=
  flat_map (fun c => [Begin c; End c]) phase1 ++
  [Spawned chat_manager_auto_save_task].

(** The exception of the first service to raise. *)
Fixpoint first_failure (tr : list event) : option exn :=
  match tr with
  | [] => None
  | ev :: tr' =>
      match ev with
      | Raised _ e => if is_svc_raise ev then Some e else first_failure tr'
      | _ => first_failure tr'
      end
  end.

(** Both servers raise as soon as they run: [app.run()] raises 1,
    [server.run()] raises 2; the emoji check never completes. *)
Definition two_services_fail : env :=
  uniform (fun c => match c with
                    | app_run => Raises 1
                    | server_run => Raises 2
                    | _ => Returns
                    end)
          (fun c => match c with
                    | start_periodic_check_register => None
                    | _ => Some 0
                    end).

(** C10, as the specification states it: the exception that
    [schedule_tasks] ends with is the one the service raised. *)
Definition service_error_leaves_loop : Prop :=
  forall E n t x y,
    In t services ->
    In (Raised (svc_callee t) x) (trace (run_fifo E n initial)) ->
    st_of (run_fifo E n initial) TScheduleTasks = Finished (Raises y) ->
    y = x.

(** The control server raises 7 as soon as it runs; the first [add_task]
    suspends its task once; the migration step raises 5. *)
Definition server_then_migration : env :=
  uniform (fun c => match c with
                    | server_run => Raises 7
                    | check_and_run_migrations => Raises 5
                    | _ => Returns
                    end)
          (fun c => match c with
                    | start_periodic_check_register | app_run => None
                    | add_task_OnlineTimeRecordTask => Some 1
                    | _ => Some 0
                    end).

(** C3, as the specification states it: when the migration step fails,
    ON_START is never emitted and the failure of the migration is the fatal
    error that [main] ends with. *)
Definition migration_error_leaves_main : Prop :=
  forall E n x,
    In (Raised check_and_run_migrations x) (trace (run_fifo E n initial)) ->
    ~ In (Begin handle_mai_events_ON_START) (trace (run_fifo E n initial)) /\
    forall y, st_of (run_fifo E n initial) TMain = Finished (Raises y) ->
              y = x.

(** ** List facts used below *)

Lemma count_snoc (p : event -> bool) (tr : list event) (ev : event) :
  count p (tr ++ [ev]) = if p ev then S (count p tr) else count p tr.
Proof.
  unfold count. rewrite filter_app, length_app. simpl.
  destruct (p ev); simpl; lia.
Qed.

Lemma view_snoc (tr : list event) (ev : event) :
  view (tr ++ [ev]) = if comp_event ev then view tr ++ [erase ev] else view tr.
Proof.
  unfold view. rewrite filter_app. simpl.
  destruct (comp_event ev); simpl.
  - now rewrite map_app.
  - now rewrite app_nil_r.
Qed.

Lemma in_snoc (a ev : event) (tr : list event) :
  In a (tr ++ [ev]) <-> In a tr \/ ev = a.
Proof. rewrite in_app_iff. simpl. tauto. Qed.

Lemma ok_events_snoc (done : list instr) (i : instr) :
  ok_events (done ++ [i]) = ok_events done ++ instr_events i.
Proof. unfold ok_events. rewrite flat_map_app. simpl. now rewrite app_nil_r. Qed.

Lemma has_failure_snoc (tr : list event) (ev : event) :
  has_failure (tr ++ [ev]) = has_failure tr || is_svc_raise ev.
Proof. unfold has_failure. rewrite existsb_app. cbn. now rewrite orb_false_r. Qed.

Lemma after_failure_snoc (tr : list event) (ev : event) :
  after_failure (tr ++ [ev]) =
  if has_failure tr then after_failure tr ++ [ev] else [].
Proof.
  unfold has_failure. induction tr as [|a tr IH]; cbn.
  - now destruct (is_svc_raise ev).
  - destruct (is_svc_raise a); cbn; [reflexivity|exact IH].
Qed.

Lemma no_failure_after (tr : list event) :
  has_failure tr = false -> after_failure tr = [].
Proof.
  unfold has_failure. induction tr as [|a tr IH]; cbn; [reflexivity|].
  destruct (is_svc_raise a); cbn; [discriminate|exact IH].
Qed.

Lemma late_starts_snoc (tr : list event) (ev : event) :
  late_starts (tr ++ [ev]) =
  if has_failure tr
  then (if is_svc_created ev then S (late_starts tr) else late_starts tr)
  else 0.
Proof.
  unfold late_starts. rewrite after_failure_snoc.
  destruct (has_failure tr); [|reflexivity]. now rewrite count_snoc.
Qed.

Lemma has_failure_raises (tr : list event) :
  has_failure tr = true ->
  0 < count (is_raised start_periodic_check_register) tr +
      count (is_raised app_run) tr + count (is_raised server_run) tr.
Proof.
  unfold has_failure, count. induction tr as [|a tr IH]; cbn; [discriminate|].
  destruct a as [c|c|c x|t|c|m|z]; cbn; try exact IH.
  destruct c; cbn; try exact IH; lia.
Qed.

Arguments count : simpl never.
Arguments late_starts : simpl never.
Arguments has_failure : simpl never.
Arguments canon : simpl never.
Arguments view : simpl never.
Arguments invocations : simpl never.

Ltac norm :=
  unfold starts, returns_of, raises_of, invocations in *;
  cbn [trace tasks ready clock_reads init_start_time emit enqueue dequeue
       set_task read_start report st todo] in *;
  repeat rewrite count_snoc in *;
  repeat rewrite view_snoc in *;
  repeat rewrite in_snoc in *.

Ltac use_status :=
  repeat match goal with
         | H : st (tasks ?s ?t) = _ |- context [st (tasks ?s ?t)] => rewrite H
         | H : todo (tasks ?s ?t) = _ |- context [todo (tasks ?s ?t)] => rewrite H
         end.

Ltac open_inv :=
  unfold main_inv, init_inv, comp_inv, sched_inv, cohort_inv, svc_inv,
    all_absent, all_returned, failed_with, no_failure, active, returned,
    st_of, starts, returns_of, raises_of, invocations in *;
  cbn [svc_callee program] in *.

Ltac split_hyps :=
  repeat match goal with
         | H : _ /\ _ |- _ => destruct H
         end.

Ltac use_status_hyps :=
  repeat match goal with
         | Heq : st (tasks ?s ?t) = _,
           H : context [match st (tasks ?s ?t) with _ => _ end] |- _ =>
             rewrite Heq in H; cbn in H
         end.

Ltac saturate :=
  repeat (progress (split_hyps; use_status_hyps)); subst; try tauto.

Ltac case_status :=
  repeat (use_status; cbn); repeat match goal with
         | |- context [match st (tasks ?s ?t) with _ => _ end] =>
             let H := fresh "Hst" in
             destruct (st (tasks s t)) as [| |? ? ?|? [[|?]|]|[|?]] eqn:H;
             rewrite ?H in *; cbn in * |-; saturate
         end.

Ltac norm_goal :=
  unfold starts, returns_of, raises_of, invocations;
  cbn [trace tasks ready clock_reads init_start_time emit enqueue dequeue
       set_task read_start report st todo];
  repeat rewrite late_starts_snoc;
  repeat rewrite has_failure_snoc;
  repeat rewrite count_snoc;
  repeat rewrite view_snoc;
  repeat rewrite in_snoc.

Ltac quiet_case :=
  match goal with
  | |- context [has_failure (trace ?s)] =>
      let HF := fresh "HF" in
      destruct (has_failure (trace s)) eqn:HF; cbn;
      [ first [ assumption
              | exfalso; apply has_failure_raises in HF; cbn in *; lia ]
      | reflexivity ]
  end.

Ltac finish_inv :=
  cbn; norm_goal; cbn; try assumption; try solve [quiet_case];
  repeat split; intros; try tauto; try congruence; try lia;
  try solve [intuition (try discriminate; try congruence; try lia)];
  try match goal with
      | H : forall x : exn, _ |- _ <> _ => solve [apply H]
      end.

Ltac brute_inv :=
  unfold main_inv, init_inv, comp_inv, sched_inv, cohort_inv, svc_inv,
    all_absent, all_returned, failed_with, no_failure, active, returned,
    st_of;
  cbn; use_status; try assumption;
  case_status; finish_inv.

Ltac close_inv := constructor; brute_inv.

Ltac simp_step H :=
  repeat (cbn in H; unfold st_of, returned in H; cbn in H;
    match type of H with
    | context [st (tasks ?s ?t)] =>
        match goal with Heq : st (tasks s t) = _ |- _ => rewrite Heq in H end
    | context [todo (tasks ?s ?t)] =>
        match goal with Heq : todo (tasks s t) = _ |- _ => rewrite Heq in H end
    | context [match st (tasks ?s ?t) with _ => _ end] =>
        let Hst := fresh "Hst" in
        destruct (st (tasks s t)) as [| |? ? ?|? [[|?]|]|[|?]] eqn:Hst;
        rewrite ?Hst in *; cbn in * |-; saturate; try discriminate
    | context [match outcome_of ?E ?c ?n with _ => _ end] =>
        destruct (outcome_of E c n)
    | context [match suspensions ?E ?c ?n with _ => _ end] =>
        destruct (suspensions E c n) as [[|?]|]
    | context [match ?x with _ => _ end] => is_var x; destruct x
    end).

(** ** Frame lemmas: an invariant reads only part of the state *)

Lemma main_inv_frame (s s' : state) :
  tasks s' TMain = tasks s TMain ->
  (forall t, t = TInitialize \/ t = TScheduleTasks ->
     (st_of s' t = Absent <-> st_of s t = Absent) /\
     (forall x, st_of s' t = Finished (Raises x) <->
                st_of s t = Finished (Raises x))) ->
  main_inv s -> main_inv s'.
Proof.
  unfold main_inv, st_of. intros -> H.
  destruct (H TInitialize (or_introl eq_refl)) as [IA IR].
  destruct (H TScheduleTasks (or_intror eq_refl)) as [SA SR].
  destruct (st (tasks s TMain)) as [| |? ? ?|? [[|?]|]|[|?]]; try tauto.
  - rewrite IA, SA, IR, SR. tauto.
  - rewrite IA, SA. intros (? & ? & ? & ? & Hx). repeat split; try assumption.
    + rewrite IR. apply (Hx x).
    + rewrite SR. apply (Hx x).
  - rewrite IA, SA, IR, SR. tauto.
Qed.

Lemma init_inv_frame (s s' : state) :
  tasks s' TInitialize = tasks s TInitialize ->
  (st_of s' TInitComponents = st_of s TInitComponents \/
   (active (st_of s' TInitComponents) /\ active (st_of s TInitComponents))) ->
  (In (Logged LogAllReady) (trace s') -> In (Logged LogAllReady) (trace s)) ->
  init_inv s -> init_inv s'.
Proof.
  unfold init_inv, st_of. intros -> [-> | [A' A]] HL.
  - destruct (st (tasks s TInitialize)) as [| |? ? ?|? [[|?]|]|[|?]]; tauto.
  - destruct (st (tasks s TInitialize)) as [| |? ? ?|? [[|?]|]|[|?]];
      try tauto;
      try (intros H; decompose [and] H;
           match goal with
           | Heq : st (tasks s TInitComponents) = _ |- _ =>
               rewrite Heq in A; contradiction
           end).
Qed.

Lemma comp_inv_frame (s s' : state) :
  tasks s' TInitComponents = tasks s TInitComponents ->
  view (trace s') = view (trace s) ->
  comp_inv s -> comp_inv s'.
Proof. unfold comp_inv, st_of. now intros -> ->. Qed.

Lemma svc_inv_frame (t : tid) (s s' : state) :
  tasks s' t = tasks s t ->
  starts t s' = starts t s ->
  invocations (svc_callee t) (trace s') = invocations (svc_callee t) (trace s) ->
  returns_of t s' = returns_of t s ->
  raises_of t s' = raises_of t s ->
  (forall x, In (Raised (svc_callee t) x) (trace s) ->
             In (Raised (svc_callee t) x) (trace s')) ->
  svc_inv s t -> svc_inv s' t.
Proof.
  unfold svc_inv, st_of. intros -> -> -> -> -> HR.
  destruct (st (tasks s t)) as [| |? ? ?|? ?|[|?]]; intuition.
Qed.

Lemma sched_inv_frame (s s' : state) :
  tasks s' TScheduleTasks = tasks s TScheduleTasks ->
  st_of s' TEmojiCheck = st_of s TEmojiCheck ->
  st_of s' TAppRun = st_of s TAppRun ->
  st_of s' TServerRun = st_of s TServerRun ->
  sched_inv s -> sched_inv s'.
Proof.
  unfold sched_inv, all_absent, all_returned, failed_with, no_failure, st_of.
  now intros -> -> -> ->.
Qed.

Lemma cohort_inv_frame (s s' : state) :
  starts TEmojiCheck s' = starts TEmojiCheck s ->
  starts TAppRun s' = starts TAppRun s ->
  starts TServerRun s' = starts TServerRun s ->
  cohort_inv s -> cohort_inv s'.
Proof. unfold cohort_inv. now intros -> -> ->. Qed.

Ltac same_count :=
  unfold starts, returns_of, raises_of, invocations; cbn; norm_goal; cbn;
  reflexivity.

Ltac by_frame s0 HInv :=
  match goal with
  | |- main_inv _ =>
      apply main_inv_frame with (s := s0);
      [ reflexivity
      | let H := fresh in
        intros ? [H|H]; rewrite H; unfold st_of; cbn; use_status;
        (split; [|intro]); split; intro; first [assumption | congruence]
      | exact (inv_main HInv) ]
  | |- init_inv _ =>
      apply init_inv_frame with (s := s0);
      [ reflexivity | left; reflexivity
      | cbn; norm_goal; cbn; intuition congruence
      | exact (inv_init HInv) ]
  | |- comp_inv _ =>
      apply comp_inv_frame with (s := s0);
      [ reflexivity | cbn; norm_goal; reflexivity | exact (inv_comp HInv) ]
  | |- sched_inv _ =>
      apply sched_inv_frame with (s := s0);
      [ reflexivity | reflexivity | reflexivity | reflexivity | exact (inv_sched HInv) ]
  | |- cohort_inv _ =>
      apply cohort_inv_frame with (s := s0);
      [ same_count | same_count | same_count | exact (inv_cohort HInv) ]
  | |- late_starts _ = 0 =>
      let Hq := fresh "Hq" in
      pose proof (inv_quiet HInv) as Hq; cbn in Hq;
      cbn; norm_goal; cbn; first [assumption | quiet_case]
  | |- svc_inv _ ?t =>
      apply svc_inv_frame with (s := s0);
      [ reflexivity | same_count | same_count | same_count | same_count
      | intro; cbn; norm_goal; tauto
      | first [exact (inv_emoji HInv) | exact (inv_app HInv) | exact (inv_server HInv)] ]
  end.

Ltac by_frame_of HInv :=
  match type of HInv with Inv ?s0 => by_frame s0 HInv end.

Section Preservation.

Variable E : env.

Lemma step_main (s s' : state) :
  Inv s -> step_task E TMain s = Some s' -> Inv s'.
Proof.
  intros [Hm Hi Hc Hs Hco He Ha Hv Hq] Hstep.
  unfold step_task, halted in Hstep. open_inv.
  simp_step Hstep; saturate; simp_step Hstep.
  all: injection Hstep as <-.
  all: close_inv.
Qed.

Lemma step_init (s s' : state) :
  Inv s -> step_task E TInitialize s = Some s' -> Inv s'.
Proof.
  intros [Hm Hi Hc Hs Hco He Ha Hv Hq] Hstep.
  unfold step_task, halted in Hstep. open_inv.
  simp_step Hstep; split_hyps; subst; simp_step Hstep.
  all: injection Hstep as <-.
  all: close_inv.
  all: exists []; now split.
Qed.

Lemma step_sched (s s' : state) :
  Inv s -> step_task E TScheduleTasks s = Some s' -> Inv s'.
Proof.
  intros [Hm Hi Hc Hs Hco He Ha Hv Hq] Hstep.
  unfold step_task, halted in Hstep. open_inv.
  simp_step Hstep; saturate; simp_step Hstep.
  all: injection Hstep as <-.
  all: close_inv.
Qed.

Lemma step_emoji (s s' : state) :
  Inv s -> step_task E TEmojiCheck s = Some s' -> Inv s'.
Proof.
  intros HInv Hstep. pose proof HInv as [_ _ _ Hs _ He Ha Hv Hq].
  unfold step_task in Hstep. destruct (halted s) eqn:Hh; [discriminate|].
  open_inv. simp_step Hstep; saturate; simp_step Hstep; try discriminate.
  all: injection Hstep as <-.
  all: constructor; try solve [by_frame s HInv].
  all: brute_inv.
Qed.

Lemma step_app (s s' : state) :
  Inv s -> step_task E TAppRun s = Some s' -> Inv s'.
Proof.
  intros HInv Hstep. pose proof HInv as [_ _ _ Hs _ He Ha Hv Hq].
  unfold step_task in Hstep. destruct (halted s) eqn:Hh; [discriminate|].
  open_inv. simp_step Hstep; saturate; simp_step Hstep; try discriminate.
  all: injection Hstep as <-.
  all: constructor; try solve [by_frame s HInv].
  all: brute_inv.
Qed.

Lemma step_server (s s' : state) :
  Inv s -> step_task E TServerRun s = Some s' -> Inv s'.
Proof.
  intros HInv Hstep. pose proof HInv as [_ _ _ Hs _ He Ha Hv Hq].
  unfold step_task in Hstep. destruct (halted s) eqn:Hh; [discriminate|].
  open_inv. simp_step Hstep; saturate; simp_step Hstep; try discriminate.
  all: injection Hstep as <-.
  all: constructor; try solve [by_frame s HInv].
  all: brute_inv.
Qed.

(** *** The task of [_init_components] *)

Lemma code_comp_instr (done k : list instr) (i : instr) :
  _init_components = done ++ i :: k -> comp_instr i = true.
Proof.
  intros H.
  assert (Hall : forallb comp_instr _init_components = true) by reflexivity.
  rewrite forallb_forall in Hall. apply Hall.
  rewrite H, in_app_iff. right. now left.
Qed.

Lemma running_comp_inv (i : instr) (k : list instr) (s s1 : state) :
  comp_inv (running (i :: k) s) ->
  view (trace s1) = view (trace s) ++ instr_events i ->
  comp_inv (running k s1).
Proof.
  unfold comp_inv, running, st_of. cbn.
  intros (done & Hd & Hv) H1. exists (done ++ [i]). split.
  - now rewrite <- app_assoc.
  - now rewrite ok_events_snoc, H1, Hv.
Qed.

Ltac advance HInv :=
  match type of HInv with
  | Inv (running (?i0 :: ?k0) ?s0) =>
      constructor;
      first [ solve [by_frame (running (i0 :: k0) s0) HInv]
            | apply running_comp_inv with (i := i0) (s := s0);
              [ exact (inv_comp HInv)
              | cbn; norm_goal; cbn; rewrite <- ?app_assoc, ?app_nil_r;
                reflexivity ] ]
  end.

Ltac name_target s' Hstep :=
  match goal with
  | |- Inv ?x =>
      set (s' := x); assert (Hstep : Some x = Some s') by reflexivity;
      clearbody s'
  end.

Lemma exec_comp_end (s : state) :
  Inv (running [] s) -> Inv (exec_code E TInitComponents [] s).
Proof.
  intros HInv. pose proof HInv as [Hm Hi Hc _ _ _ _ _ Hq].
  cbn [exec_code]. name_target s' Hstep.
  unfold running in *. open_inv. cbn in Hm, Hi, Hc.
  destruct Hc as (done & Hd & Hv). rewrite app_nil_r in Hd. subst done.
  simp_step Hstep; saturate; simp_step Hstep.
  all: injection Hstep as <-.
  all: constructor.
  all: try solve [by_frame (running [] s) HInv].
  all: brute_inv.
Qed.

(** An invoked collaborator raises: the task ends with the exception. *)
Lemma exec_comp_raise (i : instr) (c : callee) (k : list instr) (x : exn)
      (s : state) :
  invokes i c -> comp_callee c = true ->
  Inv (running (i :: k) s) ->
  Inv (finish TInitComponents (Raises x)
         (emit (Raised c x) (emit (Begin c) s))).
Proof.
  intros Hic Hcc HInv. pose proof HInv as [Hm Hi Hc _ _ _ _ _ Hq].
  name_target s' Hstep.
  unfold running in *. open_inv. cbn in Hm, Hi, Hc.
  destruct Hc as (done & Hd & Hv).
  unfold finish in Hstep.
  simp_step Hstep; saturate; simp_step Hstep.
  all: injection Hstep as <-.
  all: destruct c; try discriminate Hcc.
  all: constructor; try solve [by_frame_of HInv].
  all: try solve [brute_inv].
  all: unfold comp_inv, st_of; cbn; norm_goal; cbn.
  all: exists done, i, k; eexists; split; [eassumption|split; [eassumption|]].
  all: now rewrite Hv, <- app_assoc.
Qed.

(** An awaited collaborator suspends the task. *)
Lemma exec_comp_suspend (c : callee) (k : list instr) (l : option nat)
      (o : outcome) (s : state) :
  comp_callee c = true ->
  Inv (running (Await c :: k) s) ->
  Inv (set_task TInitComponents {| st := InAwait c l o; todo := k |}
         (emit (Begin c) s)).
Proof.
  intros Hcc HInv. pose proof HInv as [Hm Hi Hc _ _ _ _ _ Hq].
  open_inv. cbn in Hm, Hi, Hc.
  destruct Hc as (done & Hd & Hv).
  destruct c; try discriminate Hcc.
  all: constructor; try solve [by_frame_of HInv].
  all: try solve [brute_inv].
  all: unfold comp_inv, st_of; cbn; norm_goal; cbn.
  all: exists done; split; [assumption|now rewrite Hv].
Qed.

Lemma inv_enqueue (t : tid) (s : state) : Inv s -> Inv (enqueue t s).
Proof. intros HInv. constructor; by_frame s HInv. Qed.

Lemma inv_dequeue (t : tid) (s : state) : Inv s -> Inv (dequeue t s).
Proof. intros HInv. constructor; by_frame s HInv. Qed.

Lemma running_instr (i : instr) (k : list instr) (s : state) :
  Inv (running (i :: k) s) -> comp_instr i = true.
Proof.
  intros HInv. destruct (inv_comp HInv) as (done & Hd & _).
  cbn in Hd. eapply code_comp_instr, Hd.
Qed.

(** [_init_components] runs from any of its program points. *)
Lemma exec_comp (k : list instr) :
  forall s, Inv (running k s) -> Inv (exec_code E TInitComponents k s).
Proof.
  induction k as [|i k IH]; intros s HInv.
  - now apply exec_comp_end.
  - pose proof (running_instr HInv) as Hi.
    destruct i as [c|c|c|ts|m| |]; cbn [exec_code]; cbn in Hi.
    + destruct (outcome_of E c _).
      * apply IH. destruct c; try discriminate Hi; advance HInv.
      * apply exec_comp_raise with (i := Call c) (k := k);
          [now left | assumption | assumption].
    + destruct (suspensions E c _) as [[|n]|].
      * destruct (outcome_of E c _).
        -- apply IH. destruct c; try discriminate Hi; advance HInv.
        -- apply exec_comp_raise with (i := Await c) (k := k);
             [now right | assumption | assumption].
      * apply inv_enqueue. now apply exec_comp_suspend.
      * now apply exec_comp_suspend.
    + apply IH. destruct c; try discriminate Hi; advance HInv.
    + discriminate Hi.
    + apply IH. destruct m; try discriminate Hi; advance HInv.
    + apply IH. advance HInv.
    + apply IH. advance HInv.
Qed.

Lemma step_comp (s s' : state) :
  Inv s -> step_task E TInitComponents s = Some s' -> Inv s'.
Proof.
  intros HInv Hstep. pose proof HInv as [Hm Hi Hc _ _ _ _ _ Hq].
  unfold step_task in Hstep. destruct (halted s) eqn:Hh; [discriminate|].
  unfold comp_inv in Hc.
  destruct (st_of s TInitComponents) as [| |c [[|n]|] o|? ?|?] eqn:HC;
    try discriminate; try contradiction.
  - (* first step *)
    injection Hstep as <-. apply exec_comp.
    constructor; try solve [by_frame s HInv].
    + apply init_inv_frame with (s := s);
        [reflexivity | left; unfold st_of in *; cbn; now rewrite HC | trivial
        | exact Hi].
    + unfold comp_inv, st_of. cbn. exact Hc.
  - (* the awaited call completes *)
    destruct Hc as (done & Hd & Hv).
    pose proof (@code_comp_instr _ _ _ Hd) as Hcc. cbn in Hcc.
    destruct o as [|x]; injection Hstep as <-.
    + apply exec_comp.
      constructor; try solve [destruct c; try discriminate Hcc; by_frame s HInv].
      * apply init_inv_frame with (s := s);
          [ reflexivity | right; unfold st_of in *; cbn; now rewrite HC
          | cbn; norm_goal; intuition discriminate | exact Hi ].
      * unfold comp_inv, st_of. cbn. norm_goal.
        change (comp_event (End c)) with (comp_callee c). rewrite Hcc. cbn.
        exists (done ++ [Await c]). rewrite <- !app_assoc, ok_events_snoc.
        split; [assumption|]. cbn. now rewrite Hv, <- app_assoc.
    + (* ... with an exception *)
      name_target s1 Hstep.
      unfold finish in Hstep. open_inv. rewrite HC in Hi.
      simp_step Hstep; saturate; simp_step Hstep.
      all: injection Hstep as <-.
      all: destruct c; try discriminate Hcc.
      all: constructor; try solve [by_frame_of HInv].
      all: try solve [brute_inv].
      all: unfold comp_inv, st_of; cbn; norm_goal; cbn.
      all: exists done; do 2 eexists; eexists; split; [eassumption|].
      all: (split; [now right|]).
      all: now rewrite Hv, <- app_assoc.
  - (* the awaited call suspends again *)
    injection Hstep as <-. apply inv_enqueue.
    constructor; try solve [by_frame s HInv].
    + apply init_inv_frame with (s := s);
        [ reflexivity | right; unfold st_of in *; cbn; now rewrite HC
        | trivial | exact Hi ].
    + unfold comp_inv, st_of. cbn. exact Hc.
Qed.

(** Every step keeps the invariants. *)
Lemma step_inv (t : tid) (s s' : state) :
  Inv s -> step_task E t s = Some s' -> Inv s'.
Proof.
  destruct t;
    [ apply step_main | apply step_init | apply step_comp | apply step_sched
    | apply step_emoji | apply step_app | apply step_server ].
Qed.

Lemma initial_inv : Inv initial.
Proof. constructor; unfold main_inv, init_inv, comp_inv, sched_inv, cohort_inv,
  svc_inv, all_absent, st_of; cbn; intuition. Qed.

Lemma exec_inv (sched : list tid) :
  forall s, Inv s -> Inv (exec E sched s).
Proof.
  induction sched as [|t sched IH]; intros s HInv; cbn; [assumption|].
  destruct (step_task E t s) eqn:Hstep; apply IH; [|assumption].
  eapply step_inv; eassumption.
Qed.

(** The invariants hold in every reachable state. *)
Lemma reachable_inv (sched : list tid) : Inv (exec E sched initial).
Proof. apply exec_inv, initial_inv. Qed.

End Preservation.

(** ** Order of events in a reachable trace *)

Lemma ok_events_app (a b : list instr) :
  ok_events (a ++ b) = ok_events a ++ ok_events b.
Proof. apply flat_map_app. Qed.

Lemma firstn_exact (A : Type) (l1 l2 : list A) :
  firstn (length l1) (l1 ++ l2) = l1.
Proof.
  rewrite firstn_app, Nat.sub_diag, firstn_all. cbn. apply app_nil_r.
Qed.

Lemma view_app (l1 l2 : list event) : view (l1 ++ l2) = view l1 ++ view l2.
Proof. unfold view. now rewrite filter_app, map_app. Qed.

Lemma beforeb_spec (a b : event) (tr : list event) :
  forall seen, beforeb seen a b tr = true ->
  forall l1 l2, tr = l1 ++ b :: l2 -> seen = true \/ In a l1.
Proof.
  induction tr as [|ev tr IH]; intros seen H l1 l2 Htr.
  - now destruct l1.
  - destruct l1 as [|ev' l1]; cbn in Htr; injection Htr as -> ->.
    + cbn in H. destruct (event_eq_dec b b) as [_|N]; [|contradiction].
      apply andb_true_iff in H. now left.
    + cbn in H.
      assert (H' : beforeb (seen || (if event_eq_dec ev' a then true else false))
                     a b (l1 ++ b :: l2) = true).
      { destruct (event_eq_dec ev' b); [|exact H].
        now apply andb_true_iff in H. }
      destruct (IH _ H' l1 l2 eq_refl) as [Hs|Hin].
      * apply orb_true_iff in Hs. destruct Hs as [Hs|Hs]; [now left|].
        right. left. now destruct (event_eq_dec ev' a).
      * right. now right.
Qed.

Lemma beforeb_before (a b : event) (tr : list event) :
  beforeb false a b tr = true -> before a b tr.
Proof.
  intros H l1 l2 Htr.
  eapply beforeb_spec in H; [|exact Htr].
  destruct H; [discriminate|assumption].
Qed.

Lemma before_snoc (a b ev : event) (tr : list event) :
  b <> ev -> before a b tr -> before a b (tr ++ [ev]).
Proof.
  intros Hne H l1 l2 Htr.
  induction l2 as [|z l2' _] using rev_ind.
  - apply app_inj_tail in Htr. destruct Htr as [_ Heq]. congruence.
  - change (l1 ++ b :: l2' ++ [z]) with (l1 ++ (b :: l2') ++ [z]) in Htr.
    rewrite app_assoc in Htr. apply app_inj_tail in Htr.
    destruct Htr as [Htr _]. now apply (H l1 l2').
Qed.

Lemma before_view (a b : event) (tr : list event) :
  comp_event b = true -> erase b = b ->
  (forall ev, erase ev = a -> ev = a) ->
  before a b (view tr) -> before a b tr.
Proof.
  intros Hb Heb Ha H l1 l2 ->.
  assert (Hv : view (l1 ++ b :: l2) = view l1 ++ b :: view l2).
  { rewrite view_app. f_equal. unfold view. cbn. rewrite Hb. cbn.
    now rewrite Heb. }
  apply H in Hv. unfold view in Hv. apply in_map_iff in Hv.
  destruct Hv as (ev & Hev & Hin). apply filter_In in Hin.
  apply Ha in Hev. subst ev. tauto.
Qed.

Lemma prefix_check_before (a b : event) :
  prefix_check a b = true -> forall n, before a b (firstn n canon).
Proof.
  intros H n. apply beforeb_before.
  unfold prefix_check in H. rewrite forallb_forall in H.
  destruct (Nat.le_gt_cases n (length canon)) as [Hle|Hgt].
  - apply H, in_seq. lia.
  - rewrite firstn_all2 by lia. rewrite <- (firstn_all canon).
    apply H, in_seq. lia.
Qed.

(** The events of [_init_components] seen so far are a prefix of those of
    a successful run, followed by the exception if one was raised. *)
Lemma view_shape (s : state) :
  Inv s ->
  exists n, view (trace s) = firstn n canon \/
            exists c x, view (trace s) = firstn n canon ++ [Raised c x].
Proof.
  intros HInv. pose proof (inv_comp HInv) as Hc. unfold comp_inv in Hc.
  destruct (st_of s TInitComponents) as [| |c l o|? ?|[|x]].
  - exists 0. now left.
  - destruct Hc as (done & Hd & Hv). exists (length (ok_events done)). left.
    unfold canon. now rewrite Hd, ok_events_app, firstn_exact.
  - destruct Hc as (done & Hd & Hv).
    exists (length (ok_events done ++ [Begin c])). left.
    unfold canon. rewrite Hd, ok_events_app. cbn [ok_events flat_map].
    cbn [instr_events app].
    change (Begin c :: End c :: ?r) with ([Begin c] ++ End c :: r).
    now rewrite app_assoc, firstn_exact.
  - contradiction.
  - exists (length canon). left. now rewrite firstn_all.
  - destruct Hc as (done & i & rest & c & Hd & Hi & Hv).
    exists (length (ok_events done ++ [Begin c])). right. exists c, x.
    unfold canon. rewrite Hd, ok_events_app. cbn [ok_events flat_map].
    assert (Hie : instr_events i = [Begin c] ++ [End c])
      by (destruct Hi as [-> | ->]; reflexivity).
    rewrite Hie, <- !app_assoc, app_assoc, firstn_exact, Hv.
    now rewrite <- app_assoc.
Qed.

Lemma comp_order (a b : event) (s : state) :
  Inv s ->
  comp_event b = true -> erase b = b ->
  (forall ev, erase ev = a -> ev = a) ->
  (forall c x, b <> Raised c x) ->
  prefix_check a b = true ->
  before a b (trace s).
Proof.
  intros HInv Hb Heb Ha Hnr Hchk. apply before_view; try assumption.
  destruct (view_shape HInv) as (n & [-> | (c & x & ->)]).
  - now apply prefix_check_before.
  - apply before_snoc; [apply Hnr|]. now apply prefix_check_before.
Qed.

Lemma in_view (b : event) (tr : list event) :
  comp_event b = true -> erase b = b -> In b tr -> In b (view tr).
Proof.
  intros Hb He Hin. unfold view. apply in_map_iff. exists b.
  split; [assumption|]. apply filter_In. now split.
Qed.

Lemma ok_events_no_raise (c : callee) (x : exn) (code : list instr) :
  ~ In (Raised c x) (ok_events code).
Proof.
  unfold ok_events. rewrite in_flat_map. intros (i & _ & Hin).
  destruct i; cbn in Hin; intuition discriminate.
Qed.

Lemma splits_complete (A : Type) (l d r : list A) (i : A) :
  l = d ++ i :: r -> In (d, i, r) (splits l).
Proof.
  revert l. induction d as [|x d IH]; intros l ->; cbn.
  - now left.
  - right. apply in_map_iff. exists (d, i, r). split; [reflexivity|].
    now apply IH.
Qed.

Lemma split_upto (done rest : list instr) (i : instr) (c : callee) :
  _init_components = done ++ i :: rest -> invokes i c ->
  done = upto c _init_components.
Proof.
  intros Hd Hi. apply splits_complete in Hd. cbn in Hd.
  repeat (destruct Hd as [Hd|Hd];
          [ injection Hd as <- <- <-;
            destruct Hi as [Hi|Hi]; try discriminate Hi;
            injection Hi as <-; reflexivity | ]).
  contradiction.
Qed.

(** Once a collaborator invoked by [_init_components] has raised, the task
    has ended with that exception and has emitted nothing after it. *)
Lemma raise_view (c : callee) (x : exn) (s : state) :
  Inv s -> comp_callee c = true -> In (Raised c x) (trace s) ->
  st_of s TInitComponents = Finished (Raises x) /\
  view (trace s) = ok_events (upto c _init_components) ++ [Begin c; Raised c x].
Proof.
  intros HInv Hcc Hin. apply in_view in Hin; [|assumption|reflexivity].
  pose proof (inv_comp HInv) as Hc. unfold comp_inv in Hc.
  destruct (st_of s TInitComponents) as [| |c' l o|? ?|[|x']].
  - rewrite Hc in Hin. contradiction.
  - destruct Hc as (done & _ & Hv). rewrite Hv in Hin.
    now apply ok_events_no_raise in Hin.
  - destruct Hc as (done & _ & Hv). rewrite Hv, in_app_iff in Hin.
    destruct Hin as [Hin|[Hin|[]]]; [|discriminate].
    now apply ok_events_no_raise in Hin.
  - contradiction.
  - rewrite Hc in Hin. now apply ok_events_no_raise in Hin.
  - destruct Hc as (done & i & rest & c' & Hd & Hi & Hv).
    rewrite Hv, in_app_iff in Hin.
    destruct Hin as [Hin|[Hin|[Hin|[]]]];
      [now apply ok_events_no_raise in Hin | discriminate |].
    injection Hin as -> ->. split; [reflexivity|].
    now rewrite Hv, (split_upto _ _ Hd Hi).
Qed.

Lemma end_begin_order (a b : callee) (s : state) :
  Inv s -> comp_callee b = true ->
  prefix_check (End a) (Begin b) = true ->
  before (End a) (Begin b) (trace s).
Proof.
  intros HInv Hb Hchk. apply comp_order; try assumption; try reflexivity.
  - intros ev. destruct ev; cbn; congruence.
  - discriminate.
Qed.

(** * Properties of the bootstrap sequence *)

Ltac in_cases H :=
  cbn in H;
  repeat match type of H with
         | _ \/ _ => destruct H as [H|H]
         | False => contradiction
         end.

Section Bootstrap.

Variable E : env.
Variable sched : list tid.

Let s := exec E sched initial.

Lemma phase1_order (i j : nat) (a b : callee) :
  i < j -> nth_error phase1 i = Some a -> nth_error phase1 j = Some b ->
  before (End a) (Begin b) (trace s).
Proof.
  intros Hlt Hi Hj.
  do 8 (try destruct j as [|j]); cbn in Hj;
    try (destruct j; discriminate Hj);
    do 8 (try destruct i as [|i]); try lia;
    cbn in Hi; injection Hi as <-; injection Hj as <-;
    (apply end_begin_order;
     [apply reachable_inv | reflexivity | vm_compute; reflexivity]).
Qed.

Lemma steps_before_start (c : callee) :
  In c bootstrap_steps ->
  before (End c) (Begin handle_mai_events_ON_START) (trace s).
Proof.
  intros Hc. in_cases Hc; subst c.
  all: apply end_begin_order;
    [apply reachable_inv | reflexivity | vm_compute; reflexivity].
Qed.

(** After a bootstrap step raised, nothing later in [_init_components]
    has begun, and the exception is the task's result. *)
Lemma raise_aborts (c : callee) (x : exn) :
  In c bootstrap_steps -> In (Raised c x) (trace s) ->
  st_of s TInitComponents = Finished (Raises x) /\
  ~ In (Begin handle_mai_events_ON_START) (trace s) /\
  (In c phase1 -> ~ In (Begin register_message_handler) (trace s)).
Proof.
  intros Hc Hr.
  assert (Hcc : comp_callee c = true) by (in_cases Hc; subst c; reflexivity).
  destruct (@raise_view c x _ (reachable_inv E sched) Hcc Hr) as [Hst Hv].
  fold s in Hst, Hv. split; [assumption|]. split.
  - intros Hin. apply in_view in Hin; [|reflexivity|reflexivity].
    rewrite Hv in Hin. in_cases Hc; subst c; in_cases Hin; discriminate.
  - intros Hp Hin. apply in_view in Hin; [|reflexivity|reflexivity].
    rewrite Hv in Hin. in_cases Hp; subst c; in_cases Hin; discriminate.
Qed.

Lemma comp_failure_propagates (x : exn) :
  st_of s TInitComponents = Finished (Raises x) ->
  (st_of s TInitialize = InGather [TInitComponents] (Some (Raises x)) \/
   st_of s TInitialize = Finished (Raises x)) /\
  ~ In (Logged LogAllReady) (trace s).
Proof.
  intros HC. pose proof (inv_init (reachable_inv E sched)) as Hi.
  fold s in Hi. unfold init_inv in Hi. rewrite HC in Hi.
  destruct (st_of s TInitialize) as [| |? ? ?|ts [o|]|[|y]];
    try (intuition congruence); cbn in Hi; tauto.
Qed.

Lemma init_failure_propagates (x : exn) :
  st_of s TInitialize = Finished (Raises x) ->
  exists y,
    (st_of s TMain = InGather [TInitialize; TScheduleTasks] (Some (Raises y)) \/
     st_of s TMain = Finished (Raises y)) /\
    (y = x \/ st_of s TScheduleTasks = Finished (Raises y)).
Proof.
  intros HI. pose proof (inv_main (reachable_inv E sched)) as Hm.
  fold s in Hm. unfold main_inv in Hm. rewrite HI in Hm.
  destruct (st_of s TMain) as [| |? ? ?|ts [[|y]|]|[|y]];
    try contradiction; try (intuition congruence).
  - destruct Hm as (-> & _ & _ & _ & Hy). exists y. split; [now left|].
    destruct Hy as [Hy|Hy]; [left; congruence|now right].
  - destruct Hm as (_ & _ & _ & _ & Hx). destruct (Hx x) as [Hx' _].
    now elim Hx'.
  - exists y. split; [now right|].
    destruct Hm as [[Hy _]|[Hy|Hy]]; [discriminate|left; congruence|now right].
Qed.

Lemma main_never_returns : st_of s TMain <> Finished Returns.
Proof.
  intros HM. pose proof (inv_main (reachable_inv E sched)) as Hm.
  fold s in Hm. unfold main_inv in Hm. now rewrite HM in Hm.
Qed.

End Bootstrap.

(** C7.  Both message handlers are registered only after the mood manager's
    start and the chat manager's initialization have returned. *)
Theorem handlers_after_mood_and_chat (E : env) (sched : list tid) :
  forall h d,
    In h handlers -> In d [mood_manager_start; chat_manager_initialize] ->
    before (End d) (Begin h) (trace (exec E sched initial)).
Proof.
  intros h d Hh Hd. in_cases Hh; in_cases Hd; subst h d.
  all: apply end_begin_order;
    [apply reachable_inv | reflexivity | vm_compute; reflexivity].
Qed.

(** A task whose gather has the exception ends with it when it is resumed. *)
Lemma resume_with_exception (E : env) (t : tid) (ts : list tid) (x : exn)
      (s : state) :
  halted s = false ->
  st_of s t = InGather ts (Some (Raises x)) ->
  exists s1, step_task E t s = Some s1 /\ st_of s1 t = Finished (Raises x).
Proof.
  intros Hh Ht. unfold step_task. rewrite Hh, Ht. eexists. split; [reflexivity|].
  unfold finish, st_of.
  destruct t; cbn;
    repeat match goal with
           | |- context [match ?x with _ => _ end] => destruct x
           end; reflexivity.
Qed.

(** No execution begins the chat manager's initialization before the mood
    manager's start has returned. *)
Lemma phase1_not_concurrent : ~ phase1_concurrent.
Proof.
  intros H.
  destruct (H mood_manager_start chat_manager_initialize) as (E & sched & Hn);
    [cbn; tauto | cbn; tauto | discriminate |].
  apply Hn. apply (@phase1_order E sched 6 7); [lia|reflexivity|reflexivity].
Qed.

(** C2, amended.  The phase-1 initializations run one after another, each
    beginning only after its predecessor returned; handler registration
    begins only after all of them have returned; and when one of them
    raises, [_init_components] ends with that exception without registering
    a handler or emitting ON_START. *)
Theorem phase1_barrier (E : env) (sched : list tid) :
  let s := exec E sched initial in
  (forall i a b,
     nth_error phase1 i = Some a -> nth_error phase1 (S i) = Some b ->
     before (End a) (Begin b) (trace s)) /\
  (forall c, In c phase1 ->
     before (End c) (Begin register_message_handler) (trace s)) /\
  (forall c x, In c phase1 -> In (Raised c x) (trace s) ->
     st_of s TInitComponents = Finished (Raises x) /\
     ~ In (Begin register_message_handler) (trace s) /\
     ~ In (Begin handle_mai_events_ON_START) (trace s)).
Proof.
  intros s. split; [|split].
  - intros i a b Ha Hb. apply (@phase1_order E sched i (S i)); auto.
  - intros c Hc. in_cases Hc; subst c.
    all: apply end_begin_order;
      [apply reachable_inv | reflexivity | vm_compute; reflexivity].
  - intros c x Hc Hr.
    assert (Hc' : In c bootstrap_steps)
      by (unfold bootstrap_steps; apply in_or_app; now left).
    destruct (@raise_aborts E sched _ _ Hc' Hr) as (HC & Hno & Hreg).
    auto.
Qed.

(** C4, amended.  When a bootstrap step raises, the exception is the result
    of [_init_components]; [initialize] has it as the result of its gather
    and ends with it as soon as it is resumed; once [initialize] has ended
    with it, the gather of [main] holds an exception, which is this one
    unless [schedule_tasks] had already raised, and [main] ends with it as
    soon as it is resumed.  Nothing recovers: the success banner is never
    logged, ON_START is never emitted and [main] never returns normally. *)
Theorem bootstrap_error_is_fatal (E : env) (sched : list tid)
        (c : callee) (x : exn) :
  let s := exec E sched initial in
  In c bootstrap_steps -> In (Raised c x) (trace s) ->
  st_of s TInitComponents = Finished (Raises x) /\
  (st_of s TInitialize = InGather [TInitComponents] (Some (Raises x)) \/
   st_of s TInitialize = Finished (Raises x)) /\
  (halted s = false ->
   st_of s TInitialize = InGather [TInitComponents] (Some (Raises x)) ->
   exists s1, step_task E TInitialize s = Some s1 /\
              st_of s1 TInitialize = Finished (Raises x)) /\
  (st_of s TInitialize = Finished (Raises x) ->
   exists y,
     (st_of s TMain =
        InGather [TInitialize; TScheduleTasks] (Some (Raises y)) \/
      st_of s TMain = Finished (Raises y)) /\
     (y = x \/ st_of s TScheduleTasks = Finished (Raises y))) /\
  (forall y,
     st_of s TMain = InGather [TInitialize; TScheduleTasks] (Some (Raises y)) ->
     exists s1, step_task E TMain s = Some s1 /\
                st_of s1 TMain = Finished (Raises y)) /\
  ~ In (Logged LogAllReady) (trace s) /\
  ~ In (Begin handle_mai_events_ON_START) (trace s) /\
  st_of s TMain <> Finished Returns.
Proof.
  intros s Hc Hr.
  destruct (@raise_aborts E sched _ _ Hc Hr) as (HC & Hno & _).
  destruct (@comp_failure_propagates E sched _ HC) as (HI & Hlog).
  repeat split; try assumption.
  - intros Hh Hg. now apply resume_with_exception with (ts := [TInitComponents]).
  - apply init_failure_propagates.
  - intros y HM.
    apply resume_with_exception with (ts := [TInitialize; TScheduleTasks]);
      [|assumption].
    unfold halted. fold s. now rewrite HM.
  - apply main_never_returns.
Qed.

(** * Properties of the service host loop *)

Lemma in_count_pos (p : event -> bool) (ev : event) (tr : list event) :
  In ev tr -> p ev = true -> 0 < count p tr.
Proof.
  intros Hin Hp. unfold count.
  assert (H : In ev (filter p tr)) by (apply filter_In; now split).
  destruct (filter p tr); [contradiction|cbn; lia].
Qed.

Lemma count_app (p : event -> bool) (l1 l2 : list event) :
  count p (l1 ++ l2) = count p l1 + count p l2.
Proof. unfold count. now rewrite filter_app, length_app. Qed.

Lemma after_failure_split (l1 l2 : list event) (ev : event) :
  is_svc_raise ev = true ->
  exists l0, after_failure (l1 ++ ev :: l2) = l0 ++ l2.
Proof.
  intros Hev. induction l1 as [|a l1 IH]; cbn.
  - rewrite Hev. now exists [].
  - destruct (is_svc_raise a); [|exact IH].
    exists (l1 ++ [ev]). now rewrite <- app_assoc.
Qed.

(** No service task is made after a service has raised. *)
Lemma late_starts_spec (tr l1 l2 : list event) (c : callee) (x : exn)
      (t : tid) :
  late_starts tr = 0 -> tr = l1 ++ Raised c x :: l2 ->
  is_svc_raise (Raised c x) = true -> In t services ->
  ~ In (Created t) l2.
Proof.
  intros Hq -> Hr Ht Hin. unfold late_starts in Hq.
  destruct (after_failure_split l1 l2 _ Hr) as (l0 & Hl0).
  rewrite Hl0, count_app in Hq.
  assert (Hpos : 0 < count is_svc_created l2).
  { apply in_count_pos with (ev := Created t); [assumption|].
    in_cases Ht; subst t; reflexivity. }
  lia.
Qed.

Section HostLoop.

Variable E : env.
Variable sched : list tid.

Let s := exec E sched initial.

Lemma svc_cases (t : tid) : In t services -> svc_inv s t.
Proof.
  intros Ht. pose proof (reachable_inv E sched) as HInv. fold s in HInv.
  in_cases Ht; subst t;
    [exact (inv_emoji HInv) | exact (inv_app HInv) | exact (inv_server HInv)].
Qed.

Lemma starts_equal (t t' : tid) :
  In t services -> In t' services -> starts t s = starts t' s.
Proof.
  intros Ht Ht'. destruct (inv_cohort (reachable_inv E sched)) as [H1 H2].
  fold s in H1, H2. in_cases Ht; in_cases Ht'; subst t t'; congruence.
Qed.

Lemma starts_bound (t : tid) :
  In t services ->
  invocations (svc_callee t) (trace s) <= starts t s <=
    S (invocations (svc_callee t) (trace s)) /\
  starts t s <= S (returns_of t s).
Proof.
  intros Ht. pose proof (@svc_cases t Ht) as H. unfold svc_inv in H.
  destruct (st_of s t) as [| |? ? ?|? ?|[|?]]; try contradiction; lia.
Qed.

Lemma all_returned_pending :
  all_returned s ->
  st_of s TScheduleTasks = InGather services (Some Returns) /\
  todo (tasks s TScheduleTasks) = [].
Proof.
  intros (He & Ha & Hv).
  pose proof (inv_sched (reachable_inv E sched)) as Hs. fold s in Hs.
  unfold sched_inv, all_absent, all_returned, failed_with, no_failure in Hs.
  destruct (st_of s TScheduleTasks) as [| |? ? ?|ts [[|y]|]|[|y]];
    try contradiction; intuition congruence.
Qed.

Lemma raised_failed (t : tid) (x : exn) :
  In t services -> In (Raised (svc_callee t) x) (trace s) ->
  (exists x', st_of s t = Finished (Raises x')) /\
  raises_of t s = 1 /\ starts t s = S (returns_of t s).
Proof.
  intros Ht Hr. pose proof (@svc_cases t Ht) as H. unfold svc_inv in H.
  assert (Hpos : 0 < raises_of t s).
  { unfold raises_of. apply in_count_pos with (ev := Raised (svc_callee t) x);
      [assumption|]. cbn. unfold callee_eqb.
    now destruct (callee_eq_dec (svc_callee t) (svc_callee t)). }
  destruct (st_of s t) as [| |? ? ?|? ?|[|x']]; try contradiction; try lia.
  split; [now exists x'|]. lia.
Qed.

Lemma failure_reaches_sched (t : tid) (x : exn) :
  In t services -> st_of s t = Finished (Raises x) ->
  exists y,
    (st_of s TScheduleTasks = InGather services (Some (Raises y)) \/
     st_of s TScheduleTasks = Finished (Raises y)) /\
    failed_with s y.
Proof.
  intros Ht Hf.
  pose proof (inv_sched (reachable_inv E sched)) as Hs. fold s in Hs.
  unfold sched_inv, all_absent, all_returned, no_failure in Hs.
  destruct (st_of s TScheduleTasks) as [| |? ? ?|ts [[|y]|]|[|y]];
    try contradiction.
  - in_cases Ht; subst t; intuition congruence.
  - in_cases Ht; subst t; intuition congruence.
  - in_cases Ht; subst t; intuition congruence.
  - destruct Hs as (-> & _ & Hy). exists y. split; [now left|assumption].
  - destruct Hs as (_ & _ & Hn & _). destruct (Hn x) as (? & ? & ?).
    in_cases Ht; subst t; contradiction.
  - exists y. split; [now right|assumption].
Qed.

End HostLoop.

(** The loop re-enters: one resumption of [schedule_tasks] makes the three
    service tasks again, in the order of the list at lines 127-131. *)
Lemma restart_step (E : env) (s : state) :
  halted s = false ->
  st_of s TScheduleTasks = InGather services (Some Returns) ->
  todo (tasks s TScheduleTasks) = [] ->
  exists s1,
    step_task E TScheduleTasks s = Some s1 /\
    trace s1 =
      trace s ++ [Created TEmojiCheck; Created TAppRun; Created TServerRun] /\
    st_of s1 TScheduleTasks = InGather services None /\
    (forall t, In t services ->
       st_of s1 t = Runnable /\ starts t s1 = S (starts t s)).
Proof.
  intros Hh Hs Hk. unfold step_task. rewrite Hh, Hs, Hk. cbn.
  eexists. split; [reflexivity|]. cbn. split; [now rewrite <- !app_assoc|].
  split; [reflexivity|].
  intros t Ht. in_cases Ht; subst t; (split; [reflexivity|]).
  all: unfold starts; cbn; now rewrite !count_snoc.
Qed.


(** C6, amended.  A service that exits alone restarts nothing: the cohort
    is started for the (k+1)-th time only if every one of the three
    services has returned k times. *)
Theorem restart_needs_all_returns (E : env) (sched : list tid) :
  let s := exec E sched initial in
  forall t t', In t services -> In t' services ->
               starts t s <= S (returns_of t' s).
Proof.
  intros s t t' Ht Ht'. subst s.
  rewrite (@starts_equal E sched t t' Ht Ht'). now apply starts_bound.
Qed.

(** * The event loop's own schedule *)

Section Fifo.

Variable E : env.

(** A first-in-first-out run is one of the interleavings. *)
Lemma run_fifo_exec (n : nat) :
  forall s, exists sched, run_fifo E n s = exec E sched s.
Proof.
  induction n as [|n IH]; intros s; cbn.
  - now exists [].
  - destruct (ready s) as [|t q]; [now exists []|].
    destruct (step_task E t s) as [s'|] eqn:Hstep; [|now exists []].
    destruct (IH s') as (sched & Hs). exists (t :: sched). cbn.
    now rewrite Hstep.
Qed.

Lemma run_fifo_idle (n : nat) (s : state) :
  ready s = [] -> run_fifo E n s = s.
Proof. intros H. destruct n; cbn; [reflexivity|now rewrite H]. Qed.

Lemma run_fifo_plus (n m : nat) :
  forall s, run_fifo E (n + m) s = run_fifo E m (run_fifo E n s).
Proof.
  induction n as [|n IH]; intros s; cbn; [reflexivity|].
  destruct (ready s) as [|t q] eqn:Hq.
  - destruct m; cbn; [reflexivity|now rewrite Hq].
  - destruct (step_task E t s) as [s'|] eqn:Hstep; [apply IH|].
    destruct m; cbn; [reflexivity|now rewrite Hq, Hstep].
Qed.

(** The trace only grows. *)
Lemma finish_trace (t : tid) (o : outcome) (s : state) :
  trace (finish t o s) = trace s.
Proof.
  unfold finish. destruct (parent t); [|reflexivity].
  repeat match goal with
         | |- context [match ?x with _ => _ end] => destruct x
         | |- context [if ?x then _ else _] => destruct x
         end; reflexivity.
Qed.

Lemma spawn_all_trace (ts : list tid) :
  forall s, trace (spawn_all ts s) = trace s ++ map Created ts.
Proof.
  induction ts as [|t ts IH]; intros s; cbn; [now rewrite app_nil_r|].
  rewrite IH. cbn. now rewrite <- app_assoc.
Qed.

Lemma exec_code_grows (t : tid) (k : list instr) :
  forall s, exists evs, trace (exec_code E t k s) = trace s ++ evs.
Proof.
  induction k as [|i k IH]; intros s; cbn [exec_code].
  - exists []. now rewrite finish_trace, app_nil_r.
  - destruct i as [c|c|c|ts|m| |].
    + destruct (outcome_of E c _).
      * destruct (IH (emit (End c) (emit (Begin c) s))) as (evs & ->).
        cbn. eexists. now rewrite <- !app_assoc.
      * rewrite finish_trace. cbn. eexists. now rewrite <- !app_assoc.
    + destruct (suspensions E c _) as [[|n]|].
      * destruct (outcome_of E c _).
        -- destruct (IH (emit (End c) (emit (Begin c) s))) as (evs & ->).
           cbn. eexists. now rewrite <- !app_assoc.
        -- rewrite finish_trace. cbn. eexists. now rewrite <- !app_assoc.
      * cbn. now eexists.
      * cbn. now eexists.
    + destruct (IH (emit (Spawned c) s)) as (evs & ->).
      cbn. eexists. now rewrite <- !app_assoc.
    + rewrite spawn_all_trace. cbn. now eexists.
    + destruct (IH (emit (Logged m) s)) as (evs & ->).
      cbn. eexists. now rewrite <- !app_assoc.
    + destruct (IH (read_start E s)) as (evs & ->). cbn. now eexists.
    + destruct (IH (report E s)) as (evs & ->).
      cbn. eexists. now rewrite <- !app_assoc.
Qed.

Lemma step_grows (t : tid) (s s' : state) :
  step_task E t s = Some s' -> exists evs, trace s' = trace s ++ evs.
Proof.
  unfold step_task. destruct (halted s); [discriminate|].
  destruct (st_of s t) as [| |c [[|n]|] [|x]|ts [[|x]|]|o];
    try discriminate; intros H; injection H as <-.
  - apply (exec_code_grows t (todo (tasks s t)) (dequeue t s)).
  - destruct (exec_code_grows t (todo (tasks s t))
                (emit (End c) (dequeue t s))) as (evs & ->).
    cbn. eexists. now rewrite <- !app_assoc.
  - rewrite finish_trace. cbn. now eexists.
  - cbn. exists []. now rewrite app_nil_r.
  - cbn. exists []. now rewrite app_nil_r.
  - apply (exec_code_grows t (continuation t (todo (tasks s t)))
             (dequeue t s)).
  - rewrite finish_trace. cbn. exists []. now rewrite app_nil_r.
Qed.

Lemma run_fifo_grows (n : nat) :
  forall s, exists evs, trace (run_fifo E n s) = trace s ++ evs.
Proof.
  induction n as [|n IH]; intros s; cbn.
  - exists []. now rewrite app_nil_r.
  - destruct (ready s) as [|t q]; [exists []; now rewrite app_nil_r|].
    destruct (step_task E t s) as [s'|] eqn:Hstep;
      [|exists []; now rewrite app_nil_r].
    destruct (step_grows _ _ Hstep) as (evs & Hs').
    destruct (IH s') as (evs' & ->). rewrite Hs'.
    eexists. now rewrite <- app_assoc.
Qed.

End Fifo.

Lemma beforeb_complete (a b : event) (tr : list event) :
  forall seen,
    (forall l1 l2, tr = l1 ++ b :: l2 -> seen = true \/ In a l1) ->
    beforeb seen a b tr = true.
Proof.
  induction tr as [|ev tr IH]; intros seen H; cbn; [reflexivity|].
  assert (Hrec : beforeb (seen || (if event_eq_dec ev a then true else false))
                   a b tr = true).
  { apply IH. intros l1 l2 ->.
    destruct (H (ev :: l1) l2 eq_refl) as [->|[->|Hin]].
    - now left.
    - left. destruct (event_eq_dec a a); [apply orb_true_r|contradiction].
    - now right. }
  destruct (event_eq_dec ev b) as [->|]; [|exact Hrec].
  rewrite Hrec, andb_true_r.
  destruct (H [] tr eq_refl) as [->|[]]. reflexivity.
Qed.

Lemma before_beforeb (a b : event) (tr : list event) :
  before a b tr -> beforeb false a b tr = true.
Proof. intros H. apply beforeb_complete. intros l1 l2 Htr. right. eauto. Qed.

Lemma before_app_l (a b : event) (l1 l2 : list event) :
  In a l1 -> ~ In b l1 -> before a b (l1 ++ l2).
Proof.
  induction l1 as [|z l1 IH]; intros Ha Hb m1 m2 Heq; [contradiction|].
  destruct m1 as [|z' m1]; cbn in Heq; injection Heq as Hz Heq.
  - exfalso. apply Hb. now left.
  - subst z'. destruct Ha as [->|Ha]; [now left|].
    right. apply (IH Ha (fun Hin => Hb (or_intror Hin)) m1 m2 Heq).
Qed.

Lemma before_absent (a b : event) (tr : list event) :
  ~ In b tr -> before a b tr.
Proof.
  intros Hb l1 l2 ->. exfalso. apply Hb, in_or_app. right. now left.
Qed.

(** * C1: when the services start *)

Lemma exec_straight (E : env) (t : tid) (post : list instr) :
  forall pre s,
    Forall (straight E) pre ->
    exists s1,
      exec_code E t (pre ++ post) s = exec_code E t post s1 /\
      trace s1 = trace s ++ ok_events pre.
Proof.
  induction pre as [|i pre IH]; intros s Hall.
  - exists s. split; [reflexivity|]. cbn. now rewrite app_nil_r.
  - inversion Hall as [|i' pre' Hi Hpre]; subst.
    destruct i as [c|c|c|ts|m| |]; cbn in Hi; try contradiction;
      cbn [app exec_code].
    + rewrite Hi.
      destruct (IH (emit (End c) (emit (Begin c) s)) Hpre) as (s1 & -> & Htr).
      exists s1. split; [reflexivity|]. rewrite Htr. cbn.
      now rewrite <- !app_assoc.
    + destruct (Hi (invocations c (trace s))) as [-> ->].
      destruct (IH (emit (End c) (emit (Begin c) s)) Hpre) as (s1 & -> & Htr).
      exists s1. split; [reflexivity|]. rewrite Htr. cbn.
      now rewrite <- !app_assoc.
    + destruct (IH (emit (Spawned c) s) Hpre) as (s1 & -> & Htr).
      exists s1. split; [reflexivity|]. rewrite Htr. cbn.
      now rewrite <- !app_assoc.
    + destruct (IH (emit (Logged m) s) Hpre) as (s1 & -> & Htr).
      exists s1. split; [reflexivity|]. rewrite Htr. cbn.
      now rewrite <- !app_assoc.
    + destruct (IH (read_start E s) Hpre) as (s1 & -> & Htr).
      exists s1. split; [reflexivity|]. now rewrite Htr.
Qed.

Section PromptBootstrap.

Variable E : env.
Hypothesis returns :
  forall c k, In c before_registration -> outcome_of E c k = Returns.
Hypothesis no_suspension :
  forall c k, In c awaited_before_registration -> suspensions E c k = Some 0.

Lemma straight_through_registration :
  Forall (straight E) through_registration.
Proof.
  unfold through_registration. cbn.
  repeat constructor; cbn; intros;
    try split; try apply returns; try apply no_suspension; cbn; tauto.
Qed.

Lemma first_three_steps :
  exists s3,
    run_fifo E 3 initial = s3 /\
    trace s3 = prologue /\
    ready s3 = [TInitComponents; TEmojiCheck; TAppRun; TServerRun] /\
    halted s3 = false /\
    st_of s3 TInitComponents = Runnable /\
    todo (tasks s3 TInitComponents) = _init_components.
Proof.
  assert (H1 : forall k, outcome_of E get_global_api k = Returns)
    by (intros k; apply returns; cbn; tauto).
  assert (H2 : forall k, outcome_of E get_global_server k = Returns)
    by (intros k; apply returns; cbn; tauto).
  eexists. split; [reflexivity|].
  cbn. rewrite H1. cbn. rewrite H2. cbn. repeat split.
Qed.

Lemma fourth_step :
  exists evs,
    trace (run_fifo E 4 initial) =
      (prologue ++ ok_events through_registration) ++ evs.
Proof.
  destruct first_three_steps as (s3 & H3 & Htr & Hq & Hh & Hst & Hk).
  change 4 with (3 + 1). rewrite run_fifo_plus, H3.
  cbn [run_fifo]. rewrite Hq. unfold step_task. rewrite Hh, Hst, Hk.
  change _init_components with (through_registration ++ after_registration).
  destruct (@exec_straight E TInitComponents after_registration
              through_registration (dequeue TInitComponents s3)
              straight_through_registration)
    as (s1 & -> & Hs1).
  destruct (@exec_code_grows E TInitComponents after_registration s1)
    as (evs & ->).
  exists evs. rewrite Hs1. cbn [trace dequeue]. now rewrite Htr.
Qed.

Lemma prompt_registration_first (n : nat) (a b : event) :
  In a (prologue ++ ok_events through_registration) ->
  ~ In b (prologue ++ ok_events through_registration) ->
  before a b (trace (run_fifo E n initial)).
Proof.
  intros Ha Hb.
  assert (H1 : forall k, outcome_of E get_global_api k = Returns)
    by (intros k; apply returns; cbn; tauto).
  assert (H2 : forall k, outcome_of E get_global_server k = Returns)
    by (intros k; apply returns; cbn; tauto).
  assert (Hpre : forall m,
            m < 4 -> exists l, trace (run_fifo E m initial) ++ l =
                               prologue ++ ok_events through_registration).
  { intros m Hm. destruct m as [|[|[|[|m]]]]; try lia; cbn;
      rewrite ?H1; cbn; rewrite ?H2; cbn; eexists; reflexivity. }
  destruct (Nat.lt_ge_cases n 4) as [Hlt|Hge].
  - destruct (Hpre n Hlt) as (l & Hl). apply before_absent.
    intros Hin. apply Hb. rewrite <- Hl. apply in_or_app. now left.
  - replace n with (4 + (n - 4)) by lia. rewrite run_fifo_plus.
    destruct (@run_fifo_grows E (n - 4) (run_fifo E 4 initial)) as (evs' & ->).
    destruct fourth_step as (evs & ->). rewrite <- app_assoc.
    now apply before_app_l.
Qed.

End PromptBootstrap.

(** With it, both servers' run loops begin while [_init_components] is
    suspended at line 86, before any handler is registered. *)
Lemma services_start_before_handlers : ~ services_wait_for_handlers.
Proof.
  intros H. destruct (H mood_suspends_once 8) as [Happ _].
  apply before_beforeb in Happ. vm_compute in Happ. discriminate.
Qed.

(** C1, amended.  The services are not gated on handler registration.  They
    begin after it when nothing that [main.py] calls up to and including
    handler registration raises or suspends its task: the event loop then
    runs [_init_components] through line 107 before it first runs a service
    task, so both handlers are registered before any service begins. *)
Theorem handlers_first_without_suspension (E : env) (n : nat) :
  (forall c k, In c before_registration -> outcome_of E c k = Returns) ->
  (forall c k, In c awaited_before_registration ->
               suspensions E c k = Some 0) ->
  forall h svc, In h handlers -> In svc service_callees ->
    before (End h) (Begin svc) (trace (run_fifo E n initial)).
Proof.
  intros Hret Hsus h svc Hh Hsvc.
  apply prompt_registration_first; try assumption.
  - in_cases Hh; subst h; cbn; tauto.
  - intros Hin. in_cases Hsvc; subst svc; in_cases Hin; discriminate.
Qed.

(** * C8: the clock does not influence behaviour *)

Lemma count_erase (p : event -> bool) (tr : list event) :
  (forall ev, p (erase ev) = p ev) ->
  count p (map erase tr) = count p tr.
Proof.
  intros Hp. unfold count. induction tr as [|ev tr IH]; cbn; [reflexivity|].
  rewrite Hp. destruct (p ev); cbn; now rewrite IH.
Qed.

Lemma sim_invocations (c : callee) (s1 s2 : state) :
  sim s1 s2 -> invocations c (trace s1) = invocations c (trace s2).
Proof.
  intros H. unfold invocations.
  rewrite <- (count_erase (is_begin c) (trace s1)),
          <- (count_erase (is_begin c) (trace s2));
    try (intros ev; now destruct ev).
  now rewrite (sim_trace H).
Qed.

Lemma sim_set_task (t : tid) (k : task) (s1 s2 : state) :
  sim s1 s2 -> sim (set_task t k s1) (set_task t k s2).
Proof.
  intros [Ht Hr Hc Htr]. constructor; cbn; try assumption.
  intros t'. destruct (tid_eq_dec t' t); [reflexivity|apply Ht].
Qed.

Lemma sim_emit (ev1 ev2 : event) (s1 s2 : state) :
  erase ev1 = erase ev2 -> sim s1 s2 -> sim (emit ev1 s1) (emit ev2 s2).
Proof.
  intros He [Ht Hr Hc Htr]. constructor; cbn; try assumption.
  rewrite !map_app. cbn. now rewrite He, Htr.
Qed.

Lemma sim_enqueue (t : tid) (s1 s2 : state) :
  sim s1 s2 -> sim (enqueue t s1) (enqueue t s2).
Proof.
  intros [Ht Hr Hc Htr]. constructor; cbn; try assumption. now rewrite Hr.
Qed.

Lemma sim_dequeue (t : tid) (s1 s2 : state) :
  sim s1 s2 -> sim (dequeue t s1) (dequeue t s2).
Proof.
  intros [Ht Hr Hc Htr]. constructor; cbn; try assumption. now rewrite Hr.
Qed.

Lemma sim_st_of (t : tid) (s1 s2 : state) :
  sim s1 s2 -> st_of s1 t = st_of s2 t.
Proof. intros H. unfold st_of. now rewrite (sim_tasks H). Qed.

Lemma sim_returned (ts : list tid) (s1 s2 : state) :
  sim s1 s2 -> forallb (returned s1) ts = forallb (returned s2) ts.
Proof.
  intros H. induction ts as [|t ts IH]; cbn; [reflexivity|].
  unfold returned at 1 3. now rewrite (sim_st_of t H), IH.
Qed.

Lemma sim_finish (t : tid) (o : outcome) (s1 s2 : state) :
  sim s1 s2 -> sim (finish t o s1) (finish t o s2).
Proof.
  intros H. unfold finish.
  set (k := {| st := Finished o; todo := [] |}).
  pose proof (sim_set_task t k H) as H1.
  destruct (parent t) as [p|]; [|exact H1].
  rewrite (sim_st_of p H1).
  destruct (st_of (set_task t k s2) p) as [| |? ? ?|ts [?|]|?]; try exact H1.
  rewrite (sim_tasks H1 p).
  destruct o as [|x].
  - rewrite (sim_returned ts H1).
    destruct (forallb (returned (set_task t k s2)) ts); [|exact H1].
    now apply sim_enqueue, sim_set_task.
  - now apply sim_enqueue, sim_set_task.
Qed.

Lemma sim_spawn_all (ts : list tid) :
  forall s1 s2, sim s1 s2 -> sim (spawn_all ts s1) (spawn_all ts s2).
Proof.
  induction ts as [|t ts IH]; intros s1 s2 H; cbn; [assumption|].
  apply IH, sim_enqueue, sim_emit; [reflexivity|]. now apply sim_set_task.
Qed.

Section ClockIndependence.

Variables E1 E2 : env.
Hypothesis same : same_but_clock E1 E2.

Lemma sim_read_start (s1 s2 : state) :
  sim s1 s2 -> sim (read_start E1 s1) (read_start E2 s2).
Proof.
  intros [Ht Hr Hc Htr]. constructor; cbn; try assumption. now rewrite Hc.
Qed.

Lemma sim_report (s1 s2 : state) :
  sim s1 s2 -> sim (report E1 s1) (report E2 s2).
Proof.
  intros [Ht Hr Hc Htr]. constructor; cbn; try assumption.
  - now rewrite Hc.
  - rewrite !map_app. cbn. now rewrite Htr.
Qed.

Lemma sim_exec_code (t : tid) (k : list instr) :
  forall s1 s2, sim s1 s2 -> sim (exec_code E1 t k s1) (exec_code E2 t k s2).
Proof.
  destruct same as [Hout Hsus].
  induction k as [|i k IH]; intros s1 s2 H; cbn [exec_code].
  - now apply sim_finish.
  - destruct i as [c|c|c|ts|m| |].
    + rewrite (sim_invocations c H), Hout.
      destruct (outcome_of E2 c _).
      * apply IH. now do 2 (apply sim_emit; [reflexivity|]).
      * apply sim_finish. now do 2 (apply sim_emit; [reflexivity|]).
    + rewrite (sim_invocations c H), Hout, Hsus.
      destruct (suspensions E2 c _) as [[|n]|].
      * destruct (outcome_of E2 c _).
        -- apply IH. now do 2 (apply sim_emit; [reflexivity|]).
        -- apply sim_finish. now do 2 (apply sim_emit; [reflexivity|]).
      * apply sim_enqueue, sim_set_task. now apply sim_emit.
      * apply sim_set_task. now apply sim_emit.
    + apply IH. now apply sim_emit.
    + apply sim_spawn_all. now apply sim_set_task.
    + apply IH. now apply sim_emit.
    + apply IH. now apply sim_read_start.
    + apply IH. now apply sim_report.
Qed.

Lemma sim_step (t : tid) (s1 s2 : state) :
  sim s1 s2 ->
  match step_task E1 t s1, step_task E2 t s2 with
  | Some s1', Some s2' => sim s1' s2'
  | None, None => True
  | _, _ => False
  end.
Proof.
  intros H. unfold step_task, halted.
  rewrite (sim_st_of TMain H), (sim_st_of t H), (sim_tasks H t).
  destruct (st_of s2 TMain); try exact I;
    destruct (st_of s2 t) as [| |? [[|?]|] [|?]|? [[|?]|]|?]; try exact I.
  all: try (apply sim_exec_code; try apply sim_emit; try reflexivity;
            now apply sim_dequeue).
  all: try (apply sim_finish; try apply sim_emit; try reflexivity;
            now apply sim_dequeue).
  all: apply sim_enqueue, sim_set_task; now apply sim_dequeue.
Qed.

Lemma sim_exec (sched : list tid) :
  forall s1 s2, sim s1 s2 -> sim (exec E1 sched s1) (exec E2 sched s2).
Proof.
  induction sched as [|t sched IH]; intros s1 s2 H; cbn; [assumption|].
  pose proof (sim_step t H) as Hs.
  destruct (step_task E1 t s1), (step_task E2 t s2);
    try contradiction; now apply IH.
Qed.

Lemma sim_run_fifo (n : nat) :
  forall s1 s2, sim s1 s2 -> sim (run_fifo E1 n s1) (run_fifo E2 n s2).
Proof.
  induction n as [|n IH]; intros s1 s2 H; cbn; [assumption|].
  rewrite (sim_ready H). destruct (ready s2) as [|t q]; [assumption|].
  pose proof (sim_step t H) as Hs.
  destruct (step_task E1 t s1), (step_task E2 t s2);
    try contradiction; [now apply IH|assumption].
Qed.

End ClockIndependence.

Lemma sim_refl (s : state) : sim s s.
Proof. now constructor. Qed.

(** C8.  Two runs whose environments differ at most in the clock take the
    same steps: under every schedule, and in the event loop's own order,
    every task is in the same state with the same code left to run, the
    ready queue is the same, and the traces are equal up to the number
    written by line 119.  In particular the same components are
    initialized, the same handlers registered, the same events emitted and
    the same tasks ended with the same outcomes. *)
Theorem clock_is_informational (E1 E2 : env) :
  same_but_clock E1 E2 ->
  (forall sched, sim (exec E1 sched initial) (exec E2 sched initial)) /\
  (forall n, sim (run_fifo E1 n initial) (run_fifo E2 n initial)).
Proof.
  intros H. split.
  - intros sched. apply sim_exec; [assumption|apply sim_refl].
  - intros n. apply sim_run_fifo; [assumption|apply sim_refl].
Qed.

(** * Concrete runs *)

(** The emoji check has returned, both servers keep running, the event
    loop has nothing left to resume: nothing is ever started again. *)
Lemma lone_exit_restarts_nothing : ~ restart_on_any_exit.
Proof.
  intros H.
  destruct (H emoji_returns_alone 8 TEmojiCheck) as (m & Hm).
  - cbn. tauto.
  - vm_compute. reflexivity.
  - specialize (Hm TEmojiCheck (or_introl eq_refl)).
    rewrite run_fifo_plus in Hm.
    rewrite (@run_fifo_idle emoji_returns_alone m
               (run_fifo emoji_returns_alone 8 initial)) in Hm
      by (vm_compute; reflexivity).
    lia.
Qed.

(** The control server raised first: [main] ends with its exception, and
    the one of the bootstrap step is dropped by the gather of [main]. *)
Lemma earlier_service_error_wins : ~ bootstrap_error_leaves_main.
Proof.
  intros H.
  assert (H73 : 7 = 3); [|discriminate H73].
  apply (H server_fails_first 11 add_task_OnlineTimeRecordTask 3 7).
  - cbn. tauto.
  - vm_compute. tauto.
  - vm_compute. reflexivity.
Qed.

(** * The theorems at concrete runs *)

Lemma handlers_first_without_suspension_witness :
  In register_message_handler handlers /\ In app_run service_callees /\
  before (End register_message_handler) (Begin app_run)
    (trace (run_fifo all_prompt 10 initial)).
Proof.
  assert (H1 : forall c k, In c before_registration ->
                           outcome_of all_prompt c k = Returns)
    by (intros c k _; reflexivity).
  assert (H2 : forall c k, In c awaited_before_registration ->
                           suspensions all_prompt c k = Some 0)
    by (intros c k Hc; in_cases Hc; subst c; reflexivity).
  assert (H3 : In register_message_handler handlers) by (cbn; tauto).
  assert (H4 : In app_run service_callees) by (cbn; tauto).
  split; [exact H3|]. split; [exact H4|].
  exact (@handlers_first_without_suspension all_prompt 10 H1 H2
           register_message_handler app_run H3 H4).
Defined.

Lemma phase1_barrier_witness :
  let s := exec chat_init_fails first_round initial in
  In (Raised chat_manager_initialize 4) (trace s) /\
  st_of s TInitComponents = Finished (Raises 4) /\
  ~ In (Begin register_message_handler) (trace s) /\
  ~ In (Begin handle_mai_events_ON_START) (trace s).
Proof.
  intros s.
  assert (Hr : In (Raised chat_manager_initialize 4) (trace s))
    by (vm_compute; tauto).
  assert (Hc : In chat_manager_initialize phase1) by (cbn; tauto).
  split; [exact Hr|].
  exact (proj2 (proj2 (phase1_barrier chat_init_fails first_round))
           chat_manager_initialize 4 Hc Hr).
Defined.

Lemma bootstrap_error_is_fatal_witness :
  let s := exec chat_init_fails first_round initial in
  In chat_manager_initialize bootstrap_steps /\
  In (Raised chat_manager_initialize 4) (trace s) /\
  st_of s TInitComponents = Finished (Raises 4) /\
  ~ In (Logged LogAllReady) (trace s).
Proof.
  intros s.
  assert (Hc : In chat_manager_initialize bootstrap_steps) by (cbn; tauto).
  assert (Hr : In (Raised chat_manager_initialize 4) (trace s))
    by (vm_compute; tauto).
  split; [exact Hc|]. split; [exact Hr|].
  destruct (@bootstrap_error_is_fatal chat_init_fails first_round
              chat_manager_initialize 4 Hc Hr)
    as (H1 & _ & _ & _ & _ & H2 & _).
  now split.
Defined.


Lemma restart_needs_all_returns_witness :
  let s := exec emoji_returns_alone first_round initial in
  In TEmojiCheck services /\ In TAppRun services /\
  starts TEmojiCheck s <= S (returns_of TAppRun s).
Proof.
  intros s.
  assert (H1 : In TEmojiCheck services) by (cbn; tauto).
  assert (H2 : In TAppRun services) by (cbn; tauto).
  split; [exact H1|]. split; [exact H2|].
  exact (@restart_needs_all_returns emoji_returns_alone first_round
           TEmojiCheck TAppRun H1 H2).
Defined.

Lemma handlers_after_mood_and_chat_witness :
  In register_message_handler handlers /\
  In mood_manager_start [mood_manager_start; chat_manager_initialize] /\
  before (End mood_manager_start) (Begin register_message_handler)
    (trace (exec all_prompt first_round initial)).
Proof.
  assert (H1 : In register_message_handler handlers) by (cbn; tauto).
  assert (H2 : In mood_manager_start
                 [mood_manager_start; chat_manager_initialize])
    by (cbn; tauto).
  split; [exact H1|]. split; [exact H2|].
  exact (@handlers_after_mood_and_chat all_prompt first_round
           register_message_handler mood_manager_start H1 H2).
Defined.

Lemma clock_is_informational_witness :
  same_but_clock all_prompt fast_clock /\
  sim (run_fifo all_prompt 10 initial) (run_fifo fast_clock 10 initial).
Proof.
  assert (H : same_but_clock all_prompt fast_clock) by now split.
  split; [exact H|].
  exact (proj2 (clock_is_informational H) 10).
Defined.

(** The two clocks do change what line 119 writes. *)
Example elapsed_differs :
  In (Elapsed 1000) (trace (run_fifo all_prompt 10 initial)) /\
  In (Elapsed 2500) (trace (run_fifo fast_clock 10 initial)).
Proof. split; vm_compute; tauto. Qed.
(** * Further properties of main.py *)

(** ** Schedules *)

Lemma exec_app (E : env) (a b : list tid) :
  forall s, exec E (a ++ b) s = exec E b (exec E a s).
Proof.
  induction a as [|t a IH]; intros s; cbn; [reflexivity|].
  destruct (step_task E t s); apply IH.
Qed.

Lemma halted_stuck (E : env) (t : tid) (s : state) :
  halted s = true -> step_task E t s = None.
Proof. intros H. unfold step_task. now rewrite H. Qed.

Lemma exec_halted (E : env) (sched : list tid) (s : state) :
  halted s = true -> exec E sched s = s.
Proof.
  intros H. induction sched as [|t sched IH]; cbn; [reflexivity|].
  now rewrite (halted_stuck E t s H).
Qed.

(** Every event of a run was written by one step of it. *)
Lemma written_by_step (E : env) (ev : event) (sched : list tid) :
  In ev (trace (exec E sched initial)) ->
  exists sched0 t sched1 s1 evs,
    sched = sched0 ++ t :: sched1 /\
    step_task E t (exec E sched0 initial) = Some s1 /\
    trace s1 = trace (exec E sched0 initial) ++ evs /\
    In ev evs.
Proof.
  induction sched as [|t sched IH] using rev_ind; [contradiction|].
  rewrite exec_app. cbn.
  destruct (step_task E t (exec E sched initial)) as [s1|] eqn:Hstep.
  - intros Hin. destruct (@step_grows E _ _ _ Hstep) as (evs & Hevs).
    rewrite Hevs, in_app_iff in Hin. destruct Hin as [Hin|Hin].
    + destruct (IH Hin) as (s0 & u & r & s2 & evs' & -> & H1 & H2 & H3).
      exists s0, u, (r ++ [t]), s2, evs'.
      rewrite <- app_assoc. cbn. auto.
    + exists sched, t, [], s1, evs. auto.
  - intros Hin.
    destruct (IH Hin) as (s0 & u & r & s2 & evs' & -> & H1 & H2 & H3).
    exists s0, u, (r ++ [t]), s2, evs'.
    rewrite <- app_assoc. cbn. auto.
Qed.

(** What a piece of code writes is written by one of its instructions. *)
Lemma exec_code_writes (E : env) (t : tid) (k : list instr) :
  forall s evs,
    trace (exec_code E t k s) = trace s ++ evs ->
    forall ev, In ev evs -> code_writes k ev = true.
Proof.
  unfold code_writes.
  induction k as [|i k IH]; intros s evs Htr ev Hin; cbn [exec_code] in Htr.
  - rewrite finish_trace in Htr.
    rewrite <- (app_nil_r (trace s)) in Htr at 1.
    apply app_inv_head in Htr. subst evs. contradiction.
  - cbn [existsb]. apply orb_true_iff.
    assert (Hgen : forall s1 pre,
               trace s1 = trace s ++ pre ->
               trace (exec_code E t k s1) = trace s ++ evs ->
               (forall e, In e pre -> instr_writes i e = true) ->
               instr_writes i ev = true \/
               existsb (fun i0 => instr_writes i0 ev) k = true).
    { intros s1 pre H1 H2 Hpre.
      destruct (exec_code_grows E t k s1) as (evs1 & H3).
      rewrite H3, H1, <- app_assoc in H2. apply app_inv_head in H2.
      subst evs. apply in_app_iff in Hin. destruct Hin as [Hin|Hin].
      - left. now apply Hpre.
      - right. eapply IH; eassumption. }
    assert (Hstop : forall s1 pre,
               trace s1 = trace s ++ pre ->
               trace s1 = trace s ++ evs ->
               (forall e, In e pre -> instr_writes i e = true) ->
               instr_writes i ev = true \/
               existsb (fun i0 => instr_writes i0 ev) k = true).
    { intros s1 pre H1 H2 Hpre. rewrite H1 in H2.
      apply app_inv_head in H2. subst evs. left. now apply Hpre. }
    assert (Hc : forall c, callee_eqb c c = true).
    { intros c. unfold callee_eqb. now destruct (callee_eq_dec c c). }
    destruct i as [c|c|c|ts|m| |].
    + destruct (outcome_of E c _).
      * refine (Hgen _ [Begin c; End c] _ Htr _);
          [cbn; now rewrite <- app_assoc|].
        intros e [<-|[<-|[]]]; cbn; apply Hc.
      * rewrite finish_trace in Htr.
        refine (Hstop _ [Begin c; Raised c e] _ Htr _);
          [cbn; now rewrite <- app_assoc|].
        intros e0 [<-|[<-|[]]]; cbn; apply Hc.
    + destruct (suspensions E c _) as [[|n]|].
      * destruct (outcome_of E c _).
        -- refine (Hgen _ [Begin c; End c] _ Htr _);
             [cbn; now rewrite <- app_assoc|].
           intros e [<-|[<-|[]]]; cbn; apply Hc.
        -- rewrite finish_trace in Htr.
           refine (Hstop _ [Begin c; Raised c e] _ Htr _);
             [cbn; now rewrite <- app_assoc|].
           intros e0 [<-|[<-|[]]]; cbn; apply Hc.
      * refine (Hstop _ [Begin c] _ Htr _); [reflexivity|].
        intros e [<-|[]]; cbn; apply Hc.
      * refine (Hstop _ [Begin c] _ Htr _); [reflexivity|].
        intros e [<-|[]]; cbn; apply Hc.
    + refine (Hgen _ [Spawned c] _ Htr _); [reflexivity|].
      intros e [<-|[]]; cbn; apply Hc.
    + rewrite spawn_all_trace in Htr. cbn in Htr.
      apply app_inv_head in Htr. subst evs. left.
      apply in_map_iff in Hin. destruct Hin as (u & <- & Hu). cbn.
      apply existsb_exists. exists u. split; [assumption|].
      unfold tid_eqb. now destruct (tid_eq_dec u u).
    + refine (Hgen _ [Logged m] _ Htr _); [reflexivity|].
      intros e [<-|[]]; cbn. now destruct (msg_eq_dec m m).
    + refine (Hgen _ [] _ Htr _); [cbn; now rewrite app_nil_r|].
      intros e [].
    + refine (Hgen _ [Elapsed (init_time (clock E (clock_reads s))
                                 (init_start_time s))] _ Htr _);
        [reflexivity|].
      intros e [<-|[]]; reflexivity.
Qed.

Lemma code_writes_incl (k k' : list instr) (ev : event) :
  incl k k' -> code_writes k ev = true -> code_writes k' ev = true.
Proof.
  unfold code_writes. intros Hi H. apply existsb_exists in H.
  destruct H as (i & Hin & Hw). apply existsb_exists. exists i. auto.
Qed.

(** The code a task has left is part of its program. *)
Lemma code_of_task (s : state) (t : tid) :
  Inv s ->
  match st_of s t with
  | Absent | Finished _ => True
  | Runnable => incl (todo (tasks s t)) (program t)
  | InAwait c _ _ =>
      In (Await c) (program t) /\ incl (todo (tasks s t)) (program t)
  | InGather _ _ => incl (continuation t (todo (tasks s t))) (program t)
  end.
Proof.
  intros HInv.
  destruct t;
    [ pose proof (inv_main HInv) as H; unfold main_inv in H
    | pose proof (inv_init HInv) as H; unfold init_inv in H
    | pose proof (inv_comp HInv) as H; unfold comp_inv in H
    | pose proof (inv_sched HInv) as H; unfold sched_inv in H
    | pose proof (inv_emoji HInv) as H; unfold svc_inv in H
    | pose proof (inv_app HInv) as H; unfold svc_inv in H
    | pose proof (inv_server HInv) as H; unfold svc_inv in H ].
  all: match goal with
       | |- context [st_of ?s0 ?u] =>
           destruct (st_of s0 u) as [| |c l o|ts r|o]; try exact I;
           try contradiction
       end.
  all: cbn [program svc_callee] in *.
  all: try (destruct H as (done & -> & _)).
  all: try (destruct H as (-> & -> & _)).
  all: try (destruct H as (-> & _)).
  all: try (destruct H as (_ & -> & _)).
  all: cbn; try apply incl_refl; try (split; [|intros ? []]);
    try (intros ? []); try (now left).
  all: try (subst; cbn; tauto).
  all: try (intros i Hi; apply in_or_app; now right).
  split; [apply in_or_app; right; now left|].
  intros i Hi. apply in_or_app. right. now right.
Qed.

(** A step of task [t] writes only events of the code of [t]. *)
Lemma step_writes (E : env) (t : tid) (s s' : state) (evs : list event) :
  Inv s -> step_task E t s = Some s' -> trace s' = trace s ++ evs ->
  forall ev, In ev evs -> writes t ev = true.
Proof.
  intros HInv Hstep Htr ev Hin. pose proof (code_of_task t HInv) as Hk.
  unfold step_task in Hstep. destruct (halted s); [discriminate|].
  unfold writes.
  destruct (st_of s t) as [| |c [[|n]|] [|x]|ts [[|x]|]|o];
    try discriminate; injection Hstep as <-.
  - eapply code_writes_incl; [exact Hk|].
    eapply (@exec_code_writes E t _ (dequeue t s)); eassumption.
  - destruct Hk as [Hc Hk].
    destruct (exec_code_grows E t (todo (tasks s t))
                (emit (End c) (dequeue t s))) as (evs1 & H1).
    rewrite H1 in Htr. cbn in Htr. rewrite <- app_assoc in Htr.
    apply app_inv_head in Htr. subst evs. destruct Hin as [<-|Hin].
    + apply existsb_exists. exists (Await c). split; [assumption|].
      cbn. unfold callee_eqb. now destruct (callee_eq_dec c c).
    + eapply code_writes_incl; [exact Hk|].
      eapply (@exec_code_writes E t _ (emit (End c) (dequeue t s)));
        eassumption.
  - destruct Hk as [Hc Hk]. rewrite finish_trace in Htr. cbn in Htr.
    apply app_inv_head in Htr. subst evs. destruct Hin as [<-|[]].
    apply existsb_exists. exists (Await c). split; [assumption|].
    cbn. unfold callee_eqb. now destruct (callee_eq_dec c c).
  - cbn in Htr. rewrite <- (app_nil_r (trace s)) in Htr at 1.
    apply app_inv_head in Htr. now subst evs.
  - cbn in Htr. rewrite <- (app_nil_r (trace s)) in Htr at 1.
    apply app_inv_head in Htr. now subst evs.
  - eapply code_writes_incl; [exact Hk|].
    eapply (@exec_code_writes E t _ (dequeue t s)); eassumption.
  - rewrite finish_trace in Htr. cbn in Htr.
    rewrite <- (app_nil_r (trace s)) in Htr at 1.
    apply app_inv_head in Htr. now subst evs.
Qed.

(** ** How a step changes the status of the tasks *)

Lemma writes_unique (t t' : tid) (ev : event) :
  writes t ev = true -> writes t' ev = true -> t = t'.
Proof.
  destruct ev as [c|c|c e|u|c|m|ms];
    try destruct c; try destruct u; try destruct m;
    destruct t; try discriminate; destruct t'; try discriminate; reflexivity.
Qed.

Lemma finish_status (t : tid) (o : outcome) (s : state) (u : tid) :
  tasks (finish t o s) u = tasks s u \/
  (u = t /\ st_of (finish t o s) u = Finished o) \/
  (exists ts r, st_of s u = InGather ts None /\
                tasks (finish t o s) u =
                  {| st := InGather ts (Some r); todo := todo (tasks s u) |}).
Proof.
  assert (Hown : forall s0 : state,
             tasks (set_task t {| st := Finished o; todo := [] |} s0) u =
               tasks s0 u \/
             (u = t /\
              st_of (set_task t {| st := Finished o; todo := [] |} s0) u =
                Finished o)).
  { intros s0. unfold st_of. cbn.
    destruct (tid_eq_dec u t) as [->|]; [right|left]; auto. }
  unfold finish.
  destruct (parent t) as [p|] eqn:Hp; [|destruct (Hown s); tauto].
  assert (Hpt : p <> t) by (destruct t; inversion Hp; discriminate).
  destruct (st_of (set_task t _ s) p) as [| |? ? ?|ts [r|]|?] eqn:Hsp;
    try (destruct (Hown s); tauto).
  assert (Hsp' : st_of s p = InGather ts None).
  { unfold st_of in *. cbn in Hsp. now destruct (tid_eq_dec p t). }
  assert (Hpar : forall r,
             let s1 := enqueue p
                         (set_task p
                            {| st := InGather ts (Some r);
                               todo := todo (tasks
                                 (set_task t {| st := Finished o; todo := [] |} s)
                                 p) |}
                            (set_task t {| st := Finished o; todo := [] |} s)) in
             tasks s1 u = tasks s u \/
             (u = t /\ st_of s1 u = Finished o) \/
             (exists ts0 r0, st_of s u = InGather ts0 None /\
                tasks s1 u = {| st := InGather ts0 (Some r0);
                               todo := todo (tasks s u) |})).
  { intros r. unfold st_of in *. cbn.
    destruct (tid_eq_dec p t) as [Heq|_]; [now elim Hpt|].
    destruct (tid_eq_dec u p) as [->|Hup]; cbn.
    - right. right. eauto.
    - destruct (tid_eq_dec u t) as [->|]; [right; left|left]; auto. }
  destruct o as [|e]; [destruct (forallb _ ts)|];
    first [apply Hpar | destruct (Hown s); tauto].
Qed.

Lemma spawn_all_status (ts : list tid) (u : tid) :
  forall s,
    tasks (spawn_all ts s) u = tasks s u \/
    (tasks (spawn_all ts s) u = {| st := Runnable; todo := program u |} /\
     In (Created u) (trace (spawn_all ts s)) /\ In u ts).
Proof.
  induction ts as [|t ts IH]; intros s; cbn [spawn_all]; [now left|].
  destruct (IH (enqueue t (emit (Created t)
                  (set_task t {| st := Runnable; todo := program t |} s))))
    as [H|(H1 & H2 & H3)]; [|right; cbn; auto].
  rewrite H. cbn. destruct (tid_eq_dec u t) as [->|]; [|now left].
  right. split; [reflexivity|]. split; [|now left].
  rewrite spawn_all_trace. cbn.
  apply in_or_app. left. apply in_or_app. right. now left.
Qed.

Lemma moved_more (k k' : list instr) (t u : tid) (s s' : state) :
  incl k k' -> moved k t u s s' -> moved k' t u s s'.
Proof.
  unfold moved. intros Hi [H|[H|[H|(H1 & H2 & ts & H3 & H4)]]]; auto.
  right. right. right. split; [assumption|]. split; [assumption|].
  exists ts. auto.
Qed.

Lemma moved_same (k : list instr) (t u : tid) (s0 s s' : state) :
  tasks s0 u = tasks s u -> moved k t u s0 s' -> moved k t u s s'.
Proof. unfold moved, st_of. now intros ->. Qed.

Lemma finish_moved (k : list instr) (t u : tid) (o : outcome) (s : state) :
  moved k t u s (finish t o s).
Proof.
  unfold moved.
  destruct (finish_status t o s u) as [H|[[-> H]|(ts & r & H1 & H2)]].
  - now left.
  - right. left. rewrite H. repeat split; discriminate.
  - right. right. left. eauto.
Qed.

Lemma exec_code_moved (E : env) (t u : tid) (k : list instr) :
  forall s, moved k t u s (exec_code E t k s).
Proof.
  induction k as [|i k IH]; intros s; cbn [exec_code].
  - apply finish_moved.
  - assert (Hstep : forall s1, tasks s1 u = tasks s u ->
                               moved (i :: k) t u s (exec_code E t k s1)).
    { intros s1 H1. apply (@moved_same _ _ _ s1); [assumption|].
      apply (@moved_more k); [apply incl_tl, incl_refl|apply IH]. }
    assert (Hfin : forall o s1, tasks s1 u = tasks s u ->
                                moved (i :: k) t u s (finish t o s1)).
    { intros o s1 H1. apply (@moved_same _ _ _ s1); [assumption|].
      apply finish_moved. }
    assert (Hset : forall k0 s0, tasks s0 u = tasks s u ->
                                 st k0 <> Absent -> st k0 <> Runnable ->
                                 moved (i :: k) t u s (set_task t k0 s0)).
    { intros k0 s0 H0 HA HR. unfold moved, st_of in *. cbn.
      destruct (tid_eq_dec u t) as [->|]; [right; left|left]; auto. }
    destruct i as [c|c|c|ts|m| |].
    + destruct (outcome_of E c _); [now apply Hstep|now apply Hfin].
    + destruct (suspensions E c _) as [[|n]|].
      * destruct (outcome_of E c _); [now apply Hstep|now apply Hfin].
      * apply (Hset _ (emit (Begin c) s)); [reflexivity| |]; discriminate.
      * apply (Hset _ (emit (Begin c) s)); [reflexivity| |]; discriminate.
    + now apply Hstep.
    + destruct (spawn_all_status ts u
                  (set_task t {| st := InGather ts None; todo := k |} s))
        as [H|(H1 & H2 & H3)].
      * unfold moved, st_of. rewrite !H. cbn.
        destruct (tid_eq_dec u t) as [->|]; cbn;
          [right; left; repeat split; discriminate|left; reflexivity].
      * right. right. right. split; [assumption|]. split; [assumption|].
        exists ts. split; [now left|assumption].
    + now apply Hstep.
    + now apply Hstep.
    + now apply Hstep.
Qed.

Lemma in_continuation (t : tid) (k : list instr) :
  incl k (continuation t k).
Proof. destruct k; [intros ? []|apply incl_refl]. Qed.

Lemma step_moved (E : env) (t u : tid) (s s' : state) :
  step_task E t s = Some s' ->
  moved (continuation t (todo (tasks s t))) t u s s'.
Proof.
  unfold step_task. destruct (halted s); [discriminate|].
  assert (Hcode : forall s0, tasks s0 u = tasks s u ->
             moved (continuation t (todo (tasks s t))) t u s
               (exec_code E t (todo (tasks s t)) s0)).
  { intros s0 H0. apply (@moved_same _ _ _ s0); [assumption|].
    apply (@moved_more (todo (tasks s t))); [apply in_continuation|].
    apply exec_code_moved. }
  assert (Hfin : forall o s0, tasks s0 u = tasks s u ->
             moved (continuation t (todo (tasks s t))) t u s (finish t o s0)).
  { intros o s0 H0. apply (@moved_same _ _ _ s0); [assumption|].
    apply finish_moved. }
  assert (Hown : forall k0 s0, tasks s0 u = tasks s u ->
                 st k0 <> Absent -> st k0 <> Runnable ->
                 moved (continuation t (todo (tasks s t))) t u s
                   (enqueue t (set_task t k0 s0))).
  { intros k0 s0 H0 HA HR. unfold moved, st_of in *. cbn.
    destruct (tid_eq_dec u t) as [->|]; [right; left|left]; auto. }
  destruct (st_of s t) as [| |c [[|n]|] [|x]|ts [[|x]|]|o];
    try discriminate; intros H; injection H as <-.
  - now apply Hcode.
  - now apply Hcode.
  - now apply Hfin.
  - apply Hown; [reflexivity| |]; discriminate.
  - apply Hown; [reflexivity| |]; discriminate.
  - apply (@moved_same _ _ _ (dequeue t s)); [reflexivity|].
    apply exec_code_moved.
  - now apply Hfin.
Qed.

(** ** The first step *)

Lemma exec_grows (E : env) (sched : list tid) :
  forall s, exists evs, trace (exec E sched s) = trace s ++ evs.
Proof.
  induction sched as [|t sched IH]; intros s; cbn.
  - exists []. now rewrite app_nil_r.
  - destruct (step_task E t s) as [s1|] eqn:Hstep; [|apply IH].
    destruct (@step_grows E _ _ _ Hstep) as (evs & H1).
    destruct (IH s1) as (evs' & ->). rewrite H1, <- app_assoc. eauto.
Qed.

Lemma main_first (E : env) (sched : list tid) :
  (exec E sched initial = initial /\ ~ In TMain sched) \/
  exists sched', exec E sched initial = exec E sched' (main_step E).
Proof.
  induction sched as [|t sched IH]; cbn; [left; tauto|].
  destruct t; try (destruct IH as [[H1 H2]|H]; [left|right; exact H];
                   split; [exact H1|]; intros [?|?];
                   [discriminate|contradiction]).
  right. exists sched. reflexivity.
Qed.

Lemma main_step_api_raises (E : env) (x : exn) :
  outcome_of E get_global_api 0 = Raises x ->
  main_step E =
    finish TMain (Raises x)
      (emit (Raised get_global_api x)
         (emit (Begin get_global_api) (dequeue TMain initial))).
Proof.
  intros H. unfold main_step, main. cbn [exec_code].
  change (invocations get_global_api (trace (dequeue TMain initial))) with 0.
  now rewrite H.
Qed.

Lemma main_step_server_raises (E : env) (x : exn) :
  outcome_of E get_global_api 0 = Returns ->
  outcome_of E get_global_server 0 = Raises x ->
  main_step E =
    finish TMain (Raises x)
      (emit (Raised get_global_server x)
         (emit (Begin get_global_server)
            (emit (End get_global_api)
               (emit (Begin get_global_api) (dequeue TMain initial))))).
Proof.
  intros H1 H2. unfold main_step, main. cbn [exec_code].
  change (invocations get_global_api (trace (dequeue TMain initial))) with 0.
  rewrite H1.
  change (invocations get_global_server _) with 0.
  now rewrite H2.
Qed.

Lemma main_step_returns (E : env) :
  outcome_of E get_global_api 0 = Returns ->
  outcome_of E get_global_server 0 = Returns ->
  main_step E =
    spawn_all [TInitialize; TScheduleTasks]
      (set_task TMain {| st := InGather [TInitialize; TScheduleTasks] None;
                         todo := [] |}
         (emit (End get_global_server)
            (emit (Begin get_global_server)
               (emit (End get_global_api)
                  (emit (Begin get_global_api) (dequeue TMain initial)))))).
Proof.
  intros H1 H2. unfold main_step, main. cbn [exec_code].
  change (invocations get_global_api (trace (dequeue TMain initial))) with 0.
  rewrite H1.
  change (invocations get_global_server _) with 0.
  now rewrite H2.
Qed.

(** X1.  A failing constructor.  When [get_global_api()] raises (line 36),
    or returns and [get_global_server()] raises (line 37), [main] ends with
    that exception in its first step: the trace holds the calls of the
    constructor and nothing else ([get_global_server] is not called after a
    failure of [get_global_api]), and no coroutine was made a task. *)
Theorem constructor_failure_ends_main (E : env) (sched : list tid) (x : exn) :
  let s := exec E sched initial in
  In TMain sched ->
  (outcome_of E get_global_api 0 = Raises x ->
   trace s = [Begin get_global_api; Raised get_global_api x] /\
   st_of s TMain = Finished (Raises x) /\
   (forall t, t <> TMain -> st_of s t = Absent)) /\
  (outcome_of E get_global_api 0 = Returns ->
   outcome_of E get_global_server 0 = Raises x ->
   trace s = [ Begin get_global_api; End get_global_api;
               Begin get_global_server; Raised get_global_server x ] /\
   st_of s TMain = Finished (Raises x) /\
   (forall t, t <> TMain -> st_of s t = Absent)).
Proof.
  intros s Hin. subst s.
  destruct (main_first E sched) as [[_ Hn]|(sched' & ->)]; [contradiction|].
  split.
  - intros H. rewrite (main_step_api_raises E H).
    rewrite exec_halted by reflexivity.
    split; [reflexivity|]. split; [reflexivity|].
    intros t Ht. destruct t; try reflexivity. now elim Ht.
  - intros H1 H2. rewrite (main_step_server_raises E H1 H2).
    rewrite exec_halted by reflexivity.
    split; [reflexivity|]. split; [reflexivity|].
    intros t Ht. destruct t; try reflexivity. now elim Ht.
Qed.

(** ** Order of events written by different tasks *)

Lemma before_prefix (a b : event) (l1 l2 : list event) :
  before a b l1 -> In a l1 -> before a b (l1 ++ l2).
Proof.
  intros Hb Ha m1 m2 Heq.
  apply app_eq_app in Heq. destruct Heq as (l & [[H1 H2]|[H1 H2]]).
  - destruct l as [|e l].
    + rewrite app_nil_r in H1. now subst m1.
    + cbn in H2. injection H2 as <- _. apply (Hb m1 l H1).
  - subst m1. apply in_or_app. now left.
Qed.

Lemma before_trans (a b c : event) (tr : list event) :
  before a b tr -> before b c tr -> before a c tr.
Proof.
  intros Hab Hbc l1 l2 Heq. pose proof (Hbc l1 l2 Heq) as Hb.
  apply in_split in Hb. destruct Hb as (m1 & m2 & ->).
  apply in_or_app. left. apply (Hab m1 (m2 ++ c :: l2)).
  rewrite Heq, <- app_assoc. reflexivity.
Qed.

Lemma before_in (a b : event) (tr : list event) :
  before a b tr -> In b tr -> In a tr.
Proof.
  intros Hab Hb. apply in_split in Hb. destruct Hb as (l1 & l2 & ->).
  apply in_or_app. left. now apply (Hab l1 l2).
Qed.

(** [a] precedes [b] in every run when it does so at every step that
    writes [b]. *)
Lemma before_steps (E : env) (a b : event) :
  (forall sched0 t s1 evs l1 l2,
      step_task E t (exec E sched0 initial) = Some s1 ->
      trace s1 = trace (exec E sched0 initial) ++ evs ->
      evs = l1 ++ b :: l2 ->
      In a (trace (exec E sched0 initial)) \/ In a l1) ->
  forall sched, before a b (trace (exec E sched initial)).
Proof.
  intros Hstep sched.
  induction sched as [|t sched IH] using rev_ind;
    [intros [|? ?] ? H; discriminate H|].
  rewrite exec_app. cbn.
  destruct (step_task E t (exec E sched initial)) as [s1|] eqn:Hs;
    [|exact IH].
  destruct (@step_grows E _ _ _ Hs) as (evs & Hevs).
  rewrite Hevs. intros m1 m2 Heq.
  apply app_eq_app in Heq. destruct Heq as (l & [[H1 H2]|[H1 H2]]).
  - destruct l as [|e l].
    + rewrite app_nil_r in H1. cbn in H2.
      destruct (Hstep sched t s1 evs [] m2 Hs Hevs (eq_sym H2)) as [H|[]].
      now rewrite <- H1.
    + cbn in H2. injection H2 as <- _. apply (IH m1 l H1).
  - destruct (Hstep sched t s1 evs l m2 Hs Hevs H2) as [H|H];
      rewrite H1; apply in_or_app; auto.
Qed.

(** ** The constructor comes first *)

Lemma main_events_before (a ev : event) :
  In a main_events -> constructor_event a = true ->
  constructor_event ev = false ->
  before a ev main_events.
Proof.
  intros Ha Hc Hev. apply beforeb_before.
  destruct ev as [c|c|c e|u|c|m|ms];
    try destruct c; try destruct u; try discriminate Hev;
    cbn in Ha; decompose [or] Ha; try contradiction; subst a;
    try discriminate Hc; reflexivity.
Qed.

Lemma main_step_trace (E : env) :
  (exists x, trace (main_step E) = [Begin get_global_api;
                                    Raised get_global_api x] /\
             halted (main_step E) = true) \/
  (exists x, trace (main_step E) =
               [Begin get_global_api; End get_global_api;
                Begin get_global_server; Raised get_global_server x] /\
             halted (main_step E) = true) \/
  (trace (main_step E) = main_events /\
   outcome_of E get_global_api 0 = Returns /\
   outcome_of E get_global_server 0 = Returns).
Proof.
  destruct (outcome_of E get_global_api 0) as [|x] eqn:H1.
  - destruct (outcome_of E get_global_server 0) as [|x] eqn:H2.
    + right. right. rewrite (main_step_returns E H1 H2). auto.
    + right. left. exists x. rewrite (main_step_server_raises E H1 H2). auto.
  - left. exists x. rewrite (main_step_api_raises E H1). auto.
Qed.

(** X2.  The constructor comes first.  In every run, whatever is written
    apart from the constructor's own calls (task creations, log lines,
    bootstrap steps, the services' run loops) comes after both
    [get_global_api()] and [get_global_server()] have returned: [self.app]
    and [self.server] exist before anything uses them. *)
Theorem constructor_runs_first (E : env) (sched : list tid) (ev : event) :
  constructor_event ev = false ->
  before (End get_global_api) ev (trace (exec E sched initial)) /\
  before (End get_global_server) ev (trace (exec E sched initial)).
Proof.
  intros Hev.
  assert (Hgen : forall a, In a main_events -> constructor_event a = true ->
                           before a ev (trace (exec E sched initial))).
  { intros a Ha Hc.
    destruct (main_first E sched) as [[-> _]|(sched' & ->)];
      [intros [|? ?] ? H; discriminate H|].
    destruct (main_step_trace E) as [(x & Htr & Hh)|[(x & Htr & Hh)|(Htr & _)]].
    - rewrite exec_halted by assumption. rewrite Htr.
      apply before_absent. intros [<-|[<-|[]]]; discriminate Hev.
    - rewrite exec_halted by assumption. rewrite Htr.
      apply before_absent. intros [<-|[<-|[<-|[<-|[]]]]]; discriminate Hev.
    - destruct (exec_grows E sched' (main_step E)) as (evs & ->).
      rewrite Htr. apply before_prefix; [|assumption].
      now apply main_events_before. }
  split; apply Hgen; cbn; tauto.
Qed.

(** ** A task runs only after [gather] has created it *)

Lemma step_present (E : env) (t : tid) (s s' : state) :
  step_task E t s = Some s' -> st_of s t <> Absent.
Proof.
  unfold step_task. destruct (halted s); [discriminate|].
  destruct (st_of s t); discriminate.
Qed.

Lemma reach_created (E : env) (u : tid) (sched : list tid) :
  u <> TMain -> st_of (exec E sched initial) u <> Absent ->
  In (Created u) (trace (exec E sched initial)).
Proof.
  intros Hu. induction sched as [|t sched IH] using rev_ind.
  - intros H. destruct u; first [now elim Hu | now elim H].
  - rewrite exec_app. cbn.
    destruct (step_task E t (exec E sched initial)) as [s1|] eqn:Hs;
      [|exact IH].
    destruct (@step_grows E _ _ _ Hs) as (evs & Hevs).
    assert (Hold : st_of (exec E sched initial) u <> Absent ->
                   In (Created u) (trace s1)).
    { intros H. rewrite Hevs. apply in_or_app. left. now apply IH. }
    intros Hs1.
    destruct (@step_moved E t u _ _ Hs)
      as [H|[(-> & _)|[(ts & r & H & _)|(_ & H & _)]]].
    + apply Hold. unfold st_of in *. now rewrite <- H.
    + apply Hold. exact (@step_present E _ _ _ Hs).
    + apply Hold. rewrite H. discriminate.
    + exact H.
Qed.

(** What one step of [initialize] writes. *)
Lemma init_step_events (E : env) (s s1 : state) (evs : list event) :
  Inv s -> step_task E TInitialize s = Some s1 ->
  trace s1 = trace s ++ evs ->
  evs = [] \/ evs = [Logged LogWaking; Created TInitComponents] \/
  evs = [Logged LogAllReady].
Proof.
  intros HInv Hstep Htr. pose proof (inv_init HInv) as Hi.
  unfold init_inv in Hi. unfold step_task in Hstep.
  destruct (halted s); [discriminate|].
  destruct (st_of s TInitialize) as [| |c l o|ts [[|x]|]|o];
    try discriminate; try contradiction.
  - destruct Hi as (Hk & _). rewrite Hk in Hstep. injection Hstep as <-.
    right. left. cbn in Htr. rewrite <- app_assoc in Htr.
    now apply app_inv_head in Htr.
  - destruct Hi as (_ & Hk & _). rewrite Hk in Hstep. injection Hstep as <-.
    right. right. cbn [continuation exec_code] in Htr.
    rewrite finish_trace in Htr. cbn in Htr.
    now apply app_inv_head in Htr.
  - injection Hstep as <-. left. rewrite finish_trace in Htr. cbn in Htr.
    rewrite <- (app_nil_r (trace s)) in Htr at 1.
    now apply app_inv_head in Htr.
Qed.

Lemma writes_comp (t : tid) (ev : event) :
  writes t ev = true -> comp_event ev = true -> t = TInitComponents.
Proof.
  destruct ev as [c|c|c e|u|c|m|ms];
    try destruct c; try destruct u; try destruct m;
    destruct t; try discriminate; reflexivity.
Qed.

Lemma waking_before_created (E : env) (sched : list tid) :
  before (Logged LogWaking) (Created TInitComponents)
    (trace (exec E sched initial)).
Proof.
  apply before_steps. intros sched0 t s1 evs l1 l2 Hs Htr Hevs.
  pose proof (reachable_inv E sched0) as HInv.
  assert (Ht : t = TInitialize).
  { apply (@writes_unique _ _ (Created TInitComponents));
      [|reflexivity].
    apply (@step_writes E _ _ _ _ HInv Hs Htr). rewrite Hevs.
    apply in_or_app. right. now left. }
  subst t. right.
  destruct (@init_step_events E _ _ _ HInv Hs Htr) as [H|[H|H]]; rewrite H in Hevs.
  - destruct l1; discriminate Hevs.
  - destruct l1 as [|e1 [|e2 [|e3 l1]]]; try discriminate Hevs.
    injection Hevs as -> _. now left.
  - destruct l1 as [|e1 [|e2 l1]]; discriminate Hevs.
Qed.

Lemma view_in_end (c : callee) (tr : list event) :
  In (End c) (view tr) -> In (End c) tr.
Proof.
  unfold view. intros H. apply in_map_iff in H.
  destruct H as (e & He & Hin). apply filter_In in Hin.
  destruct e; cbn in He; try discriminate He. injection He as ->.
  now destruct Hin.
Qed.

(** When the success banner is in the log, bootstrap is complete. *)
Lemma banner_state (s : state) :
  Inv s -> In (Logged LogAllReady) (trace s) ->
  st_of s TInitialize = Finished Returns /\
  st_of s TInitComponents = Finished Returns /\
  view (trace s) = canon.
Proof.
  intros HInv Hin. pose proof (inv_init HInv) as Hi.
  pose proof (inv_comp HInv) as Hc. unfold init_inv in Hi.
  destruct (st_of s TInitialize) as [| |c l o|ts r|[|x]];
    try tauto.
  unfold comp_inv in Hc. rewrite Hi in Hc. auto.
Qed.

(** X3.  The two log lines of [initialize] bracket the bootstrap.  The
    wake-up line (line 41) precedes everything [_init_components] does; the
    success banner (line 46) is written only after every bootstrap step and
    the emission of ON_START have returned, and then [_init_components] and
    [initialize] have both returned. *)
Theorem banners_bracket_bootstrap (E : env) (sched : list tid) :
  let s := exec E sched initial in
  (forall ev, comp_event ev = true ->
     before (Logged LogWaking) ev (trace s)) /\
  (forall c, In c (bootstrap_steps ++ [handle_mai_events_ON_START]) ->
     before (End c) (Logged LogAllReady) (trace s)) /\
  (In (Logged LogAllReady) (trace s) ->
   st_of s TInitialize = Finished Returns /\
   st_of s TInitComponents = Finished Returns).
Proof.
  intros s. subst s. split; [|split].
  - intros ev Hev. apply before_steps.
    intros sched0 t s1 evs l1 l2 Hs Htr Hevs.
    pose proof (reachable_inv E sched0) as HInv.
    assert (Ht : t = TInitComponents).
    { apply (@writes_comp _ ev); [|assumption].
      apply (@step_writes E _ _ _ _ HInv Hs Htr). rewrite Hevs.
      apply in_or_app. right. now left. }
    subst t. left.
    apply (@before_in _ _ _ (waking_before_created E sched0)).
    apply reach_created; [discriminate|]. exact (@step_present E _ _ _ Hs).
  - intros c Hc. apply before_steps.
    intros sched0 t s1 evs l1 l2 Hs Htr Hevs.
    pose proof (reachable_inv E sched0) as HInv.
    assert (Hin : In (Logged LogAllReady) evs).
    { rewrite Hevs. apply in_or_app. right. now left. }
    assert (Ht : t = TInitialize).
    { apply (@writes_unique _ _ (Logged LogAllReady)); [|reflexivity].
      now apply (@step_writes E _ _ _ _ HInv Hs Htr). }
    subst t. left.
    pose proof (@step_inv E _ _ _ HInv Hs) as HInv1.
    destruct (@banner_state s1 HInv1) as (_ & _ & Hv).
    { rewrite Htr. apply in_or_app. now right. }
    assert (Hc1 : In (End c) (trace s1)).
    { apply view_in_end. rewrite Hv. in_cases Hc; subst c; vm_compute; tauto. }
    rewrite Htr in Hc1. apply in_app_or in Hc1. destruct Hc1 as [H|H]; [exact H|].
    pose proof (@step_writes E _ _ _ _ HInv Hs Htr _ H) as Hw.
    in_cases Hc; subst c; discriminate Hw.
  - intros Hin. destruct (@banner_state _ (reachable_inv E sched) Hin) as (H1 & H2 & _).
    auto.
Qed.

(** ** Tasks do not disappear, and [main] is never created again *)

Lemma step_keeps_present (E : env) (t u : tid) (s s' : state) :
  step_task E t s = Some s' -> st_of s u <> Absent -> st_of s' u <> Absent.
Proof.
  intros Hs Hu.
  destruct (@step_moved E t u _ _ Hs)
    as [H|[(_ & H & _)|[(ts & r & _ & H)|(H & _)]]];
    unfold st_of in *; try rewrite H; try assumption; discriminate.
Qed.

Lemma exec_keeps_present (E : env) (u : tid) (sched : list tid) :
  forall s, st_of s u <> Absent -> st_of (exec E sched s) u <> Absent.
Proof.
  induction sched as [|t sched IH]; intros s Hu; cbn; [assumption|].
  destruct (step_task E t s) as [s1|] eqn:Hs; apply IH; [|assumption].
  exact (@step_keeps_present E t u _ _ Hs Hu).
Qed.

Lemma reach_written (E : env) (ev : event) (sched : list tid) :
  In ev (trace (exec E sched initial)) -> exists t, writes t ev = true.
Proof.
  intros Hin.
  destruct (written_by_step E ev sched Hin)
    as (sched0 & t & sched1 & s1 & evs & _ & Hs & Htr & Hev).
  exists t.
  exact (@step_writes E _ _ _ _ (reachable_inv E sched0) Hs Htr _ Hev).
Qed.

Lemma main_created_never (E : env) (sched : list tid) :
  ~ In (Created TMain) (trace (exec E sched initial)).
Proof.
  intros Hin. destruct (reach_written E _ sched Hin) as (t & Ht).
  destruct t; discriminate Ht.
Qed.

Lemma view_in_raised (c : callee) (x : exn) (tr : list event) :
  In (Raised c x) (view tr) -> In (Raised c x) tr.
Proof.
  unfold view. intros H. apply in_map_iff in H.
  destruct H as (e & He & Hin). apply filter_In in Hin.
  destruct e; cbn in He; try discriminate He. injection He as -> ->.
  now destruct Hin.
Qed.

(** When [main] has ended with an exception, a call has raised it. *)
Lemma ended_with_raised (E : env) (sched : list tid) (y : exn) :
  let s := exec E sched initial in
  st_of s TMain = Finished (Raises y) ->
  exists c, In (Raised c y) (trace s).
Proof.
  intros s HM. subst s. pose proof (reachable_inv E sched) as HInv.
  pose proof (inv_main HInv) as Hm. unfold main_inv in Hm. rewrite HM in Hm.
  destruct Hm as [[HI HS]|[HI|HS]].
  - (* the constructor raised *)
    destruct (main_first E sched) as [[H0 _]|(sched' & Hsched)].
    { rewrite H0 in HM. discriminate HM. }
    rewrite Hsched in *.
    destruct (outcome_of E get_global_api 0) as [|x] eqn:H1;
      [destruct (outcome_of E get_global_server 0) as [|x] eqn:H2|].
    + exfalso. revert HI. apply exec_keeps_present.
      rewrite (main_step_returns E H1 H2). discriminate.
    + rewrite (main_step_server_raises E H1 H2) in *.
      rewrite exec_halted in * by reflexivity.
      injection HM as <-. exists get_global_server. cbn. tauto.
    + rewrite (main_step_api_raises E H1) in *.
      rewrite exec_halted in * by reflexivity.
      injection HM as <-. exists get_global_api. cbn. tauto.
  - (* a bootstrap step raised *)
    pose proof (inv_init HInv) as Hi. unfold init_inv in Hi.
    rewrite HI in Hi. destruct Hi as [HC _].
    pose proof (inv_comp HInv) as Hc. unfold comp_inv in Hc.
    rewrite HC in Hc. destruct Hc as (done & i & rest & c & _ & _ & Hv).
    exists c. apply view_in_raised. rewrite Hv.
    apply in_or_app. right. cbn. tauto.
  - (* a service raised *)
    pose proof (inv_sched HInv) as Hs. unfold sched_inv in Hs.
    rewrite HS in Hs. destruct Hs as [H|[H|H]];
      [ pose proof (inv_emoji HInv) as Hv; exists start_periodic_check_register
      | pose proof (inv_app HInv) as Hv; exists app_run
      | pose proof (inv_server HInv) as Hv; exists server_run ];
      unfold svc_inv in Hv; rewrite H in Hv; apply Hv.
Qed.

(** X4.  [main.py] raises nothing of its own: when [main] has ended with an
    exception, one of the collaborators' calls has raised that exception
    earlier in the run. *)
Theorem main_exception_was_raised (E : env) (sched : list tid) (y : exn) :
  let s := exec E sched initial in
  st_of s TMain = Finished (Raises y) ->
  exists c, In (Raised c y) (trace s).
Proof. exact (@ended_with_raised E sched y). Qed.

(** X5.  The first exception to reach the [gather] of [main] is the one
    [main] ends with: once that [gather] holds an exception, no step of any
    task replaces it, and [main] ends with it when it is resumed. *)
Theorem first_exception_wins (E : env) (sched sched' : list tid)
        (ts : list tid) (y : exn) :
  st_of (exec E sched initial) TMain = InGather ts (Some (Raises y)) ->
  st_of (exec E (sched ++ sched') initial) TMain =
    InGather ts (Some (Raises y)) \/
  st_of (exec E (sched ++ sched') initial) TMain = Finished (Raises y).
Proof.
  intros H0. induction sched' as [|t sched' IH] using rev_ind.
  - rewrite app_nil_r. now left.
  - rewrite app_assoc, exec_app. cbn.
    destruct (step_task E t (exec E (sched ++ sched') initial)) as [s1|] eqn:Hs;
      [|exact IH].
    destruct IH as [IH|IH].
    + destruct (tid_eq_dec t TMain) as [->|Ht].
      * right. unfold step_task in Hs.
        destruct (halted _); [discriminate|]. rewrite IH in Hs.
        injection Hs as <-. reflexivity.
      * destruct (@step_moved E t TMain _ _ Hs)
          as [H|[(H & _)|[(ts' & r & H & _)|(_ & H & _)]]].
        -- left. unfold st_of in *. now rewrite H.
        -- now elim Ht.
        -- rewrite IH in H. discriminate H.
        -- exfalso.
           apply (@main_created_never E ((sched ++ sched') ++ [t])).
           rewrite exec_app. cbn. now rewrite Hs.
    + rewrite halted_stuck in Hs; [discriminate|].
      unfold halted. now rewrite IH.
Qed.

(** ** The clock is read by [_init_components] only *)

Lemma finish_clock (t : tid) (o : outcome) (s : state) :
  clock_reads (finish t o s) = clock_reads s /\
  init_start_time (finish t o s) = init_start_time s.
Proof.
  unfold finish. destruct (parent t); [|now split].
  repeat match goal with
         | |- context [match ?x with _ => _ end] => destruct x
         | |- context [if ?x then _ else _] => destruct x
         end; now split.
Qed.

Lemma spawn_all_clock (ts : list tid) :
  forall s, clock_reads (spawn_all ts s) = clock_reads s /\
            init_start_time (spawn_all ts s) = init_start_time s.
Proof.
  induction ts as [|t ts IH]; intros s; cbn; [now split|].
  destruct (IH (enqueue t (emit (Created t)
                  (set_task t {| st := Runnable; todo := program t |} s))))
    as [-> ->]. now split.
Qed.

Lemma exec_code_clock (E : env) (t : tid) (k : list instr) :
  forallb (fun i => negb (timed i)) k = true ->
  forall s, clock_reads (exec_code E t k s) = clock_reads s /\
            init_start_time (exec_code E t k s) = init_start_time s.
Proof.
  induction k as [|i k IH]; intros Hk s; cbn [exec_code].
  - apply finish_clock.
  - cbn in Hk. apply andb_true_iff in Hk. destruct Hk as [Hi Hk].
    specialize (IH Hk).
    destruct i as [c|c|c|ts|m| |]; try discriminate Hi.
    + destruct (outcome_of E c _);
        [destruct (IH (emit (End c) (emit (Begin c) s))) as [-> ->]
        |destruct (finish_clock t (Raises e)
                     (emit (Raised c e) (emit (Begin c) s))) as [-> ->]];
        now split.
    + destruct (suspensions E c _) as [[|n]|]; [|now split|now split].
      destruct (outcome_of E c _);
        [destruct (IH (emit (End c) (emit (Begin c) s))) as [-> ->]
        |destruct (finish_clock t (Raises e)
                     (emit (Raised c e) (emit (Begin c) s))) as [-> ->]];
        now split.
    + destruct (IH (emit (Spawned c) s)) as [-> ->]. now split.
    + destruct (spawn_all_clock ts
                  (set_task t {| st := InGather ts None; todo := k |} s))
        as [-> ->]. now split.
    + destruct (IH (emit (Logged m) s)) as [-> ->]. now split.
Qed.

Lemma untimed_incl (k k' : list instr) :
  incl k k' -> forallb (fun i => negb (timed i)) k' = true ->
  forallb (fun i => negb (timed i)) k = true.
Proof.
  intros Hi Hk. apply forallb_forall. intros i Hin.
  rewrite forallb_forall in Hk. apply Hk, Hi, Hin.
Qed.

Lemma program_untimed (t : tid) :
  t <> TInitComponents ->
  forallb (fun i => negb (timed i)) (program t) = true.
Proof. destruct t; intros H; try reflexivity. now elim H. Qed.

(** The code a step runs is part of the program of its task. *)
Lemma step_code (E : env) (t : tid) (s s' : state) :
  Inv s -> step_task E t s = Some s' ->
  incl (todo (tasks s t)) (program t) /\
  incl (continuation t (todo (tasks s t))) (program t).
Proof.
  intros HInv Hs. pose proof (code_of_task t HInv) as Hk.
  assert (Hc : incl (todo (tasks s t)) (program t) ->
               incl (continuation t (todo (tasks s t))) (program t)).
  { intros H. destruct (todo (tasks s t)); [|exact H].
    cbn. destruct (loops t); [apply incl_refl|intros ? []]. }
  unfold step_task in Hs. destruct (halted s); [discriminate|].
  destruct (st_of s t) as [| |c l o|ts r|o]; try discriminate.
  - auto.
  - destruct Hk as [_ Hk]. auto.
  - split; [|exact Hk].
    intros i Hi. apply Hk. now apply in_continuation.
Qed.

Lemma step_clock_frame (E : env) (t : tid) (s s' : state) :
  Inv s -> t <> TInitComponents -> step_task E t s = Some s' ->
  clock_reads s' = clock_reads s /\ init_start_time s' = init_start_time s.
Proof.
  intros HInv Ht Hs. destruct (@step_code E _ _ _ HInv Hs) as [Hk Hk'].
  pose proof (untimed_incl Hk (program_untimed Ht)) as Hu.
  pose proof (untimed_incl Hk' (program_untimed Ht)) as Hu'.
  unfold step_task in Hs. destruct (halted s); [discriminate|].
  destruct (st_of s t) as [| |c [[|n]|] [|x]|ts [[|x]|]|o];
    try discriminate; injection Hs as <-.
  - apply (exec_code_clock E t _ Hu (dequeue t s)).
  - apply (exec_code_clock E t _ Hu (emit (End c) (dequeue t s))).
  - apply (finish_clock t (Raises x) (emit (Raised c x) (dequeue t s))).
  - now split.
  - now split.
  - apply (exec_code_clock E t _ Hu' (dequeue t s)).
  - apply (finish_clock t (Raises x) (dequeue t s)).
Qed.

(** ** The two readings of the clock *)

Lemma finish_own (t : tid) (o : outcome) (s : state) :
  st_of (finish t o s) t = Finished o.
Proof.
  destruct (finish_status t o s t) as [H|[[_ H]|(ts & r & H1 & H2)]];
    [|exact H|].
  - revert H. unfold finish.
    destruct (parent t) as [p|] eqn:Hp.
    + assert (Hpt : p <> t) by (destruct t; inversion Hp; discriminate).
      destruct (st_of (set_task t _ s) p) as [| |? ? ?|ts [r|]|?];
        try (intros _; unfold st_of; cbn;
             now destruct (tid_eq_dec t t)).
      destruct o as [|e]; [destruct (forallb _ ts)|];
        intros _; unfold st_of; cbn;
        destruct (tid_eq_dec t p) as [Heq|_]; try (now elim Hpt);
        now destruct (tid_eq_dec t t).
    + intros _. unfold st_of. cbn. now destruct (tid_eq_dec t t).
  - revert H2. unfold finish.
    destruct (parent t) as [p|] eqn:Hp.
    + assert (Hpt : p <> t) by (destruct t; inversion Hp; discriminate).
      destruct (st_of (set_task t _ s) p) as [| |? ? ?|ts' [r'|]|?];
        try (intros _; unfold st_of; cbn;
             now destruct (tid_eq_dec t t)).
      destruct o as [|e]; [destruct (forallb _ ts')|];
        intros _; unfold st_of; cbn;
        destruct (tid_eq_dec t p) as [Heq|_]; try (now elim Hpt);
        now destruct (tid_eq_dec t t).
    + intros _. unfold st_of. cbn. now destruct (tid_eq_dec t t).
Qed.

Lemma clock_pre_frame (E : env) (s s' : state) :
  trace s' = trace s -> clock_reads s' = clock_reads s ->
  init_start_time s' = init_start_time s ->
  clock_pre E s -> clock_pre E s'.
Proof. unfold clock_pre. now intros -> -> ->. Qed.

Lemma clock_pre_emit (E : env) (ev : event) (s : state) :
  (forall ms, ev <> Elapsed ms) -> clock_pre E s -> clock_pre E (emit ev s).
Proof.
  unfold clock_pre. cbn. intros Hev (H1 & H2 & H3 & H4).
  repeat split; try assumption.
  - intros ms Hin. apply in_app_or in Hin. destruct Hin as [Hin|[Hin|[]]].
    + now apply H1.
    + now elim (Hev ms).
  - intros H. apply in_or_app. left. now apply H3.
Qed.

Lemma clock_pre_finish (E : env) (t : tid) (o : outcome) (s : state) :
  clock_pre E s -> clock_pre E (finish t o s).
Proof.
  apply clock_pre_frame; [apply finish_trace| |]; apply finish_clock.
Qed.

(** [_init_components] reads the clock at lines 60 and 118 and nowhere
    else. *)
Lemma exec_comp_clock (E : env) (k : list instr) :
  forall s,
    clock_pre E s -> reads_ok (clock_reads s) k = true ->
    clock_inv E (exec_code E TInitComponents k s).
Proof.
  assert (Hraise : forall x s, clock_pre E s ->
            clock_inv E (finish TInitComponents (Raises x) s)).
  { intros x s Hp. split; [now apply clock_pre_finish|].
    now rewrite finish_own. }
  assert (Hwait : forall c l o k0 s, clock_pre E s ->
            reads_ok (clock_reads s) k0 = true ->
            clock_inv E (set_task TInitComponents
                           {| st := InAwait c l o; todo := k0 |} s)).
  { intros c l o k0 s Hp Hk. split; [exact Hp|]. unfold st_of. cbn. exact Hk. }
  induction k as [|i k IH]; intros s Hp Hk; cbn [exec_code].
  - cbn in Hk. apply Nat.eqb_eq in Hk. split; [now apply clock_pre_finish|].
    rewrite finish_own. destruct (finish_clock TInitComponents Returns s) as [-> _].
    rewrite finish_trace. split; [assumption|]. now apply Hp.
  - destruct i as [c|c|c|ts|m| |]; cbn [reads_ok] in Hk.
    + destruct (outcome_of E c _).
      * apply IH; [|exact Hk].
        apply clock_pre_emit; [discriminate|].
        apply clock_pre_emit; [discriminate|assumption].
      * apply Hraise.
        apply clock_pre_emit; [discriminate|].
        apply clock_pre_emit; [discriminate|assumption].
    + destruct (suspensions E c _) as [[|n]|].
      * destruct (outcome_of E c _).
        -- apply IH; [|exact Hk].
           apply clock_pre_emit; [discriminate|].
           apply clock_pre_emit; [discriminate|assumption].
        -- apply Hraise.
           apply clock_pre_emit; [discriminate|].
           apply clock_pre_emit; [discriminate|assumption].
      * destruct (Hwait c (Some n) (outcome_of E c (invocations c (trace s)))
                    k (emit (Begin c) s)) as [H1 H2];
          [apply clock_pre_emit; [discriminate|assumption]|exact Hk|].
        split; [exact H1|exact H2].
      * apply Hwait; [|exact Hk].
        apply clock_pre_emit; [discriminate|assumption].
    + apply IH; [|exact Hk].
      apply clock_pre_emit; [discriminate|assumption].
    + discriminate Hk.
    + apply IH; [|exact Hk].
      apply clock_pre_emit; [discriminate|assumption].
    + apply andb_true_iff in Hk. destruct Hk as [Hr Hk].
      apply Nat.eqb_eq in Hr. apply IH; [|cbn; rewrite Hr; exact Hk].
      destruct Hp as (H1 & H2 & H3 & H4). unfold clock_pre. cbn.
      rewrite Hr. repeat split; auto; try lia; discriminate.
    + apply andb_true_iff in Hk. destruct Hk as [Hr Hk].
      apply Nat.eqb_eq in Hr. apply IH; [|cbn; rewrite Hr; exact Hk].
      destruct Hp as (H1 & H2 & H3 & H4). unfold clock_pre. cbn.
      rewrite Hr. rewrite (H2 ltac:(lia)).
      repeat split; auto; try lia.
      * intros ms Hin. apply in_app_or in Hin.
        destruct Hin as [Hin|[Hin|[]]]; [now apply H1|].
        now injection Hin as <-.
      * intros _. apply in_or_app. right. now left.
Qed.

Lemma spawned_comp_absent (E : env) (t : tid) (s s' : state)
      (ts : list tid) :
  Inv s -> step_task E t s = Some s' ->
  In (Gather ts) (continuation t (todo (tasks s t))) ->
  In TInitComponents ts ->
  st_of s TInitComponents = Absent.
Proof.
  intros HInv Hs Hg Hin.
  destruct (@step_code E _ _ _ HInv Hs) as [_ Hk].
  pose proof (Hk _ Hg) as Hp.
  assert (Ht : t = TInitialize).
  { destruct t; cbn in Hp; decompose [or] Hp; try discriminate;
      try contradiction;
      match goal with
      | H : Gather _ = Gather _ |- _ => injection H as <-
      end;
      cbn in Hin; decompose [or] Hin; try discriminate; try contradiction;
      reflexivity. }
  subst t. pose proof (inv_init HInv) as Hi. unfold init_inv in Hi.
  unfold step_task in Hs. destruct (halted s); [discriminate|].
  destruct (st_of s TInitialize) as [| |c l o|ts' r|o];
    try discriminate; try contradiction.
  - tauto.
  - destruct Hi as (_ & Hk' & _). rewrite Hk' in Hg. cbn in Hg.
    destruct Hg as [Hg|[]]. discriminate Hg.
Qed.

Lemma clock_step (E : env) (t : tid) (s s' : state) :
  Inv s -> clock_inv E s -> step_task E t s = Some s' -> clock_inv E s'.
Proof.
  intros HInv [Hp Hc] Hs.
  destruct (tid_eq_dec t TInitComponents) as [->|Ht].
  - pose proof (inv_comp HInv) as Hci. unfold comp_inv in Hci.
    unfold step_task in Hs. destruct (halted s); [discriminate|].
    destruct (st_of s TInitComponents) as [| |c [[|n]|] [|x]|ts r|o];
      try discriminate; try contradiction; injection Hs as <-.
    + now apply exec_comp_clock.
    + apply exec_comp_clock; [|exact Hc].
      apply clock_pre_emit; [discriminate|exact Hp].
    + split; [|now rewrite finish_own].
      apply clock_pre_finish. apply clock_pre_emit; [discriminate|exact Hp].
    + split; [exact Hp|]. unfold st_of. cbn. exact Hc.
    + split; [exact Hp|]. unfold st_of. cbn. exact Hc.
  - destruct (@step_clock_frame E _ _ _ HInv Ht Hs) as [Hr Hi].
    destruct (@step_grows E _ _ _ Hs) as (evs & Htr).
    assert (Hp' : clock_pre E s').
    { destruct Hp as (H1 & H2 & H3 & H4). unfold clock_pre.
      rewrite Hr, Hi, Htr. repeat split; auto.
      - intros ms Hin. apply in_app_or in Hin.
        destruct Hin as [Hin|Hin]; [now apply H1|].
        pose proof (@step_writes E _ _ _ _ HInv Hs Htr _ Hin) as Hw.
        elim Ht. apply (@writes_unique _ _ (Elapsed ms)); [exact Hw|reflexivity].
      - intros H. apply in_or_app. left. now apply H3. }
    split; [exact Hp'|]. rewrite Hr.
    destruct (@step_moved E t TInitComponents _ _ Hs)
      as [H|[(H & _)|[(ts & r & H1 & H2)|(H1 & _ & ts & H2 & H3)]]].
    + unfold st_of in *. rewrite H.
      destruct (st (tasks s TInitComponents)) as [| |? ? ?|? ?|[|?]];
        try exact Hc.
      destruct Hc as [Hc1 Hc2]. split; [exact Hc1|].
      rewrite Htr. apply in_or_app. now left.
    + now elim Ht.
    + unfold st_of. now rewrite H2.
    + pose proof (@spawned_comp_absent E _ _ _ _ HInv Hs H2 H3) as HA.
      rewrite HA in Hc. unfold st_of. rewrite H1, Hc. reflexivity.
Qed.

Lemma reach_clock (E : env) (sched : list tid) :
  clock_inv E (exec E sched initial).
Proof.
  induction sched as [|t sched IH] using rev_ind.
  - unfold clock_inv, clock_pre. cbn.
    repeat split; try lia; try discriminate; try contradiction.
  - rewrite exec_app. cbn.
    destruct (step_task E t (exec E sched initial)) as [s1|] eqn:Hs;
      [|exact IH].
    exact (@clock_step E _ _ _ (reachable_inv E sched) IH Hs).
Qed.

(** X6.  The number of line 119.  [time.time()] is read at most twice in a
    run, at lines 60 and 118; every number line 119 writes is
    [int(1000 * (t1 - t0))] for the first two readings [t0], [t1] of the
    clock; and when [_init_components] has returned, both readings were
    made and the number was written. *)
Theorem elapsed_time_reported (E : env) (sched : list tid) :
  let s := exec E sched initial in
  clock_reads s <= 2 /\
  (forall ms, In (Elapsed ms) (trace s) ->
     ms = init_time (clock E 1) (clock E 0)) /\
  (st_of s TInitComponents = Finished Returns ->
   clock_reads s = 2 /\
   In (Elapsed (init_time (clock E 1) (clock E 0))) (trace s)).
Proof.
  intros s. subst s.
  destruct (reach_clock E sched) as [(H1 & H2 & H3 & H4) Hc].
  split; [exact H4|]. split; [exact H1|].
  intros HC. rewrite HC in Hc. exact Hc.
Qed.

(** ** The arithmetic of line 118 *)

Section Line118.

Local Open Scope Z_scope.

Lemma digits2_bound (p : positive) : Zpos p < 2 ^ Zpos (digits2_pos p).
Proof.
  induction p as [p IH|p IH|]; cbn [digits2_pos];
    rewrite ?Pos2Z.inj_succ, ?Z.pow_succ_r by lia; lia.
Qed.

Lemma digits2_le (p : positive) (k : Z) :
  Zpos p < 2 ^ k -> Zpos (digits2_pos p) <= k.
Proof.
  revert k. induction p as [p IH|p IH|]; intros k H; cbn [digits2_pos].
  - rewrite Pos2Z.inj_succ.
    assert (Hk : 0 < k).
    { destruct (Z.lt_trichotomy k 0) as [Hk|[->|Hk]];
        [rewrite Z.pow_neg_r in H by assumption; lia|cbn in H; lia|assumption]. }
    replace k with (Z.succ (k - 1)) in H by lia.
    rewrite Z.pow_succ_r in H by lia.
    specialize (IH (k - 1)). lia.
  - rewrite Pos2Z.inj_succ.
    assert (Hk : 0 < k).
    { destruct (Z.lt_trichotomy k 0) as [Hk|[->|Hk]];
        [rewrite Z.pow_neg_r in H by assumption; lia|cbn in H; lia|assumption]. }
    replace k with (Z.succ (k - 1)) in H by lia.
    rewrite Z.pow_succ_r in H by lia.
    specialize (IH (k - 1)). lia.
  - destruct (Z.lt_trichotomy k 0) as [Hk|[->|Hk]];
      [rewrite Z.pow_neg_r in H by assumption; lia|cbn in H; lia|lia].
Qed.

Lemma shr_1_m (r : shr_record) :
  0 <= shr_m r -> shr_m (shr_1 r) = Z.div2 (shr_m r).
Proof.
  destruct r as [m r s]. cbn [shr_m]. intros H.
  destruct m as [|[p|p|]|p]; cbn; try reflexivity. lia.
Qed.

Lemma iter_shr_m (q : positive) :
  forall r, 0 <= shr_m r ->
            shr_m (iter_pos shr_1 q r) = Z.shiftr (shr_m r) (Zpos q).
Proof.
  assert (Hnn : forall a n, 0 <= a -> 0 <= n -> 0 <= Z.shiftr a n).
  { intros a n Ha Hn. now apply Z.shiftr_nonneg. }
  induction q as [q IH|q IH|]; intros r Hr; cbn [iter_pos].
  - assert (H1 : 0 <= shr_m (shr_1 r)).
    { rewrite shr_1_m by assumption. rewrite Z.div2_spec. apply Hnn; lia. }
    rewrite IH; [rewrite IH by assumption|rewrite IH by assumption;
                                          apply Hnn; [assumption|lia]].
    rewrite shr_1_m by assumption.
    rewrite Z.div2_spec, !Z.shiftr_shiftr by lia.
    f_equal. lia.
  - rewrite IH; [rewrite IH by assumption|rewrite IH by assumption;
                                          apply Hnn; [assumption|lia]].
    rewrite Z.shiftr_shiftr by lia. f_equal. lia.
  - rewrite shr_1_m by assumption. now rewrite Z.div2_spec.
Qed.

(** Shifting keeps a number below its bound. *)
Lemma shr_bound (r : shr_record) (e n K : Z) :
  0 <= shr_m r -> shr_m r < 2 ^ (K - e) -> e + Z.max n 0 <= K ->
  let '(r', e') := shr r e n in
  0 <= shr_m r' /\ shr_m r' < 2 ^ (K - e') /\ e' = e + Z.max n 0.
Proof.
  intros H0 H1 H2. unfold shr. destruct n as [|q|q].
  - split; [assumption|]. split; [|lia]. now rewrite Z.add_0_r in *.
  - rewrite iter_shr_m by assumption. rewrite Z.shiftr_div_pow2 by lia.
    split; [apply Z.div_pos; [assumption|apply Z.pow_pos_nonneg; lia]|].
    split; [|lia].
    apply Z.div_lt_upper_bound; [apply Z.pow_pos_nonneg; lia|].
    rewrite <- Z.pow_add_r by lia.
    replace (Zpos q + (K - (e + Zpos q))) with (K - e) by lia. assumption.
  - split; [assumption|]. split; [|lia]. assumption.
Qed.

Lemma round_bound (m : Z) (l : location) :
  0 <= m -> 0 <= round_nearest_even m l <= m + 1.
Proof.
  intros H. destruct l as [|[| |]]; cbn [round_nearest_even]; try lia.
  destruct (Z.even m); lia.
Qed.

Lemma zdigits_le (m k : Z) : 0 <= m -> m < 2 ^ k -> 0 <= k -> Zdigits2 m <= k.
Proof.
  intros H0 H1 H2. destruct m as [|p|p]; cbn [Zdigits2]; [assumption| |lia].
  now apply digits2_le.
Qed.

(** The result of rounding is zero or finite when the number is small
    enough, and stays below twice its bound. *)
Lemma round_aux_below (s : bool) (p : positive) (ex : Z) (l : location)
      (K : Z) :
  emin prec emax + prec <= K -> K <= emax - prec + 1 ->
  Zpos p < 2 ^ (K - ex) ->
  below (K + 1) (binary_round_aux prec emax s (Zpos p) ex l).
Proof.
  intros HK1 HK2 Hp.
  assert (Hex : ex < K).
  { destruct (Z.lt_trichotomy (K - ex) 0) as [H|[H|H]]; [|rewrite H in Hp|lia].
    - rewrite Z.pow_neg_r in Hp by assumption. lia.
    - cbn in Hp. lia. }
  assert (Hd : Zpos (digits2_pos p) <= K - ex) by now apply digits2_le.
  unfold binary_round_aux, shr_fexp. cbn [Zdigits2].
  set (n1 := fexp prec emax (Zpos (digits2_pos p) + ex) - ex).
  assert (Hn1 : ex + Z.max n1 0 <= K - 1 /\ emin prec emax <= ex + Z.max n1 0).
  { unfold n1, fexp, emin, prec, emax in *. lia. }
  pose proof (@shr_bound (shr_record_of_loc (Zpos p) l) ex n1 K) as H1.
  assert (Hm : shr_m (shr_record_of_loc (Zpos p) l) = Zpos p)
    by (destruct l as [|[| |]]; reflexivity).
  rewrite Hm in H1.
  destruct (shr (shr_record_of_loc (Zpos p) l) ex n1) as [r1 e1].
  destruct H1 as (H1a & H1b & ->); [lia|assumption|lia|].
  set (e1 := ex + Z.max n1 0) in *.
  pose proof (@round_bound (shr_m r1) (loc_of_shr_record r1) H1a) as Hr.
  set (m2 := round_nearest_even (shr_m r1) (loc_of_shr_record r1)) in *.
  assert (Hm2 : m2 < 2 ^ (K + 1 - e1)).
  { replace (K + 1 - e1) with (Z.succ (K - e1)) by lia.
    rewrite Z.pow_succ_r by lia. lia. }
  assert (Hd2 : Zdigits2 m2 <= K + 1 - e1) by (apply zdigits_le; lia).
  assert (Hd2' : 0 <= Zdigits2 m2) by (destruct m2; cbn; lia).
  set (n2 := fexp prec emax (Zdigits2 m2 + e1) - e1).
  assert (Hn2 : e1 + Z.max n2 0 <= K - 1).
  { unfold n2, fexp, emin, prec, emax in *. lia. }
  pose proof (@shr_bound (shr_record_of_loc m2 loc_Exact) e1 n2 (K + 1)) as H2.
  change (shr_m (shr_record_of_loc m2 loc_Exact)) with m2 in H2.
  destruct (shr (shr_record_of_loc m2 loc_Exact) e1 n2) as [r3 e3].
  destruct H2 as (H2a & H2b & ->); [lia|assumption|lia|].
  destruct (shr_m r3) as [|m|m]; cbn [below]; [exact I| |lia].
  destruct (Z.leb_spec (e1 + Z.max n2 0) (emax - prec)) as [_|Hgt];
    [assumption|lia].
Qed.

Lemma iter_xO (m d : positive) :
  Zpos (Pos.iter xO m d) = Zpos m * 2 ^ Zpos d.
Proof.
  rewrite (Pos.iter_swap_gen _ _ Zpos xO (Z.mul 2)) by reflexivity.
  change (Pos.iter (Z.mul 2) (Zpos m) d) with (Z.shiftl (Zpos m) (Zpos d)).
  now rewrite Z.shiftl_mul_pow2.
Qed.

(** Aligning a mantissa to a smaller exponent keeps the number. *)
Lemma shl_align_below (m : positive) (e e' K : Z) :
  Zpos m < 2 ^ (K - e) ->
  let '(mz, ez) := shl_align m e e' in
  Zpos mz < 2 ^ (K - ez) /\ ez = Z.min e e'.
Proof.
  intros H. unfold shl_align.
  assert (He : e < K).
  { destruct (Z.lt_trichotomy (K - e) 0) as [H0|[H0|H0]]; [|rewrite H0 in H|lia].
    - rewrite Z.pow_neg_r in H by assumption. lia.
    - cbn in H. lia. }
  destruct (e' - e) as [|d|d] eqn:Hd; [split; [assumption|lia]
                                      |split; [assumption|lia]|].
  split; [|lia]. rewrite iter_xO.
  replace (K - e') with ((K - e) + Zpos d) by lia.
  rewrite Z.pow_add_r by lia.
  apply Z.mul_lt_mono_pos_r; [apply Z.pow_pos_nonneg; lia|assumption].
Qed.

Lemma round_below (s : bool) (m : positive) (e K : Z) :
  emin prec emax + prec <= K -> K <= emax - prec + 1 ->
  Zpos m < 2 ^ (K - e) ->
  below (K + 1) (binary_round prec emax s m e).
Proof.
  intros HK1 HK2 H. unfold binary_round.
  pose proof (@shl_align_below m e
                (fexp prec emax (Zpos (digits2_pos m) + e)) K H) as Ha.
  destruct (shl_align m e (fexp prec emax (Zpos (digits2_pos m) + e)))
    as [mz ez].
  destruct Ha as [Ha _]. now apply round_aux_below.
Qed.

Lemma time_value_below (x : spec_float) :
  time_value x = true -> below 63 x.
Proof.
  destruct x as [s|s| |s m e]; cbn [time_value below]; try discriminate;
    [trivial|].
  intros H. apply andb_true_iff in H. destruct H as [_ H].
  apply Z.leb_le in H.
  apply Z.lt_le_trans with (1 := digits2_bound m).
  apply Z.pow_le_mono_r; lia.
Qed.

Lemma below_mono (K K' : Z) (x : spec_float) :
  K <= K' -> below K x -> below K' x.
Proof.
  intros HK. destruct x as [s|s| |s m e]; cbn [below]; try tauto.
  intros H. apply Z.lt_le_trans with (1 := H).
  assert (He : e < K).
  { destruct (Z.lt_trichotomy (K - e) 0) as [H0|[H0|H0]]; [|rewrite H0 in H|lia].
    - rewrite Z.pow_neg_r in H by assumption. lia.
    - cbn in H. lia. }
  apply Z.pow_le_mono_r; lia.
Qed.

(** The difference of two readings is below 2^65 in magnitude. *)
Lemma sub_below (x y : spec_float) :
  below 63 x -> below 63 y -> below 65 (float_sub x y).
Proof.
  intros Hx Hy.
  destruct x as [sx|sx| |sx mx ex]; try contradiction;
    destruct y as [sy|sy| |sy my ey]; try contradiction;
    unfold float_sub; cbn [SFsub].
  - destruct sx, sy; exact I.
  - cbn [below] in *. apply Z.lt_le_trans with (1 := Hy).
    assert (He : ey < 63).
    { destruct (Z.lt_trichotomy (63 - ey) 0) as [H0|[H0|H0]];
        [|rewrite H0 in Hy|lia].
      - rewrite Z.pow_neg_r in Hy by assumption. lia.
      - cbn in Hy. lia. }
    apply Z.pow_le_mono_r; lia.
  - now apply below_mono with (K := 63).
  - cbn [below] in Hx, Hy.
    pose proof (@shl_align_below mx ex (Z.min ex ey) 63 Hx) as Ha.
    pose proof (@shl_align_below my ey (Z.min ex ey) 63 Hy) as Hb.
    destruct (shl_align mx ex (Z.min ex ey)) as [ma ea].
    destruct (shl_align my ey (Z.min ex ey)) as [mb eb].
    cbn [fst]. destruct Ha as [Ha Ea], Hb as [Hb Eb].
    replace ea with (Z.min ex ey) in Ha by lia.
    replace eb with (Z.min ex ey) in Hb by lia.
    set (ez := Z.min ex ey) in *.
    assert (Hez : ez < 63).
    { destruct (Z.lt_trichotomy (63 - ez) 0) as [H0|[H0|H0]];
        [|rewrite H0 in Ha|lia].
      - rewrite Z.pow_neg_r in Ha by assumption. lia.
      - cbn in Ha. lia. }
    assert (Hsum : Z.abs (cond_Zopp sx (Zpos ma) - cond_Zopp sy (Zpos mb))
                   < 2 ^ (64 - ez)).
    { replace (64 - ez) with (Z.succ (63 - ez)) by lia.
      rewrite Z.pow_succ_r by lia. destruct sx, sy; cbn [cond_Zopp]; lia. }
    unfold binary_normalize.
    destruct (cond_Zopp sx (Zpos ma) - cond_Zopp sy (Zpos mb)) as [|m|m];
      [exact I| |];
      apply (@round_below _ m ez 64);
      unfold emin, prec, emax; try lia; exact Hsum.
Qed.

Lemma float_1000 :
  float_of_int 1000 = S754_finite false 8796093022208000 (-43).
Proof. reflexivity. Qed.

(** The product of line 118 is zero or finite. *)
Lemma elapsed_below (now start : spec_float) :
  time_value now = true -> time_value start = true ->
  below 76 (elapsed_ms now start).
Proof.
  intros Hn Hs. unfold elapsed_ms. rewrite float_1000.
  pose proof (@sub_below _ _ (@time_value_below _ Hn) (@time_value_below _ Hs)) as H.
  destruct (float_sub now start) as [s|s| |s m e]; try contradiction;
    unfold float_mul; cbn [SFmul]; [exact I|].
  cbn [below xorb] in *.
  apply (@round_aux_below s (8796093022208000 * m) (-43 + e) loc_Exact 75);
    unfold emin, prec, emax; try lia.
  assert (He : e < 65).
  { destruct (Z.lt_trichotomy (65 - e) 0) as [H0|[H0|H0]];
      [|rewrite H0 in H|lia].
    - rewrite Z.pow_neg_r in H by assumption. lia.
    - cbn in H. lia. }
  replace (75 - (-43 + e)) with (53 + (65 - e)) by lia.
  rewrite Z.pow_add_r by lia. rewrite Pos2Z.inj_mul.
  assert (H53 : 8796093022208000 < 2 ^ 53) by reflexivity.
  assert (Hpos : 0 < 2 ^ (65 - e)) by (apply Z.pow_pos_nonneg; lia).
  nia.
Qed.

(** [int] does not raise at line 118: the number it is given is finite, so
    the handler at lines 120-122 is never entered. *)
Lemma int_defined (now start : reading) :
  int_of_float (elapsed_ms (seconds now) (seconds start)) =
  Some (init_time now start).
Proof.
  unfold init_time.
  pose proof (@elapsed_below _ _ (in_range now) (in_range start)) as H.
  destruct (elapsed_ms (seconds now) (seconds start)); try contradiction;
    reflexivity.
Qed.

End Line118.

(** X7.  Line 118 does not raise.  For all readings of the clock, the
    number [1000 * (time.time() - init_start_time)], computed in binary64,
    is zero or finite and below 2^76 in magnitude: [int] is defined on it,
    its value is the number that line 119 logs, and the handler at lines
    120-122 is never entered. *)
Theorem init_time_never_raises (now start : reading) :
  below 76 (elapsed_ms (seconds now) (seconds start)) /\
  int_of_float (elapsed_ms (seconds now) (seconds start)) =
    Some (init_time now start).
Proof.
  split; [apply elapsed_below; apply in_range|apply int_defined].
Qed.

(** The rounding of binary64 shows: [0.009] is the number
    [0x1.26e978d4fdf3bp-7], below 9/1000, and Python computes
    [int(1000 * (0.009 - 0.0)) = 9]. *)
Example init_time_rounds :
  init_time (as_reading (float_of_dyadic 0x126e978d4fdf3b (-59))) epoch = 9%Z.
Proof. reflexivity. Qed.

(** ** The bootstrap runs once *)

Lemma comp_event_erase (e : event) : comp_event (erase e) = comp_event e.
Proof. now destruct e. Qed.

Lemma erase_erase (e : event) : erase (erase e) = erase e.
Proof. now destruct e. Qed.

Lemma count_cons (p : event -> bool) (e : event) (tr : list event) :
  count p (e :: tr) = if p e then S (count p tr) else count p tr.
Proof. unfold count. cbn. now destruct (p e). Qed.

Lemma view_cons (e : event) (tr : list event) :
  view (e :: tr) = if comp_event e then erase e :: view tr else view tr.
Proof. unfold view. cbn. now destruct (comp_event e). Qed.

Lemma occurrences_view (ev : event) (tr : list event) :
  comp_event ev = true -> occurrences ev tr = occurrences ev (view tr).
Proof.
  intros Hev. unfold occurrences.
  induction tr as [|e tr IH]; [reflexivity|].
  rewrite view_cons, count_cons.
  destruct (comp_event e) eqn:He.
  - rewrite count_cons, erase_erase, IH. reflexivity.
  - destruct (event_eq_dec (erase e) (erase ev)) as [Heq|_]; cbn; [|exact IH].
    rewrite <- comp_event_erase, Heq, comp_event_erase, Hev in He.
    discriminate He.
Qed.

Lemma occurrences_nodup (ev : event) (l : list event) :
  NoDup (map erase l) -> occurrences ev l <= 1.
Proof.
  unfold occurrences. induction l as [|e l IH]; intros Hn; [unfold count; cbn; lia|].
  cbn in Hn. inversion Hn as [|? ? Hnot Hl]; subst.
  rewrite count_cons.
  destruct (event_eq_dec (erase e) (erase ev)) as [Heq|_]; cbn;
    [|now apply IH].
  assert (H0 : count (fun e0 => if event_eq_dec (erase e0) (erase ev)
                                then true else false) l = 0).
  { clear IH Hn Hl. induction l as [|e' l IH]; [reflexivity|].
    rewrite count_cons.
    destruct (event_eq_dec (erase e') (erase ev)) as [Heq'|_]; cbn.
    - elim Hnot. cbn. left. congruence.
    - apply IH. intros Hin. apply Hnot. cbn. now right. }
  lia.
Qed.

Lemma canon_nodup : NoDup canon.
Proof.
  assert (H : forall l : list event,
             (fix nd (l : list event) : bool :=
                match l with
                | [] => true
                | e :: l' =>
                    negb (existsb (fun e' => if event_eq_dec e e'
                                             then true else false) l')
                    && nd l'
                end) l = true -> NoDup l).
  { induction l as [|e l IH]; intros H; [constructor|].
    apply andb_true_iff in H. destruct H as [H1 H2].
    constructor; [|now apply IH].
    intros Hin. apply negb_true_iff in H1.
    assert (H3 : existsb (fun e' => if event_eq_dec e e' then true else false)
                   l = true).
    { apply existsb_exists. exists e. split; [assumption|].
      now destruct (event_eq_dec e e). }
    congruence. }
  apply H. vm_compute. reflexivity.
Qed.

Lemma canon_erased : map erase canon = canon.
Proof. reflexivity. Qed.

Lemma view_erased (tr : list event) : map erase (view tr) = view tr.
Proof.
  unfold view. rewrite map_map. apply map_ext. intros e. apply erase_erase.
Qed.

Lemma view_nodup (s : state) : Inv s -> NoDup (view (trace s)).
Proof.
  intros HInv. destruct (view_shape HInv) as (n & [H|(c & x & H)]); rewrite H.
  - pose proof canon_nodup as Hc.
    rewrite <- (firstn_skipn n canon) in Hc.
    now apply NoDup_app_remove_r in Hc.
  - pose proof canon_nodup as Hc.
    rewrite <- (firstn_skipn n canon) in Hc.
    apply NoDup_app_remove_r in Hc.
    apply NoDup_rev in Hc. rewrite <- (rev_involutive (firstn n canon ++ _)).
    apply NoDup_rev. rewrite rev_app_distr. cbn. constructor; [|exact Hc].
    intros Hin. apply in_rev in Hin.
    apply (@ok_events_no_raise c x _init_components).
    change (ok_events _init_components) with canon.
    rewrite <- (firstn_skipn n canon). apply in_or_app. now left.
Qed.

(** X8.  The bootstrap runs once.  In every run, however often the host
    loop restarts its services, each event of [_init_components] occurs at
    most once; in particular every bootstrap step, each handler
    registration and the emission of ON_START is invoked at most once. *)
Theorem bootstrap_runs_once (E : env) (sched : list tid) :
  let s := exec E sched initial in
  (forall ev, comp_event ev = true -> occurrences ev (trace s) <= 1) /\
  (forall c, comp_callee c = true -> invocations c (trace s) <= 1).
Proof.
  intros s. subst s.
  assert (H1 : forall ev, comp_event ev = true ->
                          occurrences ev (trace (exec E sched initial)) <= 1).
  { intros ev Hev. rewrite (@occurrences_view ev _ Hev).
    apply occurrences_nodup. rewrite view_erased.
    apply view_nodup, reachable_inv. }
  split; [exact H1|].
  intros c Hc. specialize (H1 (Begin c) Hc).
  unfold occurrences in H1. unfold invocations.
  assert (Heq : forall tr,
             count (is_begin c) tr =
             count (fun e => if event_eq_dec (erase e) (erase (Begin c))
                             then true else false) tr).
  { induction tr as [|e tr IH]; [reflexivity|].
    rewrite !count_cons, IH.
    assert (Hp : is_begin c e =
                 if event_eq_dec (erase e) (erase (Begin c))
                 then true else false).
    { destruct (event_eq_dec (erase e) (erase (Begin c))) as [Hx|Hx].
      - destruct e; cbn in Hx; try discriminate Hx. injection Hx as ->.
        cbn. unfold callee_eqb. now destruct (callee_eq_dec c c).
      - destruct e as [c'| | | | | |]; try reflexivity.
        cbn. unfold callee_eqb.
        destruct (callee_eq_dec c c') as [->|]; [now elim Hx|reflexivity]. }
    now rewrite Hp. }
  now rewrite Heq.
Qed.

(** * The event loop's own order *)

Lemma run_fifo_halted (E : env) (n : nat) (s : state) :
  halted s = true -> run_fifo E n s = s.
Proof.
  intros H. destruct n; cbn; [reflexivity|].
  destruct (ready s); [reflexivity|]. now rewrite halted_stuck.
Qed.

Lemma run_fifo_first (E : env) (n : nat) :
  run_fifo E (S n) initial = run_fifo E n (main_step E).
Proof. reflexivity. Qed.

(** The first three steps when the constructor returns. *)
Lemma three_steps (E : env) :
  outcome_of E get_global_api 0 = Returns ->
  outcome_of E get_global_server 0 = Returns ->
  trace (run_fifo E 1 initial) = main_events /\
  trace (run_fifo E 2 initial) =
    main_events ++ [Logged LogWaking; Created TInitComponents] /\
  let s3 := run_fifo E 3 initial in
  trace s3 = prologue /\
  ready s3 = [TInitComponents; TEmojiCheck; TAppRun; TServerRun] /\
  clock_reads s3 = 0 /\
  tasks s3 TMain =
    {| st := InGather [TInitialize; TScheduleTasks] None; todo := [] |} /\
  tasks s3 TInitialize =
    {| st := InGather [TInitComponents] None; todo := [Log LogAllReady] |} /\
  tasks s3 TInitComponents =
    {| st := Runnable; todo := _init_components |} /\
  tasks s3 TScheduleTasks =
    {| st := InGather services None; todo := [] |} /\
  (forall t, In t services ->
             tasks s3 t = {| st := Runnable; todo := program t |}).
Proof.
  intros H1 H2. rewrite !run_fifo_first, (main_step_returns E H1 H2).
  cbn. repeat split.
  intros t [<-|[<-|[<-|[]]]]; reflexivity.
Qed.

Lemma exec_await_first (E : env) (t : tid) (c : callee) (k : list instr)
      (s : state) :
  exists evs, trace (exec_code E t (Await c :: k) s) = trace s ++ Begin c :: evs.
Proof.
  cbn [exec_code]. destruct (suspensions E c _) as [[|n]|].
  - destruct (outcome_of E c _).
    + destruct (exec_code_grows E t k (emit (End c) (emit (Begin c) s)))
        as (evs & ->).
      cbn. exists (End c :: evs). now rewrite <- !app_assoc.
    + rewrite finish_trace. cbn. exists [Raised c e]. now rewrite <- app_assoc.
  - cbn. now exists [].
  - cbn. now exists [].
Qed.

(** The fourth step is the first one of [_init_components]. *)
Lemma fourth_step_trace (E : env) :
  outcome_of E get_global_api 0 = Returns ->
  outcome_of E get_global_server 0 = Returns ->
  exists evs,
    trace (run_fifo E 4 initial) =
      prologue ++ Begin add_task_OnlineTimeRecordTask :: evs /\
    forall ev, In ev evs -> code_writes _init_components ev = true.
Proof.
  intros H1 H2.
  destruct (three_steps E H1 H2) as (_ & _ & Htr & Hq & _ & HM & _ & HC & _).
  change 4 with (3 + 1). rewrite run_fifo_plus.
  set (s3 := run_fifo E 3 initial) in *.
  cbn [run_fifo]. rewrite Hq. unfold step_task, halted, st_of.
  rewrite HM, HC. cbn [st todo].
  destruct (exec_code_grows E TInitComponents _init_components
              (dequeue TInitComponents s3)) as (evs4 & H4).
  pose proof (@exec_code_writes E TInitComponents _init_components
                (dequeue TInitComponents s3) evs4 H4) as Hw.
  destruct (exec_await_first E TInitComponents add_task_OnlineTimeRecordTask
              (skipn 2 _init_components)
              (read_start E (dequeue TInitComponents s3))) as (evs & Ha).
  change (exec_code E TInitComponents
            (Await add_task_OnlineTimeRecordTask :: skipn 2 _init_components)
            (read_start E (dequeue TInitComponents s3)))
    with (exec_code E TInitComponents _init_components
            (dequeue TInitComponents s3)) in Ha.
  rewrite Ha in H4. cbn [trace read_start dequeue] in H4.
  apply app_inv_head in H4. subst evs4.
  exists evs. cbn [trace read_start dequeue] in Ha. rewrite Ha, Htr.
  split; [reflexivity|]. intros ev Hin. apply Hw. now right.
Qed.

(** X9.  In the event loop's own order the bootstrap starts first: the
    first bootstrap step (line 63) begins before the run loop of any
    service is entered. *)
Theorem bootstrap_starts_first (E : env) (n : nat) (svc : callee) :
  In svc service_callees ->
  before (Begin add_task_OnlineTimeRecordTask) (Begin svc)
    (trace (run_fifo E n initial)).
Proof.
  intros Hsvc.
  assert (Hno : forall l, incl l prologue -> ~ In (Begin svc) l).
  { intros l Hl Hin. apply Hl in Hin.
    in_cases Hsvc; subst svc; in_cases Hin; discriminate. }
  destruct (main_step_trace E)
    as [(x & Htr & Hh)|[(x & Htr & Hh)|(_ & H1 & H2)]].
  - apply before_absent. destruct n; [intros []|].
    rewrite run_fifo_first, run_fifo_halted, Htr by assumption.
    intros Hin. in_cases Hsvc; subst svc; in_cases Hin; discriminate.
  - apply before_absent. destruct n; [intros []|].
    rewrite run_fifo_first, run_fifo_halted, Htr by assumption.
    intros Hin. in_cases Hsvc; subst svc; in_cases Hin; discriminate.
  - destruct (three_steps E H1 H2) as (T1 & T2 & T3 & _).
    destruct n as [|[|[|[|n]]]].
    + apply before_absent. intros [].
    + apply before_absent. rewrite T1. apply Hno.
      intros e He. unfold main_events in He. unfold prologue.
      in_cases He; subst e; cbn; tauto.
    + apply before_absent. rewrite T2. apply Hno.
      intros e He. unfold main_events in He. unfold prologue.
      cbn in He. in_cases He; subst e; cbn; tauto.
    + apply before_absent. rewrite T3. apply Hno, incl_refl.
    + change (S (S (S (S n)))) with (4 + n). rewrite run_fifo_plus.
      destruct (run_fifo_grows E n (run_fifo E 4 initial)) as (evs' & ->).
      destruct (fourth_step_trace E H1 H2) as (evs & -> & Hw).
      apply before_app_l.
      * apply in_or_app. right. now left.
      * intros Hin. apply in_app_or in Hin. destruct Hin as [Hin|[Hin|Hin]].
        -- revert Hin. apply Hno, incl_refl.
        -- in_cases Hsvc; subst svc; discriminate Hin.
        -- apply Hw in Hin. in_cases Hsvc; subst svc; discriminate Hin.
Qed.

(** ** Bootstrap runs to its end *)

Section FifoBootstrap.

Variable E : env.
Hypothesis services_run :
  forall c n, In c service_callees -> suspensions E c n = None.

(** The services enter their run loops. *)
Lemma drain (q : list tid) (s : state) :
  st_of s TMain = InGather [TInitialize; TScheduleTasks] None ->
  queued q s ->
  exists s',
    run_fifo E 3 s = s' /\
    parked q s' /\
    tasks s' TMain = tasks s TMain /\
    tasks s' TInitialize = tasks s TInitialize /\
    tasks s' TInitComponents = tasks s TInitComponents /\
    tasks s' TScheduleTasks = tasks s TScheduleTasks /\
    trace s' = trace s ++ [ Begin start_periodic_check_register;
                            Begin app_run; Begin server_run ].
Proof.
  intros HM (He & Ha & Hs & Hq).
  assert (H1 : forall n, suspensions E start_periodic_check_register n = None)
    by (intros n; apply services_run; cbn; tauto).
  assert (H2 : forall n, suspensions E app_run n = None)
    by (intros n; apply services_run; cbn; tauto).
  assert (H3 : forall n, suspensions E server_run n = None)
    by (intros n; apply services_run; cbn; tauto).
  unfold st_of in HM.
  remember (run_fifo E 3 s) as s' eqn:Hrun.
  cbn [run_fifo] in Hrun. rewrite Hq in Hrun. cbn [app] in Hrun.
  unfold step_task at 1 in Hrun. unfold halted, st_of in Hrun.
  rewrite HM, He in Hrun.
  cbn [st todo program exec_code] in Hrun. rewrite H1 in Hrun.
  cbn in Hrun. rewrite Hq in Hrun. cbn in Hrun.
  unfold step_task at 1 in Hrun. unfold halted, st_of in Hrun. cbn in Hrun.
  rewrite HM, Ha in Hrun.
  cbn [st todo program exec_code] in Hrun. rewrite H2 in Hrun.
  cbn in Hrun. rewrite Hq in Hrun. cbn in Hrun.
  unfold step_task at 1 in Hrun. unfold halted, st_of in Hrun. cbn in Hrun.
  rewrite HM, Hs in Hrun.
  cbn [st todo program exec_code] in Hrun. rewrite H3 in Hrun.
  exists s'. split; [reflexivity|]. subst s'.
  unfold parked. cbn. rewrite Hq. cbn.
  repeat split; eauto. now rewrite <- !app_assoc.
Qed.

(** [_init_components] ends: its result reaches the [gather] of
    [initialize], which is scheduled. *)
Lemma finish_comp_facts (o : outcome) (s : state) :
  waiting s ->
  let sf := finish TInitComponents o s in
  tasks sf TMain = tasks s TMain /\
  tasks sf TInitialize =
    {| st := InGather [TInitComponents] (Some o);
       todo := [Log LogAllReady] |} /\
  tasks sf TInitComponents = {| st := Finished o; todo := [] |} /\
  tasks sf TScheduleTasks = tasks s TScheduleTasks /\
  tasks sf TEmojiCheck = tasks s TEmojiCheck /\
  tasks sf TAppRun = tasks s TAppRun /\
  tasks sf TServerRun = tasks s TServerRun /\
  ready sf = ready s ++ [TInitialize] /\
  trace sf = trace s.
Proof.
  intros (HM & HI & HS). unfold finish. cbn [parent].
  unfold st_of. cbn. rewrite HI. cbn.
  destruct o as [|x]; cbn; rewrite ?HI; cbn; repeat split.
Qed.

(** [initialize] logs its banner and returns; [main] keeps waiting for
    [schedule_tasks]. *)
Lemma final_ok (s : state) :
  tasks s TMain =
    {| st := InGather [TInitialize; TScheduleTasks] None; todo := [] |} ->
  tasks s TInitialize =
    {| st := InGather [TInitComponents] (Some Returns);
       todo := [Log LogAllReady] |} ->
  tasks s TInitComponents = {| st := Finished Returns; todo := [] |} ->
  tasks s TScheduleTasks = {| st := InGather services None; todo := [] |} ->
  ready s = [TInitialize] ->
  booted (run_fifo E 1 s).
Proof.
  intros HM HI HC HS Hq.
  remember (run_fifo E 1 s) as s' eqn:Hrun.
  cbn [run_fifo] in Hrun. rewrite Hq in Hrun.
  unfold step_task, halted, st_of in Hrun. rewrite HM, HI in Hrun.
  cbn [st todo continuation exec_code] in Hrun.
  unfold finish in Hrun. cbn [parent] in Hrun.
  unfold st_of, returned, st_of in Hrun. cbn in Hrun.
  rewrite HM in Hrun. cbn in Hrun. rewrite HS in Hrun. cbn in Hrun.
  subst s'. unfold booted, st_of. cbn. rewrite Hq, HC, HM. cbn.
  repeat split. apply in_or_app. right. now left.
Qed.

Lemma run_fifo_step (n : nat) (t : tid) (q : list tid) (s s1 : state) :
  ready s = t :: q -> step_task E t s = Some s1 ->
  run_fifo E (S n) s = run_fifo E n s1.
Proof. intros Hq Hs. cbn [run_fifo]. now rewrite Hq, Hs. Qed.

(** [initialize] ends with the exception, then [main] does. *)
Lemma final_raise (x : exn) (s : state) :
  tasks s TMain =
    {| st := InGather [TInitialize; TScheduleTasks] None; todo := [] |} ->
  tasks s TInitialize =
    {| st := InGather [TInitComponents] (Some (Raises x));
       todo := [Log LogAllReady] |} ->
  ready s = [TInitialize] ->
  st_of (run_fifo E 2 s) TMain = Finished (Raises x) /\
  trace (run_fifo E 2 s) = trace s.
Proof.
  intros HM HI Hq.
  set (s1 := finish TInitialize (Raises x) (dequeue TInitialize s)).
  assert (H1 : step_task E TInitialize s = Some s1).
  { unfold step_task, halted, st_of. now rewrite HM, HI. }
  assert (F1 : tasks s1 TMain =
                 {| st := InGather [TInitialize; TScheduleTasks]
                            (Some (Raises x)); todo := [] |} /\
               ready s1 = [TMain] /\ trace s1 = trace s).
  { unfold s1, finish. cbn [parent]. unfold st_of. cbn. rewrite HM. cbn.
    rewrite ?HM, ?Hq. cbn. repeat split. }
  destruct F1 as (F1 & F2 & F3).
  assert (H2 : step_task E TMain s1 =
               Some (finish TMain (Raises x) (dequeue TMain s1))).
  { unfold step_task, halted, st_of. now rewrite F1. }
  rewrite (@run_fifo_step 1 _ _ _ _ Hq H1), (@run_fifo_step 0 _ _ _ _ F2 H2).
  cbn [run_fifo]. rewrite finish_own, finish_trace. cbn. now split.
Qed.

Lemma comp_returns (s : state) :
  waiting s -> queued [] s \/ parked [] s ->
  exists n, booted (run_fifo E n (finish TInitComponents Returns s)).
Proof.
  intros HW Hq. pose proof HW as (HM & HI & HS).
  destruct (finish_comp_facts Returns HW)
    as (F1 & F2 & F3 & F4 & F5 & F6 & F7 & F8 & F9).
  destruct Hq as [(He & Ha & Hs & Hq)|(He & Ha & Hs & Hq)].
  - destruct (@drain [TInitialize] (finish TInitComponents Returns s))
      as (s' & Hrun & (_ & _ & _ & Hq') & D1 & D2 & D3 & D4 & _).
    { unfold st_of. now rewrite F1, HM. }
    { unfold queued. rewrite F5, F6, F7, F8, Hq. auto. }
    exists (3 + 1). rewrite run_fifo_plus, Hrun.
    apply final_ok; congruence.
  - exists 1. apply final_ok; try congruence. now rewrite F8, Hq.
Qed.

Lemma comp_raises (x : exn) (s : state) :
  waiting s -> queued [] s \/ parked [] s ->
  exists n,
    st_of (run_fifo E n (finish TInitComponents (Raises x) s)) TMain =
      Finished (Raises x) /\
    forall ev, In ev (trace s) ->
      In ev (trace (run_fifo E n (finish TInitComponents (Raises x) s))).
Proof.
  intros HW Hq. pose proof HW as (HM & HI & HS).
  destruct (finish_comp_facts (Raises x) HW)
    as (F1 & F2 & F3 & F4 & F5 & F6 & F7 & F8 & F9).
  destruct Hq as [(He & Ha & Hs & Hq)|(He & Ha & Hs & Hq)].
  - destruct (@drain [TInitialize] (finish TInitComponents (Raises x) s))
      as (s' & Hrun & (_ & _ & _ & Hq') & D1 & D2 & D3 & D4 & D5).
    { unfold st_of. now rewrite F1, HM. }
    { unfold queued. rewrite F5, F6, F7, F8, Hq. auto. }
    exists (3 + 2). rewrite run_fifo_plus, Hrun.
    destruct (@final_raise x s') as [R1 R2]; try congruence.
    split; [exact R1|]. intros ev Hin. rewrite R2, D5, F9.
    apply in_or_app. now left.
  - destruct (@final_raise x (finish TInitComponents (Raises x) s))
      as [R1 R2]; try congruence.
    { now rewrite F8, Hq. }
    exists 2. split; [exact R1|]. intros ev Hin. now rewrite R2, F9.
Qed.

Lemma suspended_parked (c : callee) (o : outcome) (k : list instr) (n : nat) :
  forall s,
    waiting s -> parked [TInitComponents] s ->
    tasks s TInitComponents = {| st := InAwait c (Some n) o; todo := k |} ->
    exists m s1,
      run_fifo E m s = resumed E c o k s1 /\
      waiting s1 /\ parked [] s1 /\ trace s1 = trace s.
Proof.
  induction n as [|n IH]; intros s HW HP HC;
    pose proof HW as (HM & HI & HS);
    pose proof HP as (He & Ha & Hs & Hq).
  - exists 1, (dequeue TInitComponents s).
    assert (H1 : step_task E TInitComponents s =
                 Some (resumed E c o k (dequeue TInitComponents s))).
    { unfold step_task, halted, st_of. rewrite HM, HC. cbn.
      now destruct o. }
    rewrite (@run_fifo_step 0 _ _ _ _ Hq H1). cbn [run_fifo].
    split; [reflexivity|]. split; [exact HW|]. split; [|reflexivity].
    unfold parked. cbn. rewrite Hq. cbn. auto.
  - set (s2 := enqueue TInitComponents
                 (set_task TInitComponents
                    {| st := InAwait c (Some n) o; todo := k |}
                    (dequeue TInitComponents s))).
    assert (H1 : step_task E TInitComponents s = Some s2).
    { unfold step_task, halted, st_of. now rewrite HM, HC. }
    destruct (IH s2) as (m & s1 & R1 & R2 & R3 & R4).
    + exact HW.
    + unfold parked, s2. cbn. rewrite Hq. cbn. auto.
    + reflexivity.
    + exists (S m), s1. rewrite (@run_fifo_step m _ _ _ _ Hq H1). auto.
Qed.

Lemma suspended (c : callee) (o : outcome) (k : list instr) (n : nat)
      (s : state) :
  waiting s -> queued [TInitComponents] s \/ parked [TInitComponents] s ->
  tasks s TInitComponents = {| st := InAwait c (Some n) o; todo := k |} ->
  exists m s1,
    run_fifo E m s = resumed E c o k s1 /\
    waiting s1 /\ parked [] s1 /\
    forall ev, In ev (trace s) -> In ev (trace s1).
Proof.
  intros HW [HQ|HP] HC.
  - pose proof HW as (HM & HI & HS).
    destruct (@drain [TInitComponents] s)
      as (s' & Hrun & HP & D1 & D2 & D3 & D4 & D5);
      [unfold st_of; now rewrite HM|exact HQ|].
    destruct (@suspended_parked c o k n s')
      as (m & s1 & R1 & R2 & R3 & R4);
      [unfold waiting; rewrite D1, D2, D4; exact HW|exact HP|congruence|].
    exists (3 + m), s1. rewrite run_fifo_plus, Hrun.
    split; [exact R1|]. split; [exact R2|]. split; [exact R3|].
    intros ev Hin. rewrite R4, D5. apply in_or_app. now left.
  - destruct (@suspended_parked c o k n s HW HP HC)
      as (m & s1 & R1 & R2 & R3 & R4).
    exists m, s1.
    split; [exact R1|]. split; [exact R2|]. split; [exact R3|].
    intros ev Hin. now rewrite R4.
Qed.

Hypothesis finite :
  forall c n, comp_callee c = true -> suspensions E c n <> None.

Lemma config_same (q : list tid) (s s' : state) :
  tasks s' = tasks s -> ready s' = ready s ->
  waiting s -> queued q s \/ parked q s ->
  waiting s' /\ (queued q s' \/ parked q s').
Proof.
  unfold waiting, queued, parked. intros -> ->. tauto.
Qed.

Lemma config_await (c : callee) (l : option nat) (o : outcome)
      (k : list instr) (s : state) :
  waiting s -> queued [] s \/ parked [] s ->
  let s' := enqueue TInitComponents
              (set_task TInitComponents
                 {| st := InAwait c l o; todo := k |} (emit (Begin c) s)) in
  waiting s' /\
  (queued [TInitComponents] s' \/ parked [TInitComponents] s').
Proof.
  unfold waiting, queued, parked. cbn.
  intros HW [(H1 & H2 & H3 & H4)|(H1 & H2 & H3 & H4)]; rewrite H4; cbn;
    split; auto.
Qed.

(** From any of its program points [_init_components] runs to its end. *)
Lemma run_comp (k : list instr) :
  forallb comp_instr k = true ->
  forall s,
    waiting s -> queued [] s \/ parked [] s ->
    exists n,
      (booted (run_fifo E n (exec_code E TInitComponents k s)) /\
       forall c i, In i k -> invokes i c ->
                   exists m, outcome_of E c m = Returns) \/
      (exists c x m,
         comp_callee c = true /\ outcome_of E c m = Raises x /\
         In (Raised c x)
            (trace (run_fifo E n (exec_code E TInitComponents k s))) /\
         st_of (run_fifo E n (exec_code E TInitComponents k s)) TMain =
           Finished (Raises x)).
Proof.
  induction k as [|i k IH]; intros Hk s HW HQ.
  - destruct (@comp_returns _ HW HQ) as (n & Hn). exists n. left.
    split; [exact Hn|]. intros c i [].
  - cbn in Hk. apply andb_true_iff in Hk. destruct Hk as [Hi Hk].
    specialize (IH Hk).
    assert (Hnext : forall s1 c,
              tasks s1 = tasks s -> ready s1 = ready s ->
              (forall c', invokes i c' -> c' = c) ->
              (forall c', invokes i c' ->
                 exists m, outcome_of E c' m = Returns) ->
              exists n,
                (booted (run_fifo E n (exec_code E TInitComponents k s1)) /\
                 forall c' i', In i' (i :: k) -> invokes i' c' ->
                               exists m, outcome_of E c' m = Returns) \/
                (exists c' x m,
                   comp_callee c' = true /\ outcome_of E c' m = Raises x /\
                   In (Raised c' x)
                      (trace (run_fifo E n
                                (exec_code E TInitComponents k s1))) /\
                   st_of (run_fifo E n (exec_code E TInitComponents k s1))
                     TMain = Finished (Raises x))).
    { intros s1 c Ht Hr _ Hret.
      destruct (@config_same [] _ _ Ht Hr HW HQ) as [HW1 HQ1].
      destruct (IH s1 HW1 HQ1) as (n & [[Hb Hall]|Hab]); exists n;
        [left|right; exact Hab].
      split; [exact Hb|]. intros c' i' [<-|Hin] Hinv; [|eauto].
      now apply Hret. }
    assert (Hfail : forall s1 c x m,
              tasks s1 = tasks s -> ready s1 = ready s ->
              comp_callee c = true -> outcome_of E c m = Raises x ->
              In (Raised c x) (trace s1) ->
              exists n,
                (booted (run_fifo E n
                           (finish TInitComponents (Raises x) s1)) /\
                 forall c' i', In i' (i :: k) -> invokes i' c' ->
                               exists m, outcome_of E c' m = Returns) \/
                (exists c' x' m',
                   comp_callee c' = true /\ outcome_of E c' m' = Raises x' /\
                   In (Raised c' x')
                      (trace (run_fifo E n
                                (finish TInitComponents (Raises x) s1))) /\
                   st_of (run_fifo E n
                            (finish TInitComponents (Raises x) s1))
                     TMain = Finished (Raises x'))).
    { intros s1 c x m Ht Hr Hc Hout Hin.
      destruct (@config_same [] _ _ Ht Hr HW HQ) as [HW1 HQ1].
      destruct (@comp_raises x _ HW1 HQ1) as (n & Hn1 & Hn2).
      exists n. right. exists c, x, m. auto. }
    destruct i as [c|c|c|ts|m| |]; cbn [exec_code]; cbn in Hi;
      try discriminate Hi.
    + destruct (outcome_of E c (invocations c (trace s))) as [|x] eqn:Hout.
      * apply (Hnext _ c); try reflexivity.
        -- intros c' [H|H]; now inversion H.
        -- intros c' [H|H]; inversion H; subst; eauto.
      * apply (Hfail _ c x (invocations c (trace s))); try reflexivity;
          try assumption.
        cbn. apply in_or_app. right. now left.
    + destruct (suspensions E c (invocations c (trace s))) as [[|j]|] eqn:Hsus.
      * destruct (outcome_of E c (invocations c (trace s))) as [|x] eqn:Hout.
        -- apply (Hnext _ c); try reflexivity.
           ++ intros c' [H|H]; now inversion H.
           ++ intros c' [H|H]; inversion H; subst; eauto.
        -- apply (Hfail _ c x (invocations c (trace s))); try reflexivity;
             try assumption.
           cbn. apply in_or_app. right. now left.
      * destruct (@config_await c (Some j)
                    (outcome_of E c (invocations c (trace s))) k _ HW HQ)
          as [HW1 HQ1].
        destruct (@suspended c (outcome_of E c (invocations c (trace s)))
                    k j _ HW1 HQ1 eq_refl)
          as (m1 & s1 & R1 & R2 & R3 & R4).
        destruct (outcome_of E c (invocations c (trace s))) as [|x] eqn:Hout;
          cbn [resumed] in R1.
        -- destruct (IH (emit (End c) s1)) as (n & Hn);
             [exact R2|right; exact R3|].
           exists (m1 + n). rewrite run_fifo_plus, R1.
           destruct Hn as [[Hb Hall]|Hab]; [left|right; exact Hab].
           split; [exact Hb|]. intros c' i' [<-|Hin] Hinv; [|eauto].
           destruct Hinv as [H|H]; inversion H; subst; eauto.
        -- destruct (@comp_raises x (emit (Raised c x) s1))
             as (n & Hn1 & Hn2); [exact R2|right; exact R3|].
           exists (m1 + n). rewrite run_fifo_plus, R1. right.
           exists c, x, (invocations c (trace s)).
           repeat split; try assumption.
           apply Hn2. cbn. apply in_or_app. right. now left.
      * now elim (finite c (invocations c (trace s)) Hi).
    + apply (Hnext _ c); try reflexivity.
      * intros c' [H|H]; inversion H.
      * intros c' [H|H]; inversion H.
    + apply (Hnext _ get_global_api); try reflexivity.
      * intros c' [H|H]; inversion H.
      * intros c' [H|H]; inversion H.
    + apply (Hnext _ get_global_api); try reflexivity.
      * intros c' [H|H]; inversion H.
      * intros c' [H|H]; inversion H.
    + apply (Hnext _ get_global_api); try reflexivity.
      * intros c' [H|H]; inversion H.
      * intros c' [H|H]; inversion H.
Qed.

End FifoBootstrap.

Lemma raised_no_banner (s : state) (c : callee) (x : exn) :
  Inv s -> comp_callee c = true -> In (Raised c x) (trace s) ->
  ~ In (Logged LogAllReady) (trace s).
Proof.
  intros HInv Hc Hin Hb.
  destruct (@raise_view c x s HInv Hc Hin) as [HC _].
  destruct (banner_state HInv Hb) as (_ & HC' & _).
  rewrite HC in HC'. discriminate HC'.
Qed.

(** The run up to the first step of [_init_components]. *)
Lemma bootstrap_run (E : env) :
  outcome_of E get_global_api 0 = Returns ->
  outcome_of E get_global_server 0 = Returns ->
  exists s,
    waiting s /\ queued [] s /\
    forall n, run_fifo E (4 + n) initial =
              run_fifo E n (exec_code E TInitComponents _init_components s).
Proof.
  intros H1 H2.
  destruct (three_steps E H1 H2)
    as (_ & _ & Htr & Hq & _ & HM & HI & HC & HS & Hsvc).
  remember (run_fifo E 3 initial) as s3 eqn:Hs3.
  exists (dequeue TInitComponents s3). split; [|split].
  - unfold waiting. cbn. auto.
  - unfold queued. cbn. rewrite Hq. cbn.
    rewrite !Hsvc by (cbn; tauto). auto.
  - intros n. rewrite run_fifo_plus. change 4 with (3 + 1).
    rewrite run_fifo_plus, <- Hs3.
    assert (Hs : step_task E TInitComponents s3 =
                 Some (exec_code E TInitComponents _init_components
                         (dequeue TInitComponents s3))).
    { unfold step_task, halted, st_of. now rewrite HM, HC. }
    now rewrite (@run_fifo_step E 0 _ _ _ _ Hq Hs).
Qed.

(** X10.  The bootstrap completes.  When the constructor returns, every
    call of the bootstrap returns after finitely many suspensions and the
    services' run loops do not complete, the event loop reaches a state in
    which the success banner is logged, [_init_components] and
    [initialize] have returned and [main] waits in its [gather]; the loop
    is then idle for ever. *)
Theorem bootstrap_completes (E : env) :
  outcome_of E get_global_api 0 = Returns ->
  outcome_of E get_global_server 0 = Returns ->
  (forall c n, In c service_callees -> suspensions E c n = None) ->
  (forall c n, comp_callee c = true -> suspensions E c n <> None) ->
  (forall c n, comp_callee c = true -> outcome_of E c n = Returns) ->
  exists n,
    booted (run_fifo E n initial) /\
    forall m, run_fifo E (n + m) initial = run_fifo E n initial.
Proof.
  intros H1 H2 Hsvc Hfin Hret.
  destruct (bootstrap_run E H1 H2) as (s & HW & HQ & Hrun).
  destruct (@run_comp E Hsvc Hfin _init_components eq_refl s HW (or_introl HQ))
    as (n & [[Hb _]|(c & x & m & Hc & Hout & _)]).
  - exists (4 + n). rewrite Hrun. split; [exact Hb|].
    intros m. rewrite run_fifo_plus, Hrun.
    apply run_fifo_idle. apply Hb.
  - rewrite (Hret c m Hc) in Hout. discriminate Hout.
Qed.

(** X11.  A failing bootstrap ends the process.  When the constructor
    returns, every awaited call of the bootstrap completes after finitely
    many suspensions, the services' run loops do not complete, and some
    bootstrap step never returns normally, the event loop reaches a state
    in which [main] has ended with the exception a bootstrap step raised;
    the success banner was not logged. *)
Theorem bootstrap_failure_ends_main (E : env) (c0 : callee) :
  outcome_of E get_global_api 0 = Returns ->
  outcome_of E get_global_server 0 = Returns ->
  (forall c n, In c service_callees -> suspensions E c n = None) ->
  (forall c n, comp_callee c = true -> suspensions E c n <> None) ->
  In c0 (bootstrap_steps ++ [handle_mai_events_ON_START]) ->
  (forall n, outcome_of E c0 n <> Returns) ->
  exists n c x,
    comp_callee c = true /\
    In (Raised c x) (trace (run_fifo E n initial)) /\
    st_of (run_fifo E n initial) TMain = Finished (Raises x) /\
    ~ In (Logged LogAllReady) (trace (run_fifo E n initial)).
Proof.
  intros H1 H2 Hsvc Hfin Hc0 Hnever.
  destruct (bootstrap_run E H1 H2) as (s & HW & HQ & Hrun).
  destruct (@run_comp E Hsvc Hfin _init_components eq_refl s HW (or_introl HQ))
    as (n & [[_ Hall]|(c & x & m & Hc & Hout & Hin & HM)]).
  - exfalso.
    assert (Hi : exists i, In i _init_components /\ invokes i c0).
    { in_cases Hc0; subst c0;
        first [ eexists; split; [|left; reflexivity]; cbn; tauto
              | eexists; split; [|right; reflexivity]; cbn; tauto ]. }
    destruct Hi as (i & Hi1 & Hi2).
    destruct (Hall c0 i Hi1 Hi2) as (m & Hm). now elim (Hnever m).
  - exists (4 + n), c, x. rewrite Hrun.
    split; [exact Hc|]. split; [exact Hin|]. split; [exact HM|].
    destruct (@run_fifo_exec E (4 + n) initial) as (sched & Hs).
    rewrite <- Hrun, Hs in *.
    exact (@raised_no_banner _ c x (reachable_inv E sched) Hc Hin).
Qed.

(** * The ready queue *)

Lemma effect_more (k k' : list instr) (t : tid) (s1 s' : state) :
  incl k k' -> effect k t s1 s' -> effect k' t s1 s'.
Proof.
  unfold effect. intros Hi [H|[H|[H|(ts & k0 & H1 & H2)]]]; auto.
  right. right. right. exists ts, k0. auto.
Qed.

(** A piece of code writes events and reads the clock, then ends in one
    of four ways. *)
Lemma exec_code_effect (E : env) (t : tid) (k : list instr) :
  forall s, exists s1,
    tasks s1 = tasks s /\ ready s1 = ready s /\
    effect k t s1 (exec_code E t k s).
Proof.
  induction k as [|i k IH]; intros s; cbn [exec_code].
  - exists s. split; [reflexivity|]. split; [reflexivity|]. left. eauto.
  - assert (Hnext : forall s0, tasks s0 = tasks s -> ready s0 = ready s ->
              exists s1, tasks s1 = tasks s /\ ready s1 = ready s /\
                         effect (i :: k) t s1 (exec_code E t k s0)).
    { intros s0 Ht Hr. destruct (IH s0) as (s1 & H1 & H2 & H3).
      exists s1. split; [congruence|]. split; [congruence|].
      apply (@effect_more k); [apply incl_tl, incl_refl|exact H3]. }
    assert (Hend : forall s0 s', tasks s0 = tasks s -> ready s0 = ready s ->
              effect (i :: k) t s0 s' ->
              exists s1, tasks s1 = tasks s /\ ready s1 = ready s /\
                         effect (i :: k) t s1 s').
    { intros s0 s' Ht Hr He. exists s0. auto. }
    destruct i as [c|c|c|ts|m| |].
    + destruct (outcome_of E c _); [now apply Hnext|].
      apply (Hend (emit (Raised c e) (emit (Begin c) s)));
        [reflexivity|reflexivity|]. left. eauto.
    + destruct (suspensions E c _) as [[|n]|].
      * destruct (outcome_of E c _); [now apply Hnext|].
        apply (Hend (emit (Raised c e) (emit (Begin c) s)));
          [reflexivity|reflexivity|]. left. eauto.
      * apply (Hend (emit (Begin c) s)); [reflexivity|reflexivity|].
        right. left. eauto.
      * apply (Hend (emit (Begin c) s)); [reflexivity|reflexivity|].
        right. right. left. eauto.
    + now apply Hnext.
    + apply (Hend s); [reflexivity|reflexivity|].
      right. right. right. exists ts, k. split; [now left|reflexivity].
    + now apply Hnext.
    + now apply Hnext.
    + now apply Hnext.
Qed.

(** A step takes its task from the queue, runs it, and ends in one of the
    four ways. *)
Lemma step_effect (E : env) (t : tid) (s s' : state) :
  step_task E t s = Some s' ->
  exists s1,
    tasks s1 = tasks s /\ ready s1 = remove_first t (ready s) /\
    effect (continuation t (todo (tasks s t))) t s1 s'.
Proof.
  unfold step_task. destruct (halted s); [discriminate|].
  assert (Hcode : forall k s0,
            incl k (continuation t (todo (tasks s t))) ->
            tasks s0 = tasks s -> ready s0 = remove_first t (ready s) ->
            exists s1,
              tasks s1 = tasks s /\ ready s1 = remove_first t (ready s) /\
              effect (continuation t (todo (tasks s t))) t s1
                (exec_code E t k s0)).
  { intros k s0 Hk Ht Hr. destruct (exec_code_effect E t k s0)
      as (s1 & H1 & H2 & H3).
    exists s1. split; [congruence|]. split; [congruence|].
    now apply (@effect_more k). }
  destruct (st_of s t) as [| |c [[|n]|] [|x]|ts [[|x]|]|o];
    try discriminate; intros H; injection H as <-.
  - apply Hcode; [apply in_continuation|reflexivity|reflexivity].
  - apply Hcode; [apply in_continuation|reflexivity|reflexivity].
  - exists (emit (Raised c x) (dequeue t s)).
    split; [reflexivity|]. split; [reflexivity|]. left. eauto.
  - exists (dequeue t s). split; [reflexivity|]. split; [reflexivity|].
    right. left. eauto.
  - exists (dequeue t s). split; [reflexivity|]. split; [reflexivity|].
    right. left. eauto.
  - apply Hcode; [apply incl_refl|reflexivity|reflexivity].
  - exists (dequeue t s). split; [reflexivity|]. split; [reflexivity|].
    left. eauto.
Qed.

Lemma remove_first_in (t u : tid) (q : list tid) :
  In u (remove_first t q) -> In u q.
Proof.
  induction q as [|v q IH]; cbn; [tauto|].
  destruct (tid_eq_dec v t); cbn; tauto.
Qed.

Lemma remove_first_other (t u : tid) (q : list tid) :
  u <> t -> In u q -> In u (remove_first t q).
Proof.
  intros Hu. induction q as [|v q IH]; cbn; [tauto|].
  destruct (tid_eq_dec v t) as [->|]; cbn; intuition congruence.
Qed.

Lemma remove_first_nodup (t : tid) (q : list tid) :
  NoDup q -> NoDup (remove_first t q) /\ ~ In t (remove_first t q).
Proof.
  induction q as [|v q IH]; cbn; intros Hn; [split; [constructor|tauto]|].
  inversion Hn as [|? ? Hv Hq]; subst.
  destruct (tid_eq_dec v t) as [->|Hvt]; [now split|].
  destruct (IH Hq) as [H1 H2]. split.
  - constructor; [|exact H1]. intros Hin. apply Hv.
    now apply remove_first_in in Hin.
  - cbn. intuition.
Qed.

Lemma queue_taken (t : tid) (s s1 : state) :
  queue_inv s -> tasks s1 = tasks s -> ready s1 = remove_first t (ready s) ->
  taken t s1.
Proof.
  intros [Hn Hq] Ht Hr. unfold taken, st_of. rewrite Hr, Ht.
  destruct (remove_first_nodup t Hn) as [H1 H2].
  split; [exact H1|]. split; [exact H2|].
  intros u Hu. rewrite <- (Hq u). split.
  - apply remove_first_in.
  - now apply remove_first_other.
Qed.

Lemma finish_cases (t : tid) (o : outcome) (s : state) :
  finish t o s = set_task t {| st := Finished o; todo := [] |} s \/
  exists p ts r,
    parent t = Some p /\ st_of s p = InGather ts None /\
    finish t o s =
      enqueue p (set_task p {| st := InGather ts (Some r);
                               todo := todo (tasks s p) |}
                   (set_task t {| st := Finished o; todo := [] |} s)).
Proof.
  unfold finish. destruct (parent t) as [p|] eqn:Hp; [|now left].
  assert (Hpt : p <> t) by (destruct t; inversion Hp; discriminate).
  assert (Hst : st_of (set_task t {| st := Finished o; todo := [] |} s) p =
                st_of s p).
  { unfold st_of. cbn. now destruct (tid_eq_dec p t). }
  assert (Hk : todo (tasks (set_task t {| st := Finished o; todo := [] |} s)
                       p) = todo (tasks s p)).
  { cbn. now destruct (tid_eq_dec p t). }
  rewrite Hst, Hk.
  destruct (st_of s p) as [| |? ? ?|ts [r|]|?] eqn:Hsp; try (now left).
  destruct o as [|e]; [destruct (forallb _ ts)|]; try (now left);
    right; exists p, ts; eexists;
    (split; [reflexivity|split; [first [exact Hsp|reflexivity]|reflexivity]]).
Qed.

Lemma spawn_all_ready (ts : list tid) :
  forall s, ready (spawn_all ts s) = ready s ++ ts.
Proof.
  induction ts as [|t ts IH]; intros s; cbn; [now rewrite app_nil_r|].
  rewrite IH. cbn. now rewrite <- app_assoc.
Qed.

Lemma spawn_all_out (ts : list tid) (u : tid) :
  forall s, ~ In u ts -> tasks (spawn_all ts s) u = tasks s u.
Proof.
  induction ts as [|t ts IH]; intros s Hu; cbn [spawn_all]; [reflexivity|].
  rewrite IH by (cbn in Hu; tauto). cbn.
  destruct (tid_eq_dec u t) as [->|]; [|reflexivity].
  elim Hu. now left.
Qed.

Lemma spawn_all_in (ts : list tid) (u : tid) :
  forall s, In u ts ->
            tasks (spawn_all ts s) u = {| st := Runnable; todo := program u |}.
Proof.
  induction ts as [|t ts IH]; intros s Hu; cbn [spawn_all]; [contradiction|].
  destruct (in_dec tid_eq_dec u ts) as [Hin|Hin]; [now apply IH|].
  rewrite spawn_all_out by assumption. cbn.
  destruct Hu as [->|Hu]; [|contradiction].
  now destruct (tid_eq_dec u u).
Qed.

(** A [gather] makes tasks of coroutines that are not running. *)
Lemma spawned_idle (E : env) (t : tid) (s s' : state) (ts : list tid) :
  Inv s -> step_task E t s = Some s' ->
  (forall ts0 x, st_of s t <> InGather ts0 (Some (Raises x))) ->
  In (Gather ts) (continuation t (todo (tasks s t))) ->
  NoDup ts /\ ~ In t ts /\
  forall u, In u ts -> resumable (st_of s u) = false.
Proof.
  intros HInv Hs Hnr Hg.
  destruct (@step_code E _ _ _ HInv Hs) as [_ Hk].
  pose proof (Hk _ Hg) as Hp.
  assert (Hnd : forall a b c : tid, a <> b -> a <> c -> b <> c ->
                                    NoDup [a; b; c]).
  { intros a b c H1 H2 H3. repeat constructor; cbn; intuition. }
  unfold step_task in Hs. destruct (halted s) eqn:Hh; [discriminate|].
  destruct t; cbn in Hp; decompose [or] Hp; try discriminate;
    try contradiction;
    match goal with
    | H : Gather _ = Gather _ |- _ => injection H as <-
    end.
  - (* main *)
    pose proof (inv_main HInv) as Hm. unfold main_inv in Hm.
    split; [repeat constructor; cbn; intuition discriminate|].
    split; [cbn; intuition discriminate|].
    destruct (st_of s TMain) as [| |? ? ?|? ?|?];
      try discriminate; try contradiction.
    + destruct Hm as (_ & HI & HS).
      intros u [<-|[<-|[]]]; [now rewrite HI|now rewrite HS].
    + destruct Hm as (_ & Hk0 & _). rewrite Hk0 in Hg. destruct Hg.
  - (* initialize *)
    pose proof (inv_init HInv) as Hi. unfold init_inv in Hi.
    split; [repeat constructor; cbn; intuition discriminate|].
    split; [cbn; intuition discriminate|].
    destruct (st_of s TInitialize) as [| |? ? ?|? ?|?];
      try discriminate; try contradiction.
    + destruct Hi as (_ & HC & _). intros u [<-|[]]. now rewrite HC.
    + destruct Hi as (_ & Hk0 & _). rewrite Hk0 in Hg. cbn in Hg.
      destruct Hg as [Hg|[]]. discriminate Hg.
  - (* schedule_tasks *)
    pose proof (inv_sched HInv) as Hsc. unfold sched_inv in Hsc.
    split; [repeat constructor; cbn; intuition discriminate|].
    split; [cbn; intuition discriminate|].
    destruct (st_of s TScheduleTasks) as [| |? ? ?|ts1 [[|x1]|]|?];
      try discriminate; try contradiction.
    + destruct Hsc as (_ & H1 & H2 & H3).
      intros u [<-|[<-|[<-|[]]]]; [now rewrite H1|now rewrite H2|now rewrite H3].
    + destruct Hsc as (_ & _ & H1 & H2 & H3).
      intros u [<-|[<-|[<-|[]]]]; [now rewrite H1|now rewrite H2|now rewrite H3].
    + now elim (Hnr ts1 x1).
Qed.

Lemma nodup_app (A : Type) (l1 l2 : list A) :
  NoDup l1 -> NoDup l2 -> (forall a, In a l2 -> ~ In a l1) ->
  NoDup (l1 ++ l2).
Proof.
  induction l1 as [|x l1 IH]; intros H1 H2 H; cbn; [exact H2|].
  inversion H1 as [|? ? Hx Hl]; subst. constructor.
  - intros Hin. apply in_app_or in Hin. destruct Hin as [Hin|Hin];
      [now apply Hx|apply (H x Hin); now left].
  - apply IH; try assumption. intros a Ha Hin. apply (H a Ha). now right.
Qed.

Lemma taken_finish (t : tid) (o : outcome) (s1 : state) :
  taken t s1 -> queue_inv (finish t o s1).
Proof.
  intros (Hn & Ht & Hq).
  destruct (finish_cases t o s1) as [->|(p & ts & r & Hp & Hsp & ->)].
  - split; [exact Hn|]. intros u. unfold st_of. cbn.
    destruct (tid_eq_dec u t) as [->|Hu]; cbn.
    + split; [contradiction|discriminate].
    + apply (Hq u Hu).
  - assert (Hpt : p <> t) by (destruct t; inversion Hp; discriminate).
    assert (Hpn : ~ In p (ready s1)).
    { intros Hin. apply (Hq p Hpt) in Hin. rewrite Hsp in Hin.
      discriminate Hin. }
    split.
    + cbn. apply nodup_app; [exact Hn|repeat constructor; intros []|].
      intros a [<-|[]]. exact Hpn.
    + intros u. unfold st_of. cbn. rewrite in_app_iff. cbn.
      destruct (tid_eq_dec u p) as [->|Hup]; cbn; [tauto|].
      destruct (tid_eq_dec u t) as [->|Hut]; cbn.
      * split; [intros [H|[H|[]]]; [contradiction|congruence]|discriminate].
      * rewrite <- (Hq u Hut). unfold st_of. intuition congruence.
Qed.

Lemma spawn_form_status (t : tid) (ts : list tid) (k : list instr)
      (s1 : state) :
  st_of (spawn_all ts (set_task t {| st := InGather ts None; todo := k |}
                         s1)) t = Runnable \/
  st_of (spawn_all ts (set_task t {| st := InGather ts None; todo := k |}
                         s1)) t = InGather ts None.
Proof.
  unfold st_of. destruct (in_dec tid_eq_dec t ts) as [Hin|Hin].
  - left. now rewrite spawn_all_in.
  - right. rewrite spawn_all_out by assumption. cbn.
    now destruct (tid_eq_dec t t).
Qed.

Lemma spawn_not_raise (E : env) (t : tid) (s s1 : state) (ts : list tid)
      (k : list instr) :
  step_task E t s =
    Some (spawn_all ts (set_task t {| st := InGather ts None; todo := k |}
                          s1)) ->
  forall ts0 x, st_of s t <> InGather ts0 (Some (Raises x)).
Proof.
  intros Hs ts0 x Hst. unfold step_task in Hs.
  destruct (halted s); [discriminate|]. rewrite Hst in Hs.
  injection Hs as Hs.
  pose proof (finish_own t (Raises x) (dequeue t s)) as Hown.
  rewrite Hs in Hown.
  destruct (spawn_form_status t ts k s1) as [H|H]; rewrite H in Hown;
    discriminate Hown.
Qed.

(** Every step keeps the queue in order. *)
Lemma queue_step (E : env) (t : tid) (s s' : state) :
  Inv s -> queue_inv s -> step_task E t s = Some s' -> queue_inv s'.
Proof.
  intros HInv HQ Hs.
  destruct (@step_effect E _ _ _ Hs) as (s1 & Ht & Hr & Heff).
  pose proof (@queue_taken t _ _ HQ Ht Hr) as HT.
  destruct Heff as [(o & ->)|[(c & n & o & k & ->)|[(c & o & k & ->)|
                   (ts & k & Hg & Hs')]]].
  - now apply taken_finish.
  - destruct HT as (Hn & Htn & Hq). split.
    + cbn. apply nodup_app; [exact Hn|repeat constructor; intros []|].
      intros a [<-|[]]. exact Htn.
    + intros u. unfold st_of. cbn. rewrite in_app_iff. cbn.
      destruct (tid_eq_dec u t) as [->|Hu]; cbn; [tauto|].
      rewrite <- (Hq u Hu). unfold st_of. intuition congruence.
  - destruct HT as (Hn & Htn & Hq). split; [exact Hn|].
    intros u. unfold st_of. cbn.
    destruct (tid_eq_dec u t) as [->|Hu]; cbn.
    + split; [contradiction|discriminate].
    + apply (Hq u Hu).
  - subst s'.
    pose proof (@spawn_not_raise E _ _ _ _ _ Hs) as Hnr.
    destruct (@spawned_idle E _ _ _ _ HInv Hs Hnr Hg) as (Hnd & Htts & Hidle).
    destruct HT as (Hn & Htn & Hq). split.
    + rewrite spawn_all_ready. cbn. apply nodup_app; try assumption.
      intros a Ha Hin.
      assert (Hat : a <> t) by (intros ->; contradiction).
      apply (Hq a Hat) in Hin. unfold st_of in Hin. rewrite Ht in Hin.
      specialize (Hidle a Ha). unfold st_of in Hidle. congruence.
    + intros u. rewrite spawn_all_ready, in_app_iff. cbn [ready set_task].
      unfold st_of.
      destruct (in_dec tid_eq_dec u ts) as [Hin|Hin].
      * rewrite spawn_all_in by assumption. cbn. tauto.
      * rewrite spawn_all_out by assumption. cbn.
        destruct (tid_eq_dec u t) as [->|Hu]; cbn.
        -- split; [intros [H|H]; contradiction|discriminate].
        -- rewrite <- (Hq u Hu). unfold st_of. tauto.
Qed.

Lemma exec_queue (E : env) (sched : list tid) :
  forall s, Inv s -> queue_inv s -> queue_inv (exec E sched s).
Proof.
  induction sched as [|t sched IH]; intros s HInv HQ; cbn; [exact HQ|].
  destruct (step_task E t s) as [s1|] eqn:Hs; [|now apply IH].
  apply IH; [exact (@step_inv E _ _ _ HInv Hs)|].
  exact (@queue_step E _ _ _ HInv HQ Hs).
Qed.

Lemma initial_queue : queue_inv initial.
Proof.
  split; [repeat constructor; intros []|].
  intros t. destruct t; cbn; intuition discriminate.
Qed.

(** ** Taking turns *)

Lemma run_fifo_inv (E : env) (n : nat) (s : state) :
  Inv s -> queue_inv s ->
  Inv (run_fifo E n s) /\ queue_inv (run_fifo E n s).
Proof.
  intros HInv HQ. destruct (@run_fifo_exec E n s) as (sched & ->).
  split; [now apply exec_inv|now apply exec_queue].
Qed.

Lemma run_fifo_reach (E : env) (n : nat) :
  Inv (run_fifo E n initial) /\ queue_inv (run_fifo E n initial).
Proof. apply run_fifo_inv; [apply initial_inv|apply initial_queue]. Qed.

(** The task at the head of the queue can be resumed. *)
Lemma fifo_head (E : env) (t : tid) (q : list tid) (s : state) :
  queue_inv s -> halted s = false -> ready s = t :: q ->
  exists s', step_task E t s = Some s'.
Proof.
  intros [_ HQ] Hh Hq.
  assert (Hr : resumable (st_of s t) = true).
  { apply HQ. rewrite Hq. now left. }
  unfold step_task. rewrite Hh.
  destruct (st_of s t) as [| |c [[|n]|] [|x]|ts [[|x]|]|o];
    try discriminate Hr; eauto.
Qed.

Lemma step_ready (E : env) (t : tid) (s s' : state) :
  step_task E t s = Some s' ->
  exists add, ready s' = remove_first t (ready s) ++ add.
Proof.
  intros Hs. destruct (@step_effect E _ _ _ Hs) as (s1 & _ & Hr & Heff).
  rewrite <- Hr.
  destruct Heff as [(o & ->)|[(c & n & o & k & ->)|[(c & o & k & ->)|
                   (ts & k & _ & ->)]]].
  - destruct (finish_cases t o s1) as [->|(p & ts & r & _ & _ & ->)].
    + exists []. cbn. now rewrite app_nil_r.
    + exists [p]. reflexivity.
  - exists [t]. reflexivity.
  - exists []. cbn. now rewrite app_nil_r.
  - exists ts. now rewrite spawn_all_ready.
Qed.

(** A step leaves the other resumable tasks as they are. *)
Lemma step_other_task (E : env) (t u : tid) (s s' : state) :
  Inv s -> step_task E u s = Some s' -> t <> u ->
  resumable (st_of s t) = true -> tasks s' t = tasks s t.
Proof.
  intros HInv Hs Htu Hr.
  destruct (@step_effect E _ _ _ Hs) as (s1 & Ht & _ & Heff).
  destruct Heff as [(o & ->)|[(c & n & o & k & ->)|[(c & o & k & ->)|
                   (ts & k & Hg & Hs')]]].
  - destruct (finish_status u o s1 t) as [H|[[H _]|(ts & r & H & _)]].
    + now rewrite H, Ht.
    + now elim Htu.
    + unfold st_of in *. rewrite Ht in H. rewrite H in Hr. discriminate Hr.
  - cbn. destruct (tid_eq_dec t u); [contradiction|]. now rewrite Ht.
  - cbn. destruct (tid_eq_dec t u); [contradiction|]. now rewrite Ht.
  - subst s'.
    destruct (@spawned_idle E _ _ _ _ HInv Hs
                (@spawn_not_raise E _ _ _ _ _ Hs) Hg)
      as (_ & _ & Hidle).
    rewrite spawn_all_out.
    + cbn. destruct (tid_eq_dec t u); [contradiction|]. now rewrite Ht.
    + intros Hin. rewrite (Hidle t Hin) in Hr. discriminate Hr.
Qed.

Lemma step_not_halting (E : env) (u : tid) (s s' : state) :
  step_task E u s = Some s' -> u <> TMain -> halted s' = false.
Proof.
  intros Hs Hu.
  assert (Hh : halted s = false).
  { unfold step_task in Hs. destruct (halted s); [discriminate|reflexivity]. }
  unfold halted in *.
  destruct (@step_moved E u TMain _ _ Hs)
    as [H|[(H & _)|[(ts & r & _ & H)|(H & _)]]];
    unfold st_of in *; try rewrite H; try assumption; try reflexivity.
  now elim Hu.
Qed.

Lemma split_first (t : tid) (q : list tid) :
  NoDup q -> In t q -> exists q1 q2, q = q1 ++ t :: q2 /\ ~ In t q1.
Proof.
  intros Hn Hin. apply in_split in Hin. destruct Hin as (q1 & q2 & ->).
  exists q1, q2. split; [reflexivity|].
  apply NoDup_remove_2 in Hn. intros H. apply Hn. apply in_or_app. now left.
Qed.

(** In the event loop's order a task in the queue gets its turn, unless
    [main] ends first; until then it stays as it is. *)
Lemma fifo_turn (E : env) (t : tid) (P : state -> Prop) :
  (forall u s s', u <> t -> Inv s -> queue_inv s -> P s ->
                  step_task E u s = Some s' -> P s') ->
  forall q1 q2 s,
    Inv s -> queue_inv s -> P s ->
    ready s = q1 ++ t :: q2 -> ~ In t q1 ->
    exists m s',
      run_fifo E m s = s' /\ Inv s' /\ queue_inv s' /\ P s' /\
      (halted s' = true \/
       (halted s' = false /\ exists q', ready s' = t :: q' /\
                                       tasks s' t = tasks s t)).
Proof.
  intros Hstable. induction q1 as [|u q1 IH]; intros q2 s HInv HQ HP Hq Hn.
  - exists 0, s. cbn. split; [reflexivity|]. split; [exact HInv|]. split; [exact HQ|].
    split; [exact HP|].
    destruct (halted s); [now left|right]. split; [reflexivity|]. eauto.
  - destruct (halted s) eqn:Hh.
    { exists 0, s. cbn. split; [reflexivity|]. split; [exact HInv|]. split; [exact HQ|].
    split; [exact HP|]. now left. }
    cbn in Hq. destruct (@fifo_head E u _ s HQ Hh Hq) as (s1 & Hs).
    assert (Hut : u <> t) by (intros ->; apply Hn; now left).
    assert (Hr : resumable (st_of s t) = true).
    { apply HQ. rewrite Hq. right. apply in_or_app. right. now left. }
    pose proof (@step_other_task E t u _ _ HInv Hs (not_eq_sym Hut) Hr) as Ht.
    destruct (@step_ready E _ _ _ Hs) as (add & Hadd).
    rewrite Hq in Hadd. cbn in Hadd.
    destruct (tid_eq_dec u u) as [_|Hne]; [|now elim Hne].
    rewrite <- app_assoc in Hadd. cbn in Hadd.
    destruct (IH (q2 ++ add) s1) as (m & s' & R1 & R2 & R3 & R4 & R5).
    + exact (@step_inv E _ _ _ HInv Hs).
    + exact (@queue_step E _ _ _ HInv HQ Hs).
    + exact (Hstable u s s1 Hut HInv HQ HP Hs).
    + exact Hadd.
    + intros Hin. apply Hn. now right.
    + exists (S m), s'. cbn [run_fifo]. rewrite Hq, Hs.
      split; [exact R1|]. split; [exact R2|]. split; [exact R3|].
      split; [exact R4|].
      destruct R5 as [R5|(R5 & q' & R6 & R7)]; [now left|right].
      split; [exact R5|]. exists q'. split; [exact R6|congruence].
Qed.

(** ** An exception ends the process *)

Lemma main_pending (E : env) (s : state) (ts : list tid) (r : outcome) :
  Inv s -> queue_inv s -> st_of s TMain = InGather ts (Some r) ->
  exists m, halted (run_fifo E m s) = true.
Proof.
  intros HInv HQ HM.
  assert (Hin : In TMain (ready s)) by (apply HQ; now rewrite HM).
  destruct (@split_first _ _ (proj1 HQ) Hin) as (q1 & q2 & Hq & Hn).
  destruct (@fifo_turn E TMain (fun _ => True) (fun _ _ _ _ _ _ _ _ => I)
              q1 q2 s HInv HQ I Hq Hn)
    as (m & s' & R1 & R2 & R3 & _ & [R5|(R5 & q' & R6 & R7)]).
  - exists m. now rewrite R1.
  - assert (HM' : st_of s' TMain = InGather ts (Some r)).
    { unfold st_of in *. now rewrite R7. }
    pose proof (inv_main R2) as Hm. unfold main_inv in Hm. rewrite HM' in Hm.
    destruct r as [|x]; [destruct Hm as (_ & _ & _ & _ & [])|].
    assert (Hs : step_task E TMain s' =
                 Some (finish TMain (Raises x) (dequeue TMain s'))).
    { unfold step_task. now rewrite R5, HM'. }
    exists (m + 1). rewrite run_fifo_plus, R1. cbn [run_fifo].
    rewrite R6, Hs. unfold halted. now rewrite finish_own.
Qed.

Lemma child_pending (E : env) (s : state) (u : tid) (ts : list tid)
      (x : exn) :
  Inv s -> queue_inv s -> u = TInitialize \/ u = TScheduleTasks ->
  st_of s u = InGather ts (Some (Raises x)) ->
  exists m, halted (run_fifo E m s) = true.
Proof.
  intros HInv HQ Hu HU.
  assert (Hin : In u (ready s)) by (apply HQ; now rewrite HU).
  destruct (@split_first _ _ (proj1 HQ) Hin) as (q1 & q2 & Hq & Hn).
  destruct (@fifo_turn E u (fun _ => True) (fun _ _ _ _ _ _ _ _ => I)
              q1 q2 s HInv HQ I Hq Hn)
    as (m & s' & R1 & R2 & R3 & _ & [R5|(R5 & q' & R6 & R7)]).
  - exists m. now rewrite R1.
  - assert (HU' : st_of s' u = InGather ts (Some (Raises x))).
    { unfold st_of in *. now rewrite R7. }
    assert (Hs : step_task E u s' =
                 Some (finish u (Raises x) (dequeue u s'))).
    { unfold step_task. now rewrite R5, HU'. }
    pose proof (@step_inv E _ _ _ R2 Hs) as HInv2.
    pose proof (@queue_step E _ _ _ R2 R3 Hs) as HQ2.
    pose proof (finish_own u (Raises x) (dequeue u s')) as Hown.
    set (s2 := finish u (Raises x) (dequeue u s')) in *.
    assert (Hrun : forall k, run_fifo E (m + (1 + k)) s = run_fifo E k s2).
    { intros k. rewrite run_fifo_plus, R1, run_fifo_plus. cbn [run_fifo].
      now rewrite R6, Hs. }
    pose proof (inv_main HInv2) as Hm. unfold main_inv in Hm.
    destruct (st_of s2 TMain) as [| |? ? ?|ts' [[|y]|]|[|y]] eqn:HM;
      try contradiction.
    + exfalso. destruct Hm as (_ & HI & HS).
      destruct Hu as [->| ->]; congruence.
    + destruct Hm as (_ & _ & _ & _ & []).
    + destruct (@main_pending E s2 ts' (Raises y) HInv2 HQ2 HM) as (k & Hk).
      exists (m + (1 + k)). now rewrite Hrun.
    + exfalso. destruct Hm as (_ & _ & _ & _ & Hx).
      destruct (Hx x) as [HI HS]. destruct Hu as [->| ->]; contradiction.
    + exists (m + (1 + 0)). rewrite Hrun. cbn. unfold halted. now rewrite HM.
Qed.

(** When a call of the constructor has raised, [main] has ended. *)
Lemma constructor_raise_halts (E : env) (sched : list tid) (c : callee)
      (x : exn) :
  constructor_event (Raised c x) = true ->
  In (Raised c x) (trace (exec E sched initial)) ->
  halted (exec E sched initial) = true.
Proof.
  intros Hc Hin.
  destruct (main_first E sched) as [[H0 _]|(sched' & Hs)].
  { rewrite H0 in Hin. destruct Hin. }
  rewrite Hs in *.
  destruct (main_step_trace E) as [(y & _ & Hh)|[(y & _ & Hh)|(Htr & H1 & H2)]].
  - now rewrite exec_halted.
  - now rewrite exec_halted.
  - exfalso. rewrite <- Hs in Hin.
    destruct (written_by_step E _ sched Hin)
      as (sched0 & t & sched1 & s1 & evs & _ & Hst & Htr1 & Hev).
    pose proof (reachable_inv E sched0) as HInv.
    assert (Ht : t = TMain).
    { apply (@writes_unique _ _ (Raised c x)).
      - exact (@step_writes E _ _ _ _ HInv Hst Htr1 _ Hev).
      - destruct c; try discriminate Hc; reflexivity. }
    subst t.
    destruct (main_first E sched0) as [[H0 _]|(sched0' & Hs0)].
    + rewrite H0 in Hst, Htr1.
      change (step_task E TMain initial) with (Some (main_step E)) in Hst.
      injection Hst as <-. rewrite Htr in Htr1. cbn in Htr1. subst evs.
      unfold main_events in Hev. in_cases Hev; discriminate.
    + pose proof (inv_main HInv) as Hm. unfold main_inv in Hm.
      unfold step_task in Hst.
      destruct (halted (exec E sched0 initial)); [discriminate|].
      destruct (st_of (exec E sched0 initial) TMain)
        as [| |? ? ?|ts [[|y]|]|o] eqn:HM;
        try discriminate; try contradiction.
      * (* main would be new again *)
        destruct Hm as (_ & HI & _). revert HI. rewrite Hs0.
        apply exec_keeps_present. rewrite (main_step_returns E H1 H2).
        discriminate.
      * destruct Hm as (_ & _ & _ & _ & []).
      * injection Hst as <-. rewrite finish_trace in Htr1. cbn in Htr1.
        rewrite <- (app_nil_r (trace _)) in Htr1 at 1.
        apply app_inv_head in Htr1. subst evs. destruct Hev.
Qed.

Lemma svc_callee_cases (c : callee) :
  comp_callee c = false -> constructor_event (Begin c) = false ->
  exists t, In t services /\ svc_callee t = c.
Proof.
  destruct c; try discriminate; intros _ _;
    [exists TEmojiCheck|exists TAppRun|exists TServerRun]; cbn; tauto.
Qed.

(** In the event loop's own order, once a call has raised the run reaches
    a state in which [main] has ended. *)
Lemma raised_halts (E : env) (n : nat) (c : callee) (x : exn) :
  In (Raised c x) (trace (run_fifo E n initial)) ->
  exists m, halted (run_fifo E (n + m) initial) = true.
Proof.
  intros Hin.
  assert (Hgoal : exists m, halted (run_fifo E m (run_fifo E n initial)) = true).
  { destruct (run_fifo_reach E n) as [HInv HQ].
    destruct (halted (run_fifo E n initial)) eqn:Hh; [now exists 0|].
    destruct (@run_fifo_exec E n initial) as (sched & Hs).
    (* what [main] does when one of its two coroutines has failed *)
    assert (Hfail : forall u y, u = TInitialize \/ u = TScheduleTasks ->
              st_of (run_fifo E n initial) u = Finished (Raises y) ->
              exists m, halted (run_fifo E m (run_fifo E n initial)) = true).
    { intros u y Hu HU. pose proof (inv_main HInv) as Hm.
      unfold main_inv in Hm. unfold halted in Hh.
      destruct (st_of (run_fifo E n initial) TMain)
        as [| |? ? ?|ts [[|z]|]|o] eqn:HM;
        try discriminate; try contradiction.
      - exfalso. destruct Hm as (_ & HI & HS).
        destruct Hu as [->| ->]; congruence.
      - destruct Hm as (_ & _ & _ & _ & []).
      - exact (@main_pending E _ ts (Raises z) HInv HQ HM).
      - exfalso. destruct Hm as (_ & _ & _ & _ & Hx).
        destruct (Hx y) as [HI HS]. destruct Hu as [->| ->]; contradiction. }
    destruct (comp_callee c) eqn:Hc.
    - (* a bootstrap step raised *)
      destruct (@raise_view c x _ HInv Hc Hin) as [HC _].
      pose proof (inv_init HInv) as Hi. unfold init_inv in Hi.
      destruct (st_of (run_fifo E n initial) TInitialize)
        as [| |? ? ?|ts [o|]|[|y]] eqn:HI;
        try contradiction.
      + destruct Hi as [Hi _]. congruence.
      + destruct Hi as (_ & Hi & _). congruence.
      + destruct Hi as (_ & _ & _ & Hi). rewrite HC in Hi.
        injection Hi as <-.
        exact (@child_pending E _ TInitialize ts x HInv HQ
                 (or_introl eq_refl) HI).
      + destruct Hi as (_ & _ & _ & Hi). rewrite HC in Hi. destruct Hi.
      + congruence.
      + exact (Hfail TInitialize y (or_introl eq_refl) HI).
    - destruct (constructor_event (Begin c)) eqn:Hk.
      + (* the constructor raised *)
        rewrite Hs in Hin, Hh.
        rewrite (@constructor_raise_halts E sched c x) in Hh;
          [discriminate| |exact Hin].
        destruct c; try discriminate Hk; reflexivity.
      + (* a service raised *)
        destruct (svc_callee_cases c Hc Hk) as (t & Ht & <-).
        rewrite Hs in Hin.
        destruct (@raised_failed E sched t x Ht Hin) as ((x' & Hf) & _).
        destruct (@failure_reaches_sched E sched t x' Ht Hf)
          as (y & [HS|HS] & _); rewrite <- Hs in HS.
        * exact (@child_pending E _ TScheduleTasks services y HInv HQ
                   (or_intror eq_refl) HS).
        * exact (Hfail TScheduleTasks y (or_intror eq_refl) HS). }
  destruct Hgoal as (m & Hm). exists m. now rewrite run_fifo_plus.
Qed.

(** When [main] has ended, it has ended with an exception. *)
Lemma halted_raises (E : env) (sched : list tid) :
  halted (exec E sched initial) = true ->
  exists y, st_of (exec E sched initial) TMain = Finished (Raises y).
Proof.
  unfold halted. pose proof (@main_never_returns E sched) as Hn.
  destruct (st_of (exec E sched initial) TMain) as [| |? ? ?|? ?|[|y]];
    try discriminate; [now elim Hn|]. intros _. now exists y.
Qed.

(** X13.  Any exception ends the process.  In the event loop's own order,
    once a call of a collaborator has raised (in the constructor, in the
    bootstrap or in a service), the run reaches a state in which [main]
    has ended with an exception, and this exception is one that a call of
    a collaborator raised.  It need not be [x]: when several calls raise,
    each gather keeps one exception and drops the others. *)
Theorem exception_ends_process (E : env) (n : nat) (c : callee) (x : exn) :
  In (Raised c x) (trace (run_fifo E n initial)) ->
  exists m y c',
    st_of (run_fifo E (n + m) initial) TMain = Finished (Raises y) /\
    In (Raised c' y) (trace (run_fifo E (n + m) initial)).
Proof.
  intros Hin. destruct (@raised_halts E n c x Hin) as (m & Hm).
  destruct (@run_fifo_exec E (n + m) initial) as (sched & Hs).
  rewrite Hs in *. destruct (@halted_raises E sched Hm) as (y & Hy).
  destruct (@ended_with_raised E sched y Hy) as (c' & Hc').
  exists m, y, c'. rewrite Hs. now split.
Qed.

(** ** The host loop does restart *)

Lemma count_none (p : event -> bool) (evs : list event) :
  (forall ev, In ev evs -> p ev = false) -> count p evs = 0.
Proof.
  induction evs as [|e evs IH]; intros H; [reflexivity|].
  rewrite count_cons, (H e (or_introl eq_refl)). apply IH.
  intros ev Hev. apply H. now right.
Qed.

Lemma gather_of_service (u v : tid) (ts : list tid) :
  In (Gather ts) (program u) -> In v ts -> In v services ->
  u = TScheduleTasks.
Proof.
  intros Hg Hv Hs.
  destruct u; cbn in Hg; decompose [or] Hg; try discriminate;
    try contradiction; try reflexivity;
    match goal with
    | H : Gather _ = Gather _ |- _ => injection H as <-
    end;
    in_cases Hs; subst v; in_cases Hv; discriminate.
Qed.

(** While the three services have returned, only [schedule_tasks] can
    start them again. *)
Lemma returned_stable (E : env) (s0 : state) (u : tid) (s s' : state) :
  u <> TScheduleTasks -> Inv s ->
  all_returned s /\ (forall t, In t services -> starts t s = starts t s0) ->
  step_task E u s = Some s' ->
  all_returned s' /\ (forall t, In t services -> starts t s' = starts t s0).
Proof.
  intros Hu HInv [Hret Hst] Hs.
  assert (Hfin : forall v, In v services -> st_of s v = Finished Returns).
  { destruct Hret as (H1 & H2 & H3).
    intros v [<-|[<-|[<-|[]]]]; assumption. }
  assert (Hnot : ~ In u services).
  { intros Hin. unfold step_task in Hs.
    destruct (halted s); [discriminate|]. rewrite (Hfin u Hin) in Hs.
    discriminate Hs. }
  assert (Hsame : forall v, In v services -> tasks s' v = tasks s v).
  { intros v Hv.
    destruct (@step_moved E u v _ _ Hs)
      as [H|[(H & _)|[(ts & r & H & _)|(_ & _ & ts & Hg & Hin)]]].
    - exact H.
    - subst v. contradiction.
    - rewrite (Hfin v Hv) in H. discriminate H.
    - destruct (@step_code E _ _ _ HInv Hs) as [_ Hk].
      elim Hu. exact (@gather_of_service u v ts (Hk _ Hg) Hin Hv). }
  split.
  - unfold all_returned, st_of in *.
    rewrite !Hsame by (cbn; tauto). exact Hret.
  - intros t Ht. rewrite <- (Hst t Ht).
    destruct (@step_grows E _ _ _ Hs) as (evs & Htr).
    unfold starts. rewrite Htr, count_app.
    rewrite (@count_none (is_created t) evs); [lia|].
    intros ev Hev. destruct (is_created t ev) eqn:Hc; [|reflexivity].
    exfalso. apply Hu.
    apply (@writes_unique _ _ ev);
      [exact (@step_writes E _ _ _ _ HInv Hs Htr _ Hev)|].
    destruct ev as [| | |v| | |]; try discriminate Hc.
    cbn in Hc. unfold tid_eqb in Hc.
    destruct (tid_eq_dec t v) as [<-|]; [|discriminate Hc].
    in_cases Ht; subst t; reflexivity.
Qed.

(** X14.  The host loop does restart.  In the event loop's own order, once
    the three services have all returned, the run reaches a state in which
    either [main] has ended or each of the three services has been started
    once more. *)
Theorem restart_happens (E : env) (n : nat) :
  let s := run_fifo E n initial in
  all_returned s ->
  exists m,
    halted (run_fifo E (n + m) initial) = true \/
    forall t, In t services ->
              starts t (run_fifo E (n + m) initial) = S (starts t s).
Proof.
  intros s Hret. subst s.
  destruct (run_fifo_reach E n) as [HInv HQ].
  destruct (@run_fifo_exec E n initial) as (sched & Hs).
  assert (Hpend : st_of (run_fifo E n initial) TScheduleTasks =
                    InGather services (Some Returns) /\
                  todo (tasks (run_fifo E n initial) TScheduleTasks) = []).
  { rewrite Hs in *. now apply all_returned_pending. }
  destruct Hpend as [HS Hk].
  assert (Hin : In TScheduleTasks (ready (run_fifo E n initial)))
    by (apply HQ; now rewrite HS).
  destruct (@split_first _ _ (proj1 HQ) Hin) as (q1 & q2 & Hq & Hn).
  destruct (@fifo_turn E TScheduleTasks
              (fun s1 => all_returned s1 /\
                         forall t, In t services ->
                                   starts t s1 =
                                   starts t (run_fifo E n initial))
              (fun u s1 s2 Hu HI _ HP Hst =>
                 @returned_stable E (run_fifo E n initial) u s1 s2 Hu HI HP Hst)
              q1 q2 _ HInv HQ (conj Hret (fun t _ => eq_refl)) Hq Hn)
    as (m & s' & R1 & R2 & R3 & [R4 R4'] & [R5|(R5 & q' & R6 & R7)]).
  - exists m. left. now rewrite run_fifo_plus, R1.
  - assert (HS' : st_of s' TScheduleTasks = InGather services (Some Returns)).
    { unfold st_of in *. now rewrite R7. }
    assert (Hk' : todo (tasks s' TScheduleTasks) = []) by now rewrite R7.
    destruct (@restart_step E s' R5 HS' Hk') as (s1 & Hst & _ & _ & Hnew).
    exists (m + 1). right. intros t Ht.
    rewrite run_fifo_plus, run_fifo_plus, R1. cbn [run_fifo].
    rewrite R6, Hst. destruct (Hnew t Ht) as [_ ->]. now rewrite (R4' t Ht).
Qed.

(** ** When the services come first *)

(** Code with an [await] that does not complete at once stops at that
    [await] at the latest. *)
Lemma exec_stops (E : env) (t : tid) (c : callee) :
  (forall k, suspensions E c k <> Some 0) ->
  forall pre post s,
    In (Await c) pre ->
    exists evs,
      trace (exec_code E t (pre ++ post) s) = trace s ++ evs /\
      forall ev, In ev evs -> code_writes pre ev = true.
Proof.
  intros Hc. unfold code_writes.
  assert (Heq : forall a : callee, callee_eqb a a = true).
  { intros a. unfold callee_eqb. now destruct (callee_eq_dec a a). }
  induction pre as [|i pre IH]; intros post s Hin; [destruct Hin|].
  assert (Hnext : forall s1 evs0,
            trace s1 = trace s ++ evs0 ->
            (forall ev, In ev evs0 -> instr_writes i ev = true) ->
            In (Await c) pre ->
            exists evs,
              trace (exec_code E t (pre ++ post) s1) = trace s ++ evs /\
              forall ev, In ev evs ->
                existsb (fun j => instr_writes j ev) (i :: pre) = true).
  { intros s1 evs0 H1 H2 H3. destruct (IH post s1 H3) as (evs & H4 & H5).
    exists (evs0 ++ evs). split; [now rewrite H4, H1, <- app_assoc|].
    intros ev Hev. cbn. apply orb_true_iff. apply in_app_or in Hev.
    destruct Hev as [Hev|Hev]; [left; now apply H2|right; now apply H5]. }
  assert (Hstop : forall evs0 tr,
            tr = trace s ++ evs0 ->
            (forall ev, In ev evs0 -> instr_writes i ev = true) ->
            exists evs,
              tr = trace s ++ evs /\
              forall ev, In ev evs ->
                existsb (fun j => instr_writes j ev) (i :: pre) = true).
  { intros evs0 tr H1 H2. exists evs0. split; [exact H1|].
    intros ev Hev. cbn. apply orb_true_iff. left. now apply H2. }
  assert (Hpre : forall j, Await c <> j -> i = j -> In (Await c) pre).
  { intros j Hj ->. destruct Hin as [H|H]; [congruence|exact H]. }
  cbn [app exec_code]. destruct i as [c'|c'|c'|ts|m| |].
  - destruct (outcome_of E c' _).
    + apply (Hnext _ [Begin c'; End c']);
        [cbn; now rewrite <- app_assoc| |eapply Hpre; [|reflexivity];
                                          discriminate].
      intros ev [<-|[<-|[]]]; cbn; apply Heq.
    + rewrite finish_trace. apply (Hstop [Begin c'; Raised c' e]);
        [cbn; now rewrite <- app_assoc|].
      intros ev [<-|[<-|[]]]; cbn; apply Heq.
  - destruct (suspensions E c' (invocations c' (trace s))) as [[|n]|] eqn:Hs.
    + assert (Hcc : c' <> c) by (intros ->; now elim (Hc _ Hs)).
      destruct (outcome_of E c' _).
      * apply (Hnext _ [Begin c'; End c']);
          [cbn; now rewrite <- app_assoc| |].
        -- intros ev [<-|[<-|[]]]; cbn; apply Heq.
        -- destruct Hin as [H|H]; [|exact H]. injection H as ->.
           now elim Hcc.
      * rewrite finish_trace. apply (Hstop [Begin c'; Raised c' e]);
          [cbn; now rewrite <- app_assoc|].
        intros ev [<-|[<-|[]]]; cbn; apply Heq.
    + apply (Hstop [Begin c']); [reflexivity|].
      intros ev [<-|[]]; cbn; apply Heq.
    + apply (Hstop [Begin c']); [reflexivity|].
      intros ev [<-|[]]; cbn; apply Heq.
  - apply (Hnext _ [Spawned c']);
      [reflexivity| |eapply Hpre; [|reflexivity]; discriminate].
    intros ev [<-|[]]; cbn; apply Heq.
  - rewrite spawn_all_trace. apply (Hstop (map Created ts)); [reflexivity|].
    intros ev Hev. apply in_map_iff in Hev. destruct Hev as (u & <- & Hu).
    cbn. apply existsb_exists. exists u. split; [assumption|].
    unfold tid_eqb. now destruct (tid_eq_dec u u).
  - apply (Hnext _ [Logged m]);
      [reflexivity| |eapply Hpre; [|reflexivity]; discriminate].
    intros ev [<-|[]]; cbn. now destruct (msg_eq_dec m m).
  - apply (Hnext _ []);
      [cbn; now rewrite app_nil_r| |eapply Hpre; [|reflexivity];
                                     discriminate].
    intros ev [].
  - apply (Hnext _ [Elapsed (init_time (clock E (clock_reads s))
                                        (init_start_time s))]);
      [reflexivity| |eapply Hpre; [|reflexivity]; discriminate].
    intros ev [<-|[]]; reflexivity.
Qed.

(** A new service task at the head of the queue enters its run loop. *)
Lemma service_turn (E : env) (t : tid) (q : list tid) (s : state) :
  Inv s -> halted s = false -> ready s = t :: q -> In t services ->
  tasks s t = {| st := Runnable; todo := program t |} ->
  exists s' evs add,
    step_task E t s = Some s' /\
    trace s' = trace s ++ Begin (svc_callee t) :: evs /\
    (forall ev, In ev evs -> writes t ev = true) /\
    ready s' = q ++ add /\ halted s' = false.
Proof.
  intros HInv Hh Hq Ht Hk.
  assert (Hs : step_task E t s =
               Some (exec_code E t [Await (svc_callee t)] (dequeue t s))).
  { unfold step_task, st_of. rewrite Hh, Hk. cbn [st todo].
    in_cases Ht; subst t; reflexivity. }
  destruct (exec_await_first E t (svc_callee t) [] (dequeue t s))
    as (evs & Htr).
  destruct (@step_ready E _ _ _ Hs) as (add & Hadd).
  rewrite Hq in Hadd. cbn in Hadd.
  destruct (tid_eq_dec t t) as [_|Hne]; [|now elim Hne].
  eexists. exists evs, add. split; [exact Hs|]. split; [exact Htr|].
  split; [|split; [exact Hadd|]].
  - intros ev Hev.
    apply (@step_writes E _ _ _ _ HInv Hs Htr). now right.
  - apply (@step_not_halting E t s _ Hs). in_cases Ht; subst t; discriminate.
Qed.

(** The three new services enter their run loops one after the other. *)
Lemma service_round (E : env) (q : list tid) (s : state) :
  Inv s -> halted s = false ->
  ready s = TEmojiCheck :: TAppRun :: TServerRun :: q ->
  (forall t, In t services ->
             tasks s t = {| st := Runnable; todo := program t |}) ->
  exists evs,
    trace (run_fifo E 3 s) = trace s ++ evs /\
    (forall t, In t services -> In (Begin (svc_callee t)) evs) /\
    (forall ev, In ev evs -> exists t, In t services /\ writes t ev = true).
Proof.
  intros HInv Hh Hq Hnew.
  assert (He : In TEmojiCheck services) by (cbn; tauto).
  assert (Ha : In TAppRun services) by (cbn; tauto).
  assert (Hv : In TServerRun services) by (cbn; tauto).
  assert (Hres : forall (s0 : state) t,
            tasks s0 t = {| st := Runnable; todo := program t |} ->
            resumable (st_of s0 t) = true).
  { intros s0 t H. unfold st_of. now rewrite H. }
  destruct (@service_turn E TEmojiCheck _ s HInv Hh Hq He (Hnew _ He))
    as (s1 & evs1 & add1 & S1 & T1 & W1 & Q1 & H1).
  pose proof (@step_inv E _ _ _ HInv S1) as I1.
  assert (Ka : tasks s1 TAppRun = {| st := Runnable; todo := program TAppRun |}).
  { rewrite (@step_other_task E TAppRun TEmojiCheck _ _ HInv S1);
      [now apply Hnew|discriminate|now apply Hres, Hnew]. }
  assert (Kv : tasks s1 TServerRun =
               {| st := Runnable; todo := program TServerRun |}).
  { rewrite (@step_other_task E TServerRun TEmojiCheck _ _ HInv S1);
      [now apply Hnew|discriminate|now apply Hres, Hnew]. }
  cbn in Q1.
  destruct (@service_turn E TAppRun _ s1 I1 H1 Q1 Ha Ka)
    as (s2 & evs2 & add2 & S2 & T2 & W2 & Q2 & H2).
  pose proof (@step_inv E _ _ _ I1 S2) as I2.
  assert (Kv2 : tasks s2 TServerRun =
                {| st := Runnable; todo := program TServerRun |}).
  { rewrite (@step_other_task E TServerRun TAppRun _ _ I1 S2);
      [exact Kv|discriminate|now apply Hres]. }
  cbn in Q2.
  destruct (@service_turn E TServerRun _ s2 I2 H2 Q2 Hv Kv2)
    as (s3 & evs3 & add3 & S3 & T3 & W3 & Q3 & H3).
  exists ((Begin start_periodic_check_register :: evs1) ++
          (Begin app_run :: evs2) ++ (Begin server_run :: evs3)).
  split; [|split].
  - cbn [run_fifo]. rewrite Hq, S1, Q1, S2, Q2, S3, T3, T2, T1.
    cbn [svc_callee]. now rewrite <- !app_assoc.
  - intros t [<-|[<-|[<-|[]]]]; cbn [svc_callee].
    + now left.
    + apply in_or_app. right. now left.
    + apply in_or_app. right. apply in_or_app. right. now left.
  - intros ev Hev. apply in_app_or in Hev.
    destruct Hev as [[<-|Hev]|Hev];
      [exists TEmojiCheck; split; [exact He|reflexivity]
      |exists TEmojiCheck; split; [exact He|now apply W1]|].
    apply in_app_or in Hev.
    destruct Hev as [[<-|Hev]|[<-|Hev]];
      [ exists TAppRun; split; [exact Ha|reflexivity]
      | exists TAppRun; split; [exact Ha|now apply W2]
      | exists TServerRun; split; [exact Hv|reflexivity]
      | exists TServerRun; split; [exact Hv|now apply W3] ].
Qed.

Lemma earlier_trace (E : env) (k j : nat) (s : state) (ev : event) :
  In ev (trace (run_fifo E k s)) -> In ev (trace (run_fifo E (k + j) s)).
Proof.
  intros Hin. rewrite run_fifo_plus.
  destruct (run_fifo_grows E j (run_fifo E k s)) as (evs & ->).
  apply in_or_app. now left.
Qed.

(** The run up to the moment all three services are inside their run
    loops, when an awaited phase-1 call does not complete at once. *)
Lemma services_enter (E : env) (c : callee) :
  outcome_of E get_global_api 0 = Returns ->
  outcome_of E get_global_server 0 = Returns ->
  In c awaited_before_registration ->
  (forall k, suspensions E c k <> Some 0) ->
  exists evs4 evs,
    trace (run_fifo E 7 initial) = (prologue ++ evs4) ++ evs /\
    (forall ev, In ev evs4 -> code_writes phase1_code ev = true) /\
    (forall t, In t services -> In (Begin (svc_callee t)) evs) /\
    (forall ev, In ev evs -> exists t, In t services /\ writes t ev = true).
Proof.
  intros H1 H2 Hc Hsus.
  destruct (three_steps E H1 H2)
    as (_ & _ & Htr & Hq & _ & HM & HI & HC & HS & Hsvc).
  destruct (run_fifo_reach E 3) as [I3 Q3].
  remember (run_fifo E 3 initial) as s3 eqn:Hs3.
  assert (Hawait : In (Await c) phase1_code).
  { in_cases Hc; subst c; cbn; tauto. }
  destruct (@exec_stops E TInitComponents c Hsus phase1_code
              (skipn 11 _init_components) (dequeue TInitComponents s3) Hawait)
    as (evs4 & T4 & W4).
  change (phase1_code ++ skipn 11 _init_components) with _init_components in T4.
  cbn [trace dequeue] in T4. rewrite Htr in T4.
  remember (exec_code E TInitComponents _init_components
              (dequeue TInitComponents s3)) as s4 eqn:Hs4.
  assert (Hstep : step_task E TInitComponents s3 = Some s4).
  { unfold step_task, halted, st_of. now rewrite HM, HC, Hs4. }
  assert (Hrun : forall k, run_fifo E (3 + (1 + k)) initial = run_fifo E k s4).
  { intros k. rewrite run_fifo_plus, <- Hs3, run_fifo_plus.
    cbn [run_fifo]. now rewrite Hq, Hstep. }
  destruct (@step_ready E _ _ _ Hstep) as (add & Hadd).
  rewrite Hq in Hadd. cbn in Hadd.
  destruct (@service_round E add s4) as (evs & R1 & R2 & R3).
  - exact (@step_inv E _ _ _ I3 Hstep).
  - apply (@step_not_halting E TInitComponents s3 _ Hstep). discriminate.
  - exact Hadd.
  - intros t Ht.
    rewrite (@step_other_task E t TInitComponents _ _ I3 Hstep).
    + now apply Hsvc.
    + in_cases Ht; subst t; discriminate.
    + unfold st_of. now rewrite (Hsvc t Ht).
  - exists evs4, evs. change 7 with (3 + (1 + 3)). rewrite Hrun, R1, T4.
    auto.
Qed.

(** X15.  When the services come first.  In the event loop's own order, if
    one of the awaited phase-1 calls (the three [add_task], the start of
    the mood manager, the initialization of the chat manager) does not
    complete at once, then the run loop of every service is entered
    before either message handler is registered. *)
Theorem services_first_on_suspension (E : env) (n : nat) (c svc h : callee) :
  In c awaited_before_registration ->
  (forall k, suspensions E c k <> Some 0) ->
  In svc service_callees -> In h handlers ->
  before (Begin svc) (Begin h) (trace (run_fifo E n initial)).
Proof.
  intros Hc Hsus Hsvc Hh.
  destruct (main_step_trace E)
    as [(x & Htr & Hhalt)|[(x & Htr & Hhalt)|(_ & H1 & H2)]].
  - apply before_absent. destruct n; [intros []|].
    rewrite run_fifo_first, run_fifo_halted, Htr by assumption.
    intros Hin. in_cases Hh; subst h; in_cases Hin; discriminate.
  - apply before_absent. destruct n; [intros []|].
    rewrite run_fifo_first, run_fifo_halted, Htr by assumption.
    intros Hin. in_cases Hh; subst h; in_cases Hin; discriminate.
  - destruct (services_enter E H1 H2 Hc Hsus) as (evs4 & evs & T7 & W4 & B & W).
    assert (Hno : ~ In (Begin h) (trace (run_fifo E 7 initial))).
    { rewrite T7. intros Hin. apply in_app_or in Hin.
      destruct Hin as [Hin|Hin]; [apply in_app_or in Hin;
                                  destruct Hin as [Hin|Hin]|].
      - in_cases Hh; subst h; in_cases Hin; discriminate.
      - apply W4 in Hin. in_cases Hh; subst h; discriminate Hin.
      - destruct (W _ Hin) as (t & Ht & Hw).
        in_cases Hh; subst h; in_cases Ht; subst t; discriminate Hw. }
    destruct (Nat.le_gt_cases n 7) as [Hle|Hgt].
    + apply before_absent. intros Hin. apply Hno.
      replace 7 with (n + (7 - n)) by lia. now apply earlier_trace.
    + replace n with (7 + (n - 7)) by lia. rewrite run_fifo_plus.
      destruct (run_fifo_grows E (n - 7) (run_fifo E 7 initial))
        as (evs' & ->).
      apply before_app_l; [|exact Hno].
      rewrite T7. apply in_or_app. right.
      in_cases Hsvc; subst svc;
        [ apply (B TEmojiCheck) | apply (B TAppRun) | apply (B TServerRun) ];
        cbn; tauto.
Qed.

(** * Execution of phase 1, and which exception ends what *)

(** ** The steps of phase 1 are executed *)

Lemma has_in (ev : event) (l : list event) : has ev l = true <-> In ev l.
Proof.
  unfold has. rewrite existsb_exists. split.
  - intros (e & Hin & He). now destruct (event_eq_dec e ev) as [<-|].
  - intros Hin. exists ev. split; [assumption|].
    now destruct (event_eq_dec ev ev).
Qed.

Lemma has_raised (ev : event) (l : list event) (c : callee) (x : exn) :
  (forall c' x', ev <> Raised c' x') ->
  has ev (l ++ [Raised c x]) = has ev l.
Proof.
  intros Hne. unfold has. rewrite existsb_app. cbn [existsb].
  destruct (event_eq_dec (Raised c x) ev) as [Heq|_];
    [symmetry in Heq; now apply Hne in Heq|].
  now rewrite !orb_false_r.
Qed.

Lemma view_in (ev : event) (tr : list event) :
  (forall ms, ev <> Elapsed ms) -> In ev (view tr) -> In ev tr.
Proof.
  intros Hne H. unfold view in H. apply in_map_iff in H.
  destruct H as (e & He & Hin). apply filter_In in Hin.
  destruct e; cbn in He; subst ev; try tauto. now elim (Hne 0%Z).
Qed.

(** A task that has not run yet still has all its code to run. *)
Lemma runnable_fresh (E : env) (u : tid) (sched : list tid) :
  st_of (exec E sched initial) u = Runnable ->
  todo (tasks (exec E sched initial) u) = program u.
Proof.
  induction sched as [|t sched IH] using rev_ind.
  - destruct u; cbn; intros H; first [reflexivity|discriminate H].
  - rewrite exec_app. cbn.
    destruct (step_task E t (exec E sched initial)) as [s1|] eqn:Hs;
      [|exact IH].
    intros Hr.
    destruct (@step_moved E t u _ _ Hs)
      as [H|[(_ & _ & H)|[(ts & r & _ & H)|(H & _)]]].
    + rewrite H. apply IH. unfold st_of in *. now rewrite <- H.
    + now elim H.
    + unfold st_of in Hr. rewrite H in Hr. discriminate Hr.
    + now rewrite H.
Qed.

(** The events [_init_components] has written: none before it first runs;
    afterwards the events up to a call that has begun, followed by the
    exception if the call raised; all of them once it has returned. *)
Lemma comp_shapes (E : env) (sched : list tid) :
  let s := exec E sched initial in
  match st_of s TInitComponents with
  | Absent | Runnable => view (trace s) = []
  | _ =>
      view (trace s) = canon \/
      exists l, In l begun_shapes /\
                (view (trace s) = l \/
                 exists c x, view (trace s) = l ++ [Raised c x])
  end.
Proof.
  intros s. pose proof (reachable_inv E sched) as HInv. fold s in HInv.
  pose proof (inv_comp HInv) as Hc. unfold comp_inv in Hc.
  pose proof (@runnable_fresh E TInitComponents sched) as Hf. fold s in Hf.
  assert (Hshape : forall done i rest c,
            _init_components = done ++ i :: rest -> invokes i c ->
            In (ok_events done ++ [Begin c]) begun_shapes).
  { intros done i rest c Hd Hi. unfold begun_shapes. apply in_flat_map.
    exists (done, i, rest). split; [now apply splits_complete|].
    destruct Hi as [-> | ->]; now left. }
  destruct (st_of s TInitComponents) as [| |c l o|? ?|[|x]].
  - exact Hc.
  - destruct Hc as (done & Hd & Hv). rewrite Hf in Hd by reflexivity.
    cbn [program] in Hd.
    assert (Hnil : done = []).
    { apply (f_equal (@length instr)) in Hd. rewrite length_app in Hd.
      destruct done; [reflexivity|cbn in Hd; lia]. }
    now rewrite Hv, Hnil.
  - destruct Hc as (done & Hd & Hv). right.
    exists (ok_events done ++ [Begin c]). split; [|now left].
    apply (Hshape done (Await c) (todo (tasks s TInitComponents)) c Hd).
    now right.
  - contradiction.
  - now left.
  - destruct Hc as (done & i & rest & c & Hd & Hi & Hv). right.
    exists (ok_events done ++ [Begin c]).
    split; [exact (Hshape done i rest c Hd Hi)|].
    right. exists c, x. rewrite Hv, <- app_assoc. reflexivity.
Qed.

(** A property checked on every list of events that [_init_components] can
    have written holds of what it has written. *)
Lemma shapes_checked (E : env) (sched : list tid) (p : list event -> bool) :
  let s := exec E sched initial in
  (forall l c x, p (l ++ [Raised c x]) = p l) ->
  shapes_check p = true ->
  st_of s TInitComponents <> Absent -> st_of s TInitComponents <> Runnable ->
  p (view (trace s)) = true.
Proof.
  intros s Hp Hchk Ha Hr. unfold shapes_check in Hchk.
  apply andb_true_iff in Hchk. destruct Hchk as [Hall Hcanon].
  rewrite forallb_forall in Hall.
  pose proof (comp_shapes E sched) as Hs. cbv zeta in Hs. fold s in Hs.
  destruct (st_of s TInitComponents) as [| |c l o|? ?|o];
    try (now elim Ha); try (now elim Hr).
  all: destruct Hs as [-> |(l0 & Hin & [-> |(c0 & x0 & ->)])];
    [exact Hcanon|now apply Hall|rewrite Hp; now apply Hall].
Qed.

(** Once [a] is in the trace, so is [b]. *)
Lemma comp_follows (E : env) (sched : list tid) (a b : event) :
  let s := exec E sched initial in
  comp_event a = true -> erase a = a ->
  (forall c x, a <> Raised c x) -> (forall c x, b <> Raised c x) ->
  (forall ms, b <> Elapsed ms) ->
  shapes_check (fun l => implb (has a l) (has b l)) = true ->
  In a (trace s) -> In b (trace s).
Proof.
  intros s Hca Hea Har Hbr Hbe Hchk Hin.
  apply in_view in Hin; [|assumption|assumption].
  apply view_in; [assumption|].
  pose proof (comp_shapes E sched) as Hs. cbv zeta in Hs. fold s in Hs.
  assert (Hp : implb (has a (view (trace s))) (has b (view (trace s))) = true).
  { apply (@shapes_checked E sched (fun l => implb (has a l) (has b l)));
      [ intros l c x; now rewrite !has_raised | assumption | | ];
      intros H; fold s in H; rewrite H in Hs; rewrite Hs in Hin;
      contradiction. }
  apply has_in in Hin. rewrite Hin in Hp. now apply has_in.
Qed.

(** ** Which exception ends the host loop *)

Lemma first_failure_app (l1 l2 : list event) (y : exn) :
  first_failure l1 = Some y -> first_failure (l1 ++ l2) = Some y.
Proof.
  induction l1 as [|ev l1 IH]; cbn [first_failure app]; [discriminate|].
  destruct ev; try exact IH. destruct (is_svc_raise _); [trivial|exact IH].
Qed.

Lemma first_failure_skip (l1 l2 : list event) :
  has_failure l1 = false -> first_failure (l1 ++ l2) = first_failure l2.
Proof.
  unfold has_failure.
  induction l1 as [|ev l1 IH]; cbn [first_failure app existsb]; [reflexivity|].
  intros H. apply orb_false_iff in H. destruct H as [H1 H2].
  destruct ev; try (now apply IH). rewrite H1. now apply IH.
Qed.

Lemma first_failure_only (l : list event) (c : callee) (y : exn) :
  is_svc_raise (Raised c y) = true -> In (Raised c y) l ->
  (forall c' z, In (Raised c' z) l -> is_svc_raise (Raised c' z) = true ->
                z = y) ->
  first_failure l = Some y.
Proof.
  intros Hc. induction l as [|ev l IH]; intros Hin Hall; [destruct Hin|].
  cbn [first_failure].
  assert (Hrest : first_failure l = Some y \/ ev = Raised c y).
  { destruct Hin as [->|Hin]; [now right|]. left. apply IH; [assumption|].
    intros c' z Hz. apply Hall. now right. }
  destruct ev as [| |c' z| | | |];
    try (destruct Hrest as [H|H]; [exact H|discriminate H]).
  destruct (is_svc_raise (Raised c' z)) eqn:Hs.
  - f_equal. apply (Hall c' z); [now left|assumption].
  - destruct Hrest as [H|H]; [exact H|]. injection H as -> ->. congruence.
Qed.

Lemma raised_once (c : callee) (x y : exn) (tr : list event) :
  count (is_raised c) tr = 1 ->
  In (Raised c x) tr -> In (Raised c y) tr -> x = y.
Proof.
  unfold count. intros H Hx Hy.
  assert (Hp : forall z, is_raised c (Raised c z) = true).
  { intros z. cbn. unfold callee_eqb. now destruct (callee_eq_dec c c). }
  assert (Hfx : In (Raised c x) (filter (is_raised c) tr))
    by (apply filter_In; auto).
  assert (Hfy : In (Raised c y) (filter (is_raised c) tr))
    by (apply filter_In; auto).
  destruct (filter (is_raised c) tr) as [|e [|e' l]]; try discriminate H.
  destruct Hfx as [->|[]]. destruct Hfy as [Hfy|[]]. now injection Hfy.
Qed.

(** No service has raised while the gather of [schedule_tasks] has no
    result. *)
Lemma quiet_gather (s : state) (ts : list tid) :
  Inv s -> st_of s TScheduleTasks = InGather ts None ->
  has_failure (trace s) = false.
Proof.
  intros HInv HS. pose proof (inv_sched HInv) as Hs.
  unfold sched_inv in Hs. rewrite HS in Hs.
  destruct Hs as (_ & _ & Hn & _).
  assert (Hz : forall t, In t services -> raises_of t s = 0).
  { intros t Ht.
    assert (Hv : svc_inv s t).
    { in_cases Ht; subst t;
        [exact (inv_emoji HInv)|exact (inv_app HInv)|exact (inv_server HInv)]. }
    unfold svc_inv in Hv.
    destruct (st_of s t) as [| |? ? ?|? ?|[|x]] eqn:Hst;
      try contradiction; try lia.
    exfalso. destruct (Hn x) as (H1 & H2 & H3).
    in_cases Ht; subst t; contradiction. }
  destruct (has_failure (trace s)) eqn:Hf; [|reflexivity].
  apply has_failure_raises in Hf.
  assert (H1 : raises_of TEmojiCheck s = 0) by (apply Hz; cbn; tauto).
  assert (H2 : raises_of TAppRun s = 0) by (apply Hz; cbn; tauto).
  assert (H3 : raises_of TServerRun s = 0) by (apply Hz; cbn; tauto).
  unfold raises_of in *. cbn [svc_callee] in *. lia.
Qed.

Lemma svc_raise_callee (c : callee) (x : exn) :
  is_svc_raise (Raised c x) = true ->
  exists t, In t services /\ c = svc_callee t.
Proof.
  destruct c; try discriminate; intros _;
    [exists TEmojiCheck|exists TAppRun|exists TServerRun]; cbn; tauto.
Qed.

(** The gather of [schedule_tasks] holds, and [schedule_tasks] ends with,
    the exception of the service that raised first. *)
Lemma first_failure_kept (E : env) (sched : list tid) :
  forall ts y,
    st_of (exec E sched initial) TScheduleTasks = InGather ts (Some (Raises y)) \/
    st_of (exec E sched initial) TScheduleTasks = Finished (Raises y) ->
    first_failure (trace (exec E sched initial)) = Some y.
Proof.
  induction sched as [|t sched IH] using rev_ind.
  - intros ts y [H|H]; discriminate H.
  - rewrite exec_app. cbn [exec].
    destruct (step_task E t (exec E sched initial)) as [s1|] eqn:Hstep;
      [|exact IH].
    pose proof (reachable_inv E sched) as HInv.
    pose proof (@step_inv E _ _ _ HInv Hstep) as HInv1.
    remember (exec E sched initial) as s eqn:Hs.
    destruct (@step_grows E _ _ _ Hstep) as (evs & Htr).
    intros ts y Hy.
    destruct (@step_moved E t TScheduleTasks _ _ Hstep)
      as [H|[(<- & _)|[(ts0 & r & H0 & H1)|(H & _)]]].
    + (* the task of schedule_tasks has not changed *)
      rewrite Htr. apply first_failure_app. apply (IH ts y).
      unfold st_of in *. now rewrite <- H.
    + (* schedule_tasks itself has run *)
      pose proof (inv_sched HInv) as Hi. unfold sched_inv in Hi.
      unfold step_task in Hstep.
      destruct (halted s); [discriminate|].
      destruct (st_of s TScheduleTasks) as [| |? ? ?|ts' [[|e]|]|o] eqn:HS;
        try discriminate; try contradiction.
      * destruct Hi as [Hi _]. rewrite Hi in Hstep.
        injection Hstep as <-. exfalso.
        destruct Hy as [Hy|Hy]; cbn in Hy; discriminate Hy.
      * destruct Hi as (_ & Hi & _). rewrite Hi in Hstep.
        injection Hstep as <-. exfalso.
        destruct Hy as [Hy|Hy]; cbn in Hy; discriminate Hy.
      * injection Hstep as <-. rewrite finish_trace. cbn [trace dequeue].
        assert (He : e = y).
        { destruct Hy as [Hy|Hy]; unfold finish, st_of in Hy; cbn in Hy.
          - destruct (st (tasks s TMain)) as [| |? ? ?|? [?|]|?];
              cbn in Hy; discriminate Hy.
          - destruct (st (tasks s TMain)) as [| |? ? ?|? [?|]|?];
              cbn in Hy; now injection Hy. }
        subst e. apply (IH ts'). now left.
    + (* a service has raised and the gather takes its exception *)
      assert (Hr : r = Raises y).
      { unfold st_of in Hy. rewrite H1 in Hy. cbn in Hy.
        destruct Hy as [Hy|Hy]; [now injection Hy|discriminate Hy]. }
      subst r.
      pose proof (@quiet_gather _ _ HInv H0) as Hq.
      rewrite Htr, first_failure_skip by assumption.
      pose proof (inv_sched HInv1) as Hi. unfold sched_inv in Hi.
      unfold st_of in Hi. rewrite H1 in Hi. cbn in Hi.
      destruct Hi as (_ & _ & Hf).
      assert (Hsvc : exists t', In t' services /\
                                st_of s1 t' = Finished (Raises y)).
      { destruct Hf as [Hf|[Hf|Hf]];
          [exists TEmojiCheck|exists TAppRun|exists TServerRun];
          (split; [cbn; tauto|exact Hf]). }
      destruct Hsvc as (t' & Ht' & Hst').
      assert (Hv : svc_inv s1 t').
      { in_cases Ht'; subst t';
          [exact (inv_emoji HInv1)|exact (inv_app HInv1)
          |exact (inv_server HInv1)]. }
      unfold svc_inv in Hv. rewrite Hst' in Hv.
      destruct Hv as (_ & _ & Hone & Hin).
      assert (Hnew : forall c z, In (Raised c z) (trace s1) ->
                                 is_svc_raise (Raised c z) = true ->
                                 In (Raised c z) evs).
      { intros c z Hz Hc. rewrite Htr in Hz. apply in_app_or in Hz.
        destruct Hz as [Hz|Hz]; [|exact Hz]. exfalso.
        assert (Hh : has_failure (trace s) = true).
        { unfold has_failure. apply existsb_exists. now exists (Raised c z). }
        congruence. }
      assert (Hsr : is_svc_raise (Raised (svc_callee t') y) = true)
        by (in_cases Ht'; subst t'; reflexivity).
      assert (Ht : t = t').
      { apply (@writes_unique _ _ (Raised (svc_callee t') y)).
        - apply (@step_writes E _ _ _ _ HInv Hstep Htr). now apply Hnew.
        - in_cases Ht'; subst t'; reflexivity. }
      subst t'.
      apply (@first_failure_only _ (svc_callee t) y Hsr);
        [now apply Hnew|].
      intros c z Hz Hc.
      assert (Hw : writes t (Raised c z) = true)
        by exact (@step_writes E _ _ _ _ HInv Hstep Htr _ Hz).
      assert (Hcc : c = svc_callee t).
      { destruct (svc_raise_callee _ _ Hc) as (u & Hu & ->).
        f_equal. symmetry.
        apply (@writes_unique _ _ (Raised (svc_callee u) z));
          [exact Hw|in_cases Hu; subst u; reflexivity]. }
      subst c. apply (@raised_once (svc_callee t) z y (trace s1));
        [exact Hone| |exact Hin].
      rewrite Htr. apply in_or_app. now right.
    + (* a new task is never that of schedule_tasks with a result *)
      unfold st_of in Hy. rewrite H in Hy. cbn in Hy.
      destruct Hy as [Hy|Hy]; discriminate Hy.
Qed.

(** ** The events of phase 1 *)

Lemma filter_view (q : event -> bool) (tr : list event) :
  (forall ev, q ev = true -> comp_event ev = true /\ erase ev = ev) ->
  (forall ms, q (Elapsed ms) = false) ->
  filter q (view tr) = filter q tr.
Proof.
  intros Hq He. unfold view.
  induction tr as [|ev tr IH]; cbn [filter map]; [reflexivity|].
  destruct (q ev) eqn:Hev.
  - destruct (Hq ev Hev) as [Hc Her]. rewrite Hc. cbn [map filter].
    rewrite Her, Hev. now f_equal.
  - destruct (comp_event ev); [|exact IH]. cbn [map filter].
    assert (Hqe : q (erase ev) = false).
    { destruct ev; cbn [erase]; try exact Hev. apply He. }
    now rewrite Hqe.
Qed.

(** C9.  The phase-1 initializations are executed strictly one after
    another, in the order of the source.  Order: each begins only after
    the previous ones have returned, each returns only after it began, and
    the auto-save side task is launched only after the chat manager's
    initialization returned.  Execution: the first one has begun once
    [_init_components] has first run; once one of them has returned the
    next one has begun, and once the chat manager's initialization has
    returned the auto-save task has been launched (no scheduler step lies
    in between); and when [_init_components] has returned, the events of
    phase 1 in the trace are exactly the eight calls, each begun and
    returned once, in the order of the source, followed by the launch. *)
Theorem phase1_sequential (E : env) (sched : list tid) :
  let s := exec E sched initial in
  (forall i j a b,
     i < j -> nth_error phase1 i = Some a -> nth_error phase1 j = Some b ->
     before (End a) (Begin b) (trace s)) /\
  (forall a, In a phase1 -> before (Begin a) (End a) (trace s)) /\
  before (End chat_manager_initialize) (Spawned chat_manager_auto_save_task)
    (trace s) /\
  (st_of s TInitComponents <> Absent -> st_of s TInitComponents <> Runnable ->
   In (Begin add_task_OnlineTimeRecordTask) (trace s)) /\
  (forall i a b,
     nth_error phase1 i = Some a -> nth_error phase1 (S i) = Some b ->
     In (End a) (trace s) -> In (Begin b) (trace s)) /\
  (In (End chat_manager_initialize) (trace s) ->
   In (Spawned chat_manager_auto_save_task) (trace s)) /\
  (st_of s TInitComponents = Finished Returns ->
   filter (fun ev => has ev phase1_events) (trace s) = phase1_events).
Proof.
  intros s. split; [exact (@phase1_order E sched)|]. split; [|split].
  - intros a Ha. in_cases Ha; subst a.
    all: apply comp_order;
      [ apply reachable_inv | reflexivity | reflexivity
      | intros ev; destruct ev; cbn; congruence | discriminate
      | vm_compute; reflexivity ].
  - apply comp_order;
      [ apply reachable_inv | reflexivity | reflexivity
      | intros ev; destruct ev; cbn; congruence | discriminate
      | vm_compute; reflexivity ].
  - split; [|split; [|split]].
    + intros Ha Hr. apply view_in; [discriminate|]. apply has_in.
      apply (@shapes_checked E sched
               (fun l => has (Begin add_task_OnlineTimeRecordTask) l));
        [ intros l c x; apply has_raised; discriminate
        | vm_compute; reflexivity | exact Ha | exact Hr ].
    + intros i a b Hi Hj.
      do 8 (try destruct i as [|i]); cbn in Hi, Hj; try discriminate Hj;
        injection Hi as <-; injection Hj as <-;
        (apply comp_follows;
         [ reflexivity | reflexivity | discriminate | discriminate
         | discriminate | vm_compute; reflexivity ]).
    + apply comp_follows;
        [ reflexivity | reflexivity | discriminate | discriminate
        | discriminate | vm_compute; reflexivity ].
    + intros HC. rewrite <- filter_view.
      * pose proof (inv_comp (reachable_inv E sched)) as Hc.
        fold s in Hc. unfold comp_inv in Hc. rewrite HC in Hc.
        rewrite Hc. vm_compute. reflexivity.
      * intros ev Hev. apply has_in in Hev. in_cases Hev; subst ev;
          split; reflexivity.
      * intros ms. reflexivity.
Qed.

(** With two services raising, [schedule_tasks] ends with the exception of
    the one that raised first; the exception of the other is dropped. *)
Lemma later_service_error_is_dropped : ~ service_error_leaves_loop.
Proof.
  intros H.
  assert (H12 : 1 = 2); [|discriminate H12].
  apply (H two_services_fail 9 TServerRun 2 1).
  - cbn. tauto.
  - vm_compute. tauto.
  - vm_compute. reflexivity.
Qed.

(** C10, amended.  When a service task raises, the gather of
    [schedule_tasks] holds the exception of the service that raised first,
    and [schedule_tasks] ends with it as soon as it is resumed, instead of
    looping: it is the exception of this service when this one raised
    first, and otherwise this one is dropped.  The failed service was in
    the last cohort ever started, and in no reachable trace is a service
    task made after a service has raised. *)
Theorem service_exception_ends_loop (E : env) (sched : list tid)
        (t : tid) (x : exn) :
  let s := exec E sched initial in
  In t services -> In (Raised (svc_callee t) x) (trace s) ->
  (exists y,
     (st_of s TScheduleTasks = InGather services (Some (Raises y)) \/
      st_of s TScheduleTasks = Finished (Raises y)) /\
     failed_with s y /\
     first_failure (trace s) = Some y) /\
  (first_failure (trace s) = Some x ->
   st_of s TScheduleTasks = InGather services (Some (Raises x)) \/
   st_of s TScheduleTasks = Finished (Raises x)) /\
  (forall y, halted s = false ->
     st_of s TScheduleTasks = InGather services (Some (Raises y)) ->
     exists s1, step_task E TScheduleTasks s = Some s1 /\
                st_of s1 TScheduleTasks = Finished (Raises y)) /\
  (raises_of t s = 1 /\ starts t s = S (returns_of t s)) /\
  (forall l1 l2 c y t',
     trace s = l1 ++ Raised c y :: l2 ->
     is_svc_raise (Raised c y) = true -> In t' services ->
     ~ In (Created t') l2).
Proof.
  intros s Ht Hr.
  destruct (@raised_failed E sched t x Ht Hr) as ((x' & Hf) & Hcount).
  destruct (@failure_reaches_sched E sched t x' Ht Hf) as (y & Hy & Hfy).
  fold s in Hy, Hfy.
  assert (Hfirst : first_failure (trace s) = Some y)
    by exact (@first_failure_kept E sched services y Hy).
  split; [now exists y|]. split; [|split; [|split]].
  - intros Hx. rewrite Hx in Hfirst. injection Hfirst as ->. exact Hy.
  - intros z Hh Hs. now apply resume_with_exception with (ts := services).
  - exact Hcount.
  - intros l1 l2 c z t' Htr Hc Ht'.
    apply late_starts_spec with (tr := trace s) (l1 := l1) (c := c) (x := z);
      try assumption.
    apply (inv_quiet (reachable_inv E sched)).
Qed.

(** With the control server raising before the migration step does, [main]
    ends with the exception of the server; that of the migration is
    dropped. *)
Lemma migration_error_can_be_dropped : ~ migration_error_leaves_main.
Proof.
  intros H.
  assert (H75 : 7 = 5); [|discriminate H75].
  apply (H server_then_migration 11 5).
  - vm_compute. tauto.
  - vm_compute. reflexivity.
Qed.

(** C3, amended.  ON_START is emitted only after every phase-1
    initialization, both handler registrations and the migration step have
    returned.  When the migration step raises, ON_START is never emitted
    and the success banner is never logged; the exception is the result of
    [_init_components] and of the gather of [initialize], which ends with
    it as soon as it is resumed; the gather of [main] then holds an
    exception, which is this one unless [schedule_tasks] had already
    raised, and [main] ends with it as soon as it is resumed; [main] never
    returns normally.  In the event loop's own order the run does reach a
    state in which [main] has ended with an exception: that of the
    migration, or that of [schedule_tasks]. *)
Theorem on_start_only_after_bootstrap (E : env) (sched : list tid)
        (n : nat) :
  let s := exec E sched initial in
  (forall c, In c bootstrap_steps ->
             before (End c) (Begin handle_mai_events_ON_START) (trace s)) /\
  (forall x, In (Raised check_and_run_migrations x) (trace s) ->
     ~ In (Begin handle_mai_events_ON_START) (trace s) /\
     ~ In (Logged LogAllReady) (trace s) /\
     st_of s TInitComponents = Finished (Raises x) /\
     (st_of s TInitialize = InGather [TInitComponents] (Some (Raises x)) \/
      st_of s TInitialize = Finished (Raises x)) /\
     (halted s = false ->
      st_of s TInitialize = InGather [TInitComponents] (Some (Raises x)) ->
      exists s1, step_task E TInitialize s = Some s1 /\
                 st_of s1 TInitialize = Finished (Raises x)) /\
     (st_of s TInitialize = Finished (Raises x) ->
      exists y,
        (st_of s TMain =
           InGather [TInitialize; TScheduleTasks] (Some (Raises y)) \/
         st_of s TMain = Finished (Raises y)) /\
        (y = x \/ st_of s TScheduleTasks = Finished (Raises y))) /\
     (forall y,
        st_of s TMain =
          InGather [TInitialize; TScheduleTasks] (Some (Raises y)) ->
        exists s1, step_task E TMain s = Some s1 /\
                   st_of s1 TMain = Finished (Raises y)) /\
     st_of s TMain <> Finished Returns) /\
  (forall x,
     In (Raised check_and_run_migrations x) (trace (run_fifo E n initial)) ->
     exists m y,
       st_of (run_fifo E (n + m) initial) TMain = Finished (Raises y) /\
       (y = x \/
        st_of (run_fifo E (n + m) initial) TScheduleTasks =
          Finished (Raises y))).
Proof.
  intros s.
  assert (Hmig : In check_and_run_migrations bootstrap_steps)
    by (cbn; tauto).
  split; [exact (@steps_before_start E sched)|]. split.
  - intros x Hr.
    destruct (@raise_aborts E sched _ _ Hmig Hr) as (HC & Hno & _).
    destruct (@comp_failure_propagates E sched _ HC) as (HI & Hlog).
    fold s in HC, Hno, HI, Hlog.
    split; [exact Hno|]. split; [exact Hlog|]. split; [exact HC|].
    split; [exact HI|]. split; [|split; [|split]].
    + intros Hh Hg.
      now apply resume_with_exception with (ts := [TInitComponents]).
    + apply init_failure_propagates.
    + intros y HM.
      apply resume_with_exception with (ts := [TInitialize; TScheduleTasks]);
        [|assumption].
      unfold halted. now rewrite HM.
    + apply main_never_returns.
  - intros x Hr. destruct (@raised_halts E n _ x Hr) as (m & Hm).
    apply (@earlier_trace E n m) in Hr.
    destruct (@run_fifo_exec E (n + m) initial) as (sched' & Hs).
    rewrite Hs in *. destruct (@halted_raises E sched' Hm) as (y & Hy).
    exists m, y. rewrite Hs. split; [exact Hy|].
    destruct (@raise_aborts E sched' _ _ Hmig Hr) as (HC & _).
    pose proof (reachable_inv E sched') as HInv.
    pose proof (inv_main HInv) as Hmn. unfold main_inv in Hmn.
    rewrite Hy in Hmn.
    pose proof (inv_init HInv) as Hi. unfold init_inv in Hi.
    destruct Hmn as [[HI _]|[HI|HS]]; [| |now right].
    + rewrite HI in Hi. destruct Hi as [Hi _]. congruence.
    + rewrite HI in Hi. destruct Hi as [Hi _]. left. congruence.
Qed.

(** * The further properties at concrete runs *)

Lemma constructor_failure_ends_main_witness :
  In TMain first_round /\
  outcome_of api_fails get_global_api 0 = Raises 9 /\
  st_of (exec api_fails first_round initial) TMain = Finished (Raises 9).
Proof.
  assert (H1 : In TMain first_round) by (cbn; tauto).
  split; [exact H1|]. split; [reflexivity|].
  exact (proj1 (proj2 (proj1 (constructor_failure_ends_main api_fails
                                first_round 9 H1) eq_refl))).
Defined.

Lemma constructor_runs_first_witness :
  constructor_event (Begin app_run) = false /\
  before (End get_global_server) (Begin app_run)
    (trace (exec all_prompt first_round initial)).
Proof.
  split; [reflexivity|].
  exact (proj2 (@constructor_runs_first all_prompt first_round
                  (Begin app_run) eq_refl)).
Defined.

Lemma banners_bracket_bootstrap_witness :
  comp_event (Begin lpmm_start_up) = true /\
  before (Logged LogWaking) (Begin lpmm_start_up)
    (trace (exec all_prompt first_round initial)).
Proof.
  split; [reflexivity|].
  exact (proj1 (banners_bracket_bootstrap all_prompt first_round)
           (Begin lpmm_start_up) eq_refl).
Defined.

Lemma bootstrap_runs_once_witness :
  comp_callee register_message_handler = true /\
  invocations register_message_handler
    (trace (exec services_return second_round initial)) <= 1.
Proof.
  split; [reflexivity|].
  exact (proj2 (bootstrap_runs_once services_return second_round)
           register_message_handler eq_refl).
Defined.

Lemma main_exception_was_raised_witness :
  st_of (exec chat_init_fails second_round initial) TMain =
    Finished (Raises 4) /\
  exists c, In (Raised c 4) (trace (exec chat_init_fails second_round initial)).
Proof.
  assert (H : st_of (exec chat_init_fails second_round initial) TMain =
              Finished (Raises 4)) by (vm_compute; reflexivity).
  split; [exact H|].
  exact (@main_exception_was_raised chat_init_fails second_round 4 H).
Defined.

Lemma first_exception_wins_witness :
  st_of (exec chat_init_fails (first_round ++ [TInitialize]) initial) TMain =
    InGather [TInitialize; TScheduleTasks] (Some (Raises 4)) /\
  (st_of (exec chat_init_fails ((first_round ++ [TInitialize]) ++ [TMain])
            initial) TMain =
     InGather [TInitialize; TScheduleTasks] (Some (Raises 4)) \/
   st_of (exec chat_init_fails ((first_round ++ [TInitialize]) ++ [TMain])
            initial) TMain = Finished (Raises 4)).
Proof.
  assert (H : st_of (exec chat_init_fails (first_round ++ [TInitialize])
                       initial) TMain =
              InGather [TInitialize; TScheduleTasks] (Some (Raises 4)))
    by (vm_compute; reflexivity).
  split; [exact H|].
  exact (@first_exception_wins chat_init_fails (first_round ++ [TInitialize])
           [TMain] [TInitialize; TScheduleTasks] 4 H).
Defined.

Lemma elapsed_time_reported_witness :
  In (Elapsed 1000) (trace (exec all_prompt first_round initial)) /\
  1000%Z = init_time (clock all_prompt 1) (clock all_prompt 0).
Proof.
  assert (H : In (Elapsed 1000) (trace (exec all_prompt first_round initial)))
    by (vm_compute; tauto).
  split; [exact H|].
  exact (proj1 (proj2 (elapsed_time_reported all_prompt first_round))
           1000%Z H).
Defined.

Lemma bootstrap_starts_first_witness :
  In app_run service_callees /\
  before (Begin add_task_OnlineTimeRecordTask) (Begin app_run)
    (trace (run_fifo mood_suspends_once 8 initial)).
Proof.
  assert (H : In app_run service_callees) by (cbn; tauto).
  split; [exact H|].
  exact (@bootstrap_starts_first mood_suspends_once 8 app_run H).
Defined.

Lemma bootstrap_completes_witness :
  outcome_of all_prompt get_global_api 0 = Returns /\
  exists n,
    booted (run_fifo all_prompt n initial) /\
    forall m, run_fifo all_prompt (n + m) initial = run_fifo all_prompt n initial.
Proof.
  split; [reflexivity|].
  apply bootstrap_completes.
  - reflexivity.
  - reflexivity.
  - intros c n Hc. in_cases Hc; subst c; reflexivity.
  - intros c n Hc. destruct c; try discriminate Hc; discriminate.
  - intros c n Hc. reflexivity.
Defined.

Lemma bootstrap_failure_ends_main_witness :
  In check_and_run_migrations
     (bootstrap_steps ++ [handle_mai_events_ON_START]) /\
  exists n c x,
    comp_callee c = true /\
    In (Raised c x) (trace (run_fifo migration_fails n initial)) /\
    st_of (run_fifo migration_fails n initial) TMain = Finished (Raises x) /\
    ~ In (Logged LogAllReady) (trace (run_fifo migration_fails n initial)).
Proof.
  assert (H : In check_and_run_migrations
                 (bootstrap_steps ++ [handle_mai_events_ON_START]))
    by (cbn; tauto).
  split; [exact H|].
  apply (@bootstrap_failure_ends_main migration_fails check_and_run_migrations).
  - reflexivity.
  - reflexivity.
  - intros c n Hc. in_cases Hc; subst c; reflexivity.
  - intros c n Hc. destruct c; try discriminate Hc; discriminate.
  - exact H.
  - intros n. discriminate.
Defined.

Lemma restart_happens_witness :
  all_returned (run_fifo services_return 7 initial) /\
  exists m,
    halted (run_fifo services_return (7 + m) initial) = true \/
    forall t, In t services ->
              starts t (run_fifo services_return (7 + m) initial) =
              S (starts t (run_fifo services_return 7 initial)).
Proof.
  assert (H : all_returned (run_fifo services_return 7 initial))
    by (vm_compute; auto).
  split; [exact H|].
  exact (@restart_happens services_return 7 H).
Defined.

Lemma services_first_on_suspension_witness :
  In mood_manager_start awaited_before_registration /\
  (forall k, suspensions mood_suspends_once mood_manager_start k <> Some 0) /\
  In app_run service_callees /\ In register_message_handler handlers /\
  before (Begin app_run) (Begin register_message_handler)
    (trace (run_fifo mood_suspends_once 10 initial)).
Proof.
  assert (H1 : In mood_manager_start awaited_before_registration)
    by (cbn; tauto).
  assert (H2 : forall k, suspensions mood_suspends_once mood_manager_start k
                         <> Some 0) by (intros k; discriminate).
  assert (H3 : In app_run service_callees) by (cbn; tauto).
  assert (H4 : In register_message_handler handlers) by (cbn; tauto).
  split; [exact H1|]. split; [exact H2|]. split; [exact H3|].
  split; [exact H4|].
  exact (@services_first_on_suspension mood_suspends_once 10
           mood_manager_start app_run register_message_handler H1 H2 H3 H4).
Defined.

Lemma exception_ends_process_witness :
  In (Raised check_and_run_migrations 5)
     (trace (run_fifo migration_fails 4 initial)) /\
  exists m y c',
    st_of (run_fifo migration_fails (4 + m) initial) TMain =
      Finished (Raises y) /\
    In (Raised c' y) (trace (run_fifo migration_fails (4 + m) initial)).
Proof.
  assert (H : In (Raised check_and_run_migrations 5)
                 (trace (run_fifo migration_fails 4 initial)))
    by (vm_compute; tauto).
  split; [exact H|].
  exact (@exception_ends_process migration_fails 4
           check_and_run_migrations 5 H).
Defined.

Lemma phase1_sequential_witness :
  let s := exec all_prompt first_round initial in
  st_of s TInitComponents = Finished Returns /\
  filter (fun ev => has ev phase1_events) (trace s) = phase1_events.
Proof.
  intros s.
  assert (H : st_of s TInitComponents = Finished Returns)
    by (vm_compute; reflexivity).
  split; [exact H|].
  exact (proj2 (proj2 (proj2 (proj2 (proj2 (proj2
           (phase1_sequential all_prompt first_round)))))) H).
Defined.

Lemma service_exception_ends_loop_witness :
  let s := exec two_services_fail first_round initial in
  In TServerRun services /\
  In (Raised (svc_callee TServerRun) 2) (trace s) /\
  exists y,
    (st_of s TScheduleTasks = InGather services (Some (Raises y)) \/
     st_of s TScheduleTasks = Finished (Raises y)) /\
    failed_with s y /\
    first_failure (trace s) = Some y.
Proof.
  intros s.
  assert (Ht : In TServerRun services) by (cbn; tauto).
  assert (Hr : In (Raised (svc_callee TServerRun) 2) (trace s))
    by (vm_compute; tauto).
  split; [exact Ht|]. split; [exact Hr|].
  exact (proj1 (@service_exception_ends_loop two_services_fail first_round
                  TServerRun 2 Ht Hr)).
Defined.

Lemma on_start_only_after_bootstrap_witness :
  let s := exec migration_fails first_round initial in
  In (Raised check_and_run_migrations 5) (trace s) /\
  ~ In (Begin handle_mai_events_ON_START) (trace s) /\
  st_of s TInitComponents = Finished (Raises 5) /\
  exists m y,
    st_of (run_fifo migration_fails (4 + m) initial) TMain =
      Finished (Raises y) /\
    (y = 5 \/
     st_of (run_fifo migration_fails (4 + m) initial) TScheduleTasks =
       Finished (Raises y)).
Proof.
  intros s.
  assert (Hr : In (Raised check_and_run_migrations 5) (trace s))
    by (vm_compute; tauto).
  assert (Hf : In (Raised check_and_run_migrations 5)
                  (trace (run_fifo migration_fails 4 initial)))
    by (vm_compute; tauto).
  split; [exact Hr|].
  destruct (on_start_only_after_bootstrap migration_fails first_round 4)
    as (_ & H2 & H3).
  destruct (H2 5 Hr) as (H21 & _ & H22 & _).
  split; [exact H21|]. split; [exact H22|]. exact (H3 5 Hf).
Defined.
